(** * sockpp: packet codec, address value type and socket lifecycle

    A shallow embedding of the parts of sockpp that the transport-layer
    specification talks about: [Packet] (Packet.cpp), [IpAddress]
    (IpAddress.cpp), [Socket] (Socket.cpp), [UdpSocket] (UdpSocket.cpp),
    [TcpListener] (TcpListener.cpp) and the framed receive of [TcpSocket].

    Conventions.
    - C++ integers are [Z] with the wrap-around written out ([uwrap],
      [swrap]); [std::size_t] is 64 bits wide, except in [Portable],
      where its width is a parameter.
    - [std::byte], [char] and [std::uint8_t] storage is [Byte.byte].
    - [std::memcpy] between an object and the packet buffer goes through
      the object representation [obj_repr]/[obj_value], which depends on
      the byte order of the host; every definition takes the host's
      [Endian] so that the theorems hold on both kinds of machine.
    - A [float]/[double] is the integer that encodes its IEEE-754 bit
      pattern: the codec only ever copies those bits.
    - The operating system is a trace of calls ([OsCall]) plus an
      environment of the answers it gives ([OsEnv]). *)

From Stdlib Require Import String Ascii DecimalString.
From Stdlib Require Import ZArith List Bool Lia.
From Stdlib Require Import Strings.Byte.
From coqutil Require Import Z.bitblast.
Import ListNotations.
Local Open Scope Z_scope.

(* ===================================================================== *)
(** ** Machine integers *)
(* ===================================================================== *)

Module MachineInt.

(** Conversion to an unsigned integer type of [w] bits. *)
Definition uwrap (w : Z) (z : Z) : Z := z mod 2 ^ w.

(** Conversion to a signed (two's complement) integer type of [w] bits. *)
Definition swrap (w : Z) (z : Z) : Z :=
  (z + 2 ^ (w - 1)) mod 2 ^ w - 2 ^ (w - 1).

Definition in_unsigned (w : Z) (z : Z) : Prop := 0 <= z < 2 ^ w.
Definition in_signed (w : Z) (z : Z) : Prop := - 2 ^ (w - 1) <= z < 2 ^ (w - 1).

(** [std::size_t] arithmetic (64 bits). *)
Definition size_t_bits : Z := 64.
Definition size_t_add (a b : Z) : Z := uwrap size_t_bits (a + b).
Definition size_t_mul (a b : Z) : Z := uwrap size_t_bits (a * b).

Definition Z_of_byte (b : byte) : Z := Z.of_N (Byte.to_N b).

(** [static_cast<std::uint8_t>] of an integer, stored in one byte. *)
Definition byte_of_Z (z : Z) : byte :=
  match Byte.of_N (Z.to_N (z mod 256)) with
  | Some b => b
  | None => x00
  end.

End MachineInt.
Import MachineInt.

(* ===================================================================== *)
(** ** Object representations and byte order *)
(* ===================================================================== *)

Module Mem.

Inductive Endian := Little | Big.

(** The [n] low-order bytes of [v], least significant first. *)
Fixpoint le_bytes (n : nat) (v : Z) : list byte :=
  match n with
  | O => []
  | S k => byte_of_Z v :: le_bytes k (v / 256)
  end.

(** The unsigned integer whose bytes, least significant first, are [bs]. *)
Fixpoint from_le (bs : list byte) : Z :=
  match bs with
  | [] => 0
  | b :: tl => Z_of_byte b + 256 * from_le tl
  end.

Section Host.
Variable host : Endian.

(** The [n] bytes an integer object of value [v] occupies in memory. *)
Definition obj_repr (n : nat) (v : Z) : list byte :=
  match host with
  | Little => le_bytes n v
  | Big => rev (le_bytes n v)
  end.

(** The value of an unsigned integer object whose memory is [bs]. *)
Definition obj_value (bs : list byte) : Z :=
  match host with
  | Little => from_le bs
  | Big => from_le (rev bs)
  end.

(** The value of a signed integer object whose memory is [bs]. *)
Definition obj_value_signed (bs : list byte) : Z :=
  swrap (8 * Z.of_nat (length bs)) (obj_value bs).

(** Byte swap of an [n]-byte unsigned integer. *)
Definition bswap (n : nat) (v : Z) : Z := from_le (rev (le_bytes n v)).

(** [htons]/[htonl] and their inverses: the identity on a big-endian
    host, a byte swap on a little-endian one. *)
Definition htons (v : Z) : Z :=
  match host with Little => bswap 2 v | Big => uwrap 16 v end.
Definition ntohs (v : Z) : Z := htons v.
Definition htonl (v : Z) : Z :=
  match host with Little => bswap 4 v | Big => uwrap 32 v end.
Definition ntohl (v : Z) : Z := htonl v.

End Host.

End Mem.
Import Mem.

(* ===================================================================== *)
(** ** Packet (Packet.h, Packet.cpp) *)
(* ===================================================================== *)

Module Packet.

Record Packet := mkPacket {
  m_data : list byte;   (* std::vector<std::byte> m_data *)
  m_readPos : Z;        (* std::size_t m_readPos{}       *)
  m_sendPos : Z;        (* std::size_t m_sendPos{}       *)
  m_isValid : bool      (* bool m_isValid{true}          *)
}.

(** [Packet() = default]. *)
Definition empty : Packet := mkPacket [] 0 0 true.

Definition set_data (d : list byte) (p : Packet) : Packet :=
  mkPacket d (m_readPos p) (m_sendPos p) (m_isValid p).
Definition set_readPos (r : Z) (p : Packet) : Packet :=
  mkPacket (m_data p) r (m_sendPos p) (m_isValid p).
Definition set_isValid (v : bool) (p : Packet) : Packet :=
  mkPacket (m_data p) (m_readPos p) (m_sendPos p) v.

(** [m_data.size()]. *)
Definition data_size (p : Packet) : Z := Z.of_nat (length (m_data p)).

(** [Packet::append(const void* data, std::size_t sizeInBytes)].
    The pointer is [None] when it is null, and otherwise gives the
    bytes it points to, of which the first [sizeInBytes] are copied. *)
Definition append (data : option (list byte)) (sizeInBytes : Z) (p : Packet) : Packet :=
  match data with
  | Some bytes =>
      if 0 <? sizeInBytes
      then set_data (m_data p ++ firstn (Z.to_nat sizeInBytes) bytes) p
      else p
  | None => p
  end.

Definition getReadPosition (p : Packet) : Z := m_readPos p.

(** [Packet::clear()]. *)
Definition clear (p : Packet) : Packet :=
  mkPacket [] 0 (m_sendPos p) true.

Definition getDataSize (p : Packet) : Z := data_size p.

(** [Packet::getData()]: null for an empty buffer. *)
Definition getData (p : Packet) : option (list byte) :=
  match m_data p with
  | [] => None
  | _ => Some (m_data p)
  end.

Definition endOfPacket (p : Packet) : bool := data_size p <=? m_readPos p.

(** [Packet::operator bool()]. *)
Definition to_bool (p : Packet) : bool := m_isValid p.

(** [Packet::checkSize(std::size_t size)]. *)
Definition checkSize (size : Z) (p : Packet) : bool * Packet :=
  let overflow_detected := size_t_add (m_readPos p) size <? m_readPos p in
  let valid :=
    m_isValid p && (size_t_add (m_readPos p) size <=? data_size p)
                && negb overflow_detected in
  (valid, set_isValid valid p).

(** The [n] bytes at [&m_data[m_readPos]], as [std::memcpy] reads them. *)
Definition bytes_at_readPos (n : nat) (p : Packet) : list byte :=
  firstn n (skipn (Z.to_nat (m_readPos p)) (m_data p)).

(** [m_readPos += n]. *)
Definition advance (n : Z) (p : Packet) : Packet :=
  set_readPos (size_t_add (m_readPos p) n) p.

(** A write [data[i] = x] into a caller's buffer.  A write past the end
    of the buffer is undefined behaviour in C++; the model leaves the
    buffer as it is there. *)
Fixpoint store_at {A : Type} (i : nat) (x : A) (l : list A) : list A :=
  match l, i with
  | [], _ => []
  | _ :: tl, O => x :: tl
  | h :: tl, S k => h :: store_at k x tl
  end.

(** [std::memcpy(data, src, n)] into a caller's buffer [dst]. *)
Definition overwrite {A : Type} (src dst : list A) : list A :=
  firstn (length dst) (src ++ skipn (length src) dst).

Section Codec.
Variable host : Endian.

(** *** Extraction: [operator>>].  Each function takes the packet and
    the current value of the caller's variable, and returns the packet
    and the variable as the call leaves them. *)

(** [operator>>(std::uint8_t&)]. *)
Definition extract_uint8 (p : Packet) (data : Z) : Packet * Z :=
  let (ok, p1) := checkSize 1 p in
  if ok then (advance 1 p1, obj_value host (bytes_at_readPos 1 p1))
  else (p1, data).

(** [operator>>(std::int8_t&)]. *)
Definition extract_int8 (p : Packet) (data : Z) : Packet * Z :=
  let (ok, p1) := checkSize 1 p in
  if ok then (advance 1 p1, obj_value_signed host (bytes_at_readPos 1 p1))
  else (p1, data).

(** [operator>>(bool&)]: reads a [std::uint8_t] into a local that
    starts at zero, and assigns only if the packet is still valid. *)
Definition extract_bool (p : Packet) (data : bool) : Packet * bool :=
  let (p1, value) := extract_uint8 p 0 in
  if to_bool p1 then (p1, negb (value =? 0)) else (p1, data).

(** [operator>>(std::int16_t&)]. *)
Definition extract_int16 (p : Packet) (data : Z) : Packet * Z :=
  let (ok, p1) := checkSize 2 p in
  if ok then
    let data1 := obj_value_signed host (bytes_at_readPos 2 p1) in
    let data2 := swrap 16 (ntohs host (uwrap 16 data1)) in
    (advance 2 p1, data2)
  else (p1, data).

(** [operator>>(std::uint16_t&)]. *)
Definition extract_uint16 (p : Packet) (data : Z) : Packet * Z :=
  let (ok, p1) := checkSize 2 p in
  if ok then
    let data1 := obj_value host (bytes_at_readPos 2 p1) in
    (advance 2 p1, ntohs host data1)
  else (p1, data).

(** [operator>>(std::int32_t&)]. *)
Definition extract_int32 (p : Packet) (data : Z) : Packet * Z :=
  let (ok, p1) := checkSize 4 p in
  if ok then
    let data1 := obj_value_signed host (bytes_at_readPos 4 p1) in
    let data2 := swrap 32 (ntohl host (uwrap 32 data1)) in
    (advance 4 p1, data2)
  else (p1, data).

(** [operator>>(std::uint32_t&)]. *)
Definition extract_uint32 (p : Packet) (data : Z) : Packet * Z :=
  let (ok, p1) := checkSize 4 p in
  if ok then
    let data1 := obj_value host (bytes_at_readPos 4 p1) in
    (advance 4 p1, ntohl host data1)
  else (p1, data).

(** The anonymous-namespace helper [ToInteger<T>(bytes...)]: a left
    fold that ORs each byte, shifted by [8 * i++], into [result].
    [castT] is [static_cast<T>]; [ToInteger_step] is one term of the
    fold expression. *)
Definition ToInteger_step (castT : Z -> Z) (acc : Z * Z) (b : byte) : Z * Z :=
  let (result, i) := acc in
  (Z.lor result (castT (Z.shiftl (castT (Z_of_byte b)) (8 * i))), i + 1).

Definition ToInteger (castT : Z -> Z) (bytes : list byte) : Z :=
  fst (fold_left (ToInteger_step castT) bytes (0, 0)).

(** The call [ToInteger<T>(bytes[7], bytes[6], ..., bytes[0])]. *)
Definition ToInteger_of_array (castT : Z -> Z) (bytes : list byte) : Z :=
  ToInteger castT (rev bytes).

(** [operator>>(std::int64_t&)]. *)
Definition extract_int64 (p : Packet) (data : Z) : Packet * Z :=
  let (ok, p1) := checkSize 8 p in
  if ok then
    let bytes := bytes_at_readPos 8 p1 in
    (advance 8 p1, ToInteger_of_array (swrap 64) bytes)
  else (p1, data).

(** [operator>>(std::uint64_t&)]. *)
Definition extract_uint64 (p : Packet) (data : Z) : Packet * Z :=
  let (ok, p1) := checkSize 8 p in
  if ok then
    let bytes := bytes_at_readPos 8 p1 in
    (advance 8 p1, ToInteger_of_array (uwrap 64) bytes)
  else (p1, data).

(** [operator>>(float&)]: the four bytes are copied as they are. *)
Definition extract_float (p : Packet) (data : Z) : Packet * Z :=
  let (ok, p1) := checkSize 4 p in
  if ok then (advance 4 p1, obj_value host (bytes_at_readPos 4 p1))
  else (p1, data).

(** [operator>>(double&)]. *)
Definition extract_double (p : Packet) (data : Z) : Packet * Z :=
  let (ok, p1) := checkSize 8 p in
  if ok then (advance 8 p1, obj_value host (bytes_at_readPos 8 p1))
  else (p1, data).

(** *** Insertion: [operator<<]. *)

(** [operator<<(std::uint8_t)]. *)
Definition insert_uint8 (data : Z) (p : Packet) : Packet :=
  append (Some (obj_repr host 1 data)) 1 p.

(** [operator<<(std::int8_t)]. *)
Definition insert_int8 (data : Z) (p : Packet) : Packet :=
  append (Some (obj_repr host 1 data)) 1 p.

(** [operator<<(bool)]. *)
Definition insert_bool (data : bool) (p : Packet) : Packet :=
  insert_uint8 (if data then 1 else 0) p.

(** [operator<<(std::int16_t)]. *)
Definition insert_int16 (data : Z) (p : Packet) : Packet :=
  let to_write := swrap 16 (htons host (uwrap 16 data)) in
  append (Some (obj_repr host 2 to_write)) 2 p.

(** [operator<<(std::uint16_t)]. *)
Definition insert_uint16 (data : Z) (p : Packet) : Packet :=
  let to_write := htons host data in
  append (Some (obj_repr host 2 to_write)) 2 p.

(** [operator<<(std::int32_t)]. *)
Definition insert_int32 (data : Z) (p : Packet) : Packet :=
  let to_write := swrap 32 (htonl host (uwrap 32 data)) in
  append (Some (obj_repr host 4 to_write)) 4 p.

(** [operator<<(std::uint32_t)]. *)
Definition insert_uint32 (data : Z) (p : Packet) : Packet :=
  let to_write := htonl host data in
  append (Some (obj_repr host 4 to_write)) 4 p.

(** The array [to_write] of [operator<<(std::int64_t)] and
    [operator<<(std::uint64_t)]: [(data >> 56) & 0xFF], ...,
    [(data) & 0xFF], each cast to [std::uint8_t]. *)
Definition to_write64 (data : Z) : list byte :=
  [ byte_of_Z (Z.land (Z.shiftr data 56) 255);
    byte_of_Z (Z.land (Z.shiftr data 48) 255);
    byte_of_Z (Z.land (Z.shiftr data 40) 255);
    byte_of_Z (Z.land (Z.shiftr data 32) 255);
    byte_of_Z (Z.land (Z.shiftr data 24) 255);
    byte_of_Z (Z.land (Z.shiftr data 16) 255);
    byte_of_Z (Z.land (Z.shiftr data 8) 255);
    byte_of_Z (Z.land data 255) ].

(** [operator<<(std::int64_t)]. *)
Definition insert_int64 (data : Z) (p : Packet) : Packet :=
  let to_write := to_write64 data in
  append (Some to_write) (Z.of_nat (length to_write)) p.

(** [operator<<(std::uint64_t)]. *)
Definition insert_uint64 (data : Z) (p : Packet) : Packet :=
  let to_write := to_write64 data in
  append (Some to_write) (Z.of_nat (length to_write)) p.

(** [operator<<(float)]. *)
Definition insert_float (data : Z) (p : Packet) : Packet :=
  append (Some (obj_repr host 4 data)) 4 p.

(** [operator<<(double)]. *)
Definition insert_double (data : Z) (p : Packet) : Packet :=
  append (Some (obj_repr host 8 data)) 8 p.

(** [operator<<] for [const char*]; [data] is the string up to its
    terminator, so that [std::strlen(data)] is its length. *)
Definition insert_cstr (data : list byte) (p : Packet) : Packet :=
  let length := uwrap 32 (Z.of_nat (List.length data)) in
  let p1 := insert_uint32 length p in
  append (Some data) (size_t_mul length 1) p1.

(** [operator<<(const std::string&)]. *)
Definition insert_string (data : list byte) (p : Packet) : Packet :=
  let length := uwrap 32 (Z.of_nat (List.length data)) in
  let p1 := insert_uint32 length p in
  if 0 <? length then append (Some data) (size_t_mul length 1) p1 else p1.

(** The loops [*this << static_cast<std::uint32_t>(c)] over the
    characters of a wide string. *)
Definition insert_chars (data : list Z) (p : Packet) : Packet :=
  fold_left (fun q c => insert_uint32 (uwrap 32 c) q) data p.

(** [operator<<] for [const wchar_t*]. *)
Definition insert_wcstr (data : list Z) (p : Packet) : Packet :=
  let length := uwrap 32 (Z.of_nat (List.length data)) in
  insert_chars data (insert_uint32 length p).

(** [operator<<(const std::wstring&)]. *)
Definition insert_wstring (data : list Z) (p : Packet) : Packet :=
  let length := uwrap 32 (Z.of_nat (List.length data)) in
  let p1 := insert_uint32 length p in
  if 0 <? length then insert_chars data p1 else p1.

(** [operator<<(const std::u32string&)]. *)
Definition insert_u32string (data : list Z) (p : Packet) : Packet :=
  let length := uwrap 32 (Z.of_nat (List.length data)) in
  let p1 := insert_uint32 length p in
  if 0 <? length then insert_chars data p1 else p1.

(** [operator>>] for [char*]; [data] is the caller's buffer. *)
Definition extract_cstr (p : Packet) (data : list byte) : Packet * list byte :=
  let (p1, length) := extract_uint32 p 0 in
  if 0 <? length then
    let (ok, p2) := checkSize length p1 in
    if ok then
      let data1 := overwrite (bytes_at_readPos (Z.to_nat length) p2) data in
      let data2 := store_at (Z.to_nat length) x00 data1 in
      (advance length p2, data2)
    else (p2, data)
  else (p1, data).

(** [operator>>(std::string&)]. *)
Definition extract_string (p : Packet) (data : list byte) : Packet * list byte :=
  let (p1, length) := extract_uint32 p 0 in
  let data0 : list byte := [] in                       (* data.clear() *)
  if 0 <? length then
    let (ok, p2) := checkSize length p1 in
    if ok then (advance length p2, bytes_at_readPos (Z.to_nat length) p2)
    else (p2, data0)
  else (p1, data0).

(** The loop of [operator>>] for [wchar_t*]:
    [for (i = 0; i < length; ++i) { *this >> character; data[i] = ...; }],
    with [n] iterations left and [i] the current index. *)
Fixpoint extract_chars_into (castC : Z -> Z) (n : nat) (i : nat)
         (p : Packet) (data : list Z) : Packet * list Z :=
  match n with
  | O => (p, data)
  | S k =>
      let (p1, character) := extract_uint32 p 0 in
      extract_chars_into castC k (S i) p1 (store_at i (castC character) data)
  end.

(** The loop of the [std::wstring] and [std::u32string] extractions:
    [for (i = 0; i < length; ++i) { *this >> character; data += ...; }]. *)
Fixpoint extract_chars (castC : Z -> Z) (n : nat)
         (p : Packet) (data : list Z) : Packet * list Z :=
  match n with
  | O => (p, data)
  | S k =>
      let (p1, character) := extract_uint32 p 0 in
      extract_chars castC k p1 (data ++ [castC character])
  end.

(** [static_cast<wchar_t>] (a signed 32-bit type on the Unix targets)
    and [static_cast<char32_t>]. *)
Definition cast_wchar_t (c : Z) : Z := swrap 32 c.
Definition cast_char32_t (c : Z) : Z := uwrap 32 c.

(** [operator>>] for [wchar_t*]. *)
Definition extract_wcstr (p : Packet) (data : list Z) : Packet * list Z :=
  let (p1, length) := extract_uint32 p 0 in
  if 0 <? length then
    let (ok, p2) := checkSize (size_t_mul length 4) p1 in
    if ok then
      let (p3, data1) := extract_chars_into cast_wchar_t (Z.to_nat length) O p2 data in
      (p3, store_at (Z.to_nat length) 0 data1)
    else (p2, data)
  else (p1, data).

(** [operator>>(std::wstring&)]. *)
Definition extract_wstring (p : Packet) (data : list Z) : Packet * list Z :=
  let (p1, length) := extract_uint32 p 0 in
  let data0 : list Z := [] in                          (* data.clear() *)
  if 0 <? length then
    let (ok, p2) := checkSize (size_t_mul length 4) p1 in
    if ok then extract_chars cast_wchar_t (Z.to_nat length) p2 data0
    else (p2, data0)
  else (p1, data0).

(** [operator>>(std::u32string&)]. *)
Definition extract_u32string (p : Packet) (data : list Z) : Packet * list Z :=
  let (p1, length) := extract_uint32 p 0 in
  let data0 : list Z := [] in                          (* data.clear() *)
  if 0 <? length then
    let (ok, p2) := checkSize (size_t_mul length 4) p1 in
    if ok then extract_chars cast_char32_t (Z.to_nat length) p2 data0
    else (p2, data0)
  else (p1, data0).

(** [Packet::onSend] and [Packet::onReceive] (the default ones). *)
Definition onSend (p : Packet) : option (list byte) * Z :=
  (getData p, getDataSize p).
Definition onReceive (data : option (list byte)) (size : Z) (p : Packet) : Packet :=
  append data size p.

(** *** The overloads, by the type of the caller's variable *)

(** A variable of one of the types [operator>>] and [operator<<] are
    overloaded for, with its value. *)
Inductive Value :=
| VBool (b : bool)
| VInt8 (z : Z) | VUInt8 (z : Z)
| VInt16 (z : Z) | VUInt16 (z : Z)
| VInt32 (z : Z) | VUInt32 (z : Z)
| VInt64 (z : Z) | VUInt64 (z : Z)
| VFloat (bits : Z) | VDouble (bits : Z)
| VCStr (buf : list byte)        (* char* / const char*       *)
| VString (s : list byte)        (* std::string               *)
| VWCStr (buf : list Z)          (* wchar_t* / const wchar_t* *)
| VWString (s : list Z)          (* std::wstring              *)
| VU32String (s : list Z).       (* std::u32string            *)

Definition on_snd {A B C : Type} (f : B -> C) (r : A * B) : A * C :=
  (fst r, f (snd r)).

(** [packet >> out]. *)
Definition extract (out : Value) (p : Packet) : Packet * Value :=
  match out with
  | VBool b => on_snd VBool (extract_bool p b)
  | VInt8 z => on_snd VInt8 (extract_int8 p z)
  | VUInt8 z => on_snd VUInt8 (extract_uint8 p z)
  | VInt16 z => on_snd VInt16 (extract_int16 p z)
  | VUInt16 z => on_snd VUInt16 (extract_uint16 p z)
  | VInt32 z => on_snd VInt32 (extract_int32 p z)
  | VUInt32 z => on_snd VUInt32 (extract_uint32 p z)
  | VInt64 z => on_snd VInt64 (extract_int64 p z)
  | VUInt64 z => on_snd VUInt64 (extract_uint64 p z)
  | VFloat z => on_snd VFloat (extract_float p z)
  | VDouble z => on_snd VDouble (extract_double p z)
  | VCStr b => on_snd VCStr (extract_cstr p b)
  | VString s => on_snd VString (extract_string p s)
  | VWCStr b => on_snd VWCStr (extract_wcstr p b)
  | VWString s => on_snd VWString (extract_wstring p s)
  | VU32String s => on_snd VU32String (extract_u32string p s)
  end.

(** [packet << v]. *)
Definition insert (v : Value) (p : Packet) : Packet :=
  match v with
  | VBool b => insert_bool b p
  | VInt8 z => insert_int8 z p
  | VUInt8 z => insert_uint8 z p
  | VInt16 z => insert_int16 z p
  | VUInt16 z => insert_uint16 z p
  | VInt32 z => insert_int32 z p
  | VUInt32 z => insert_uint32 z p
  | VInt64 z => insert_int64 z p
  | VUInt64 z => insert_uint64 z p
  | VFloat z => insert_float z p
  | VDouble z => insert_double z p
  | VCStr b => insert_cstr b p
  | VString s => insert_string s p
  | VWCStr b => insert_wcstr b p
  | VWString s => insert_wstring s p
  | VU32String s => insert_u32string s p
  end.

(** The values a variable of a scalar type can hold. *)
Definition scalar_value (v : Value) : Prop :=
  match v with
  | VBool _ => True
  | VInt8 z => in_signed 8 z
  | VUInt8 z => in_unsigned 8 z
  | VInt16 z => in_signed 16 z
  | VUInt16 z => in_unsigned 16 z
  | VInt32 z => in_signed 32 z
  | VUInt32 z => in_unsigned 32 z
  | VInt64 z => in_signed 64 z
  | VUInt64 z => in_unsigned 64 z
  | VFloat z => in_unsigned 32 z
  | VDouble z => in_unsigned 64 z
  | _ => False
  end.

(** Two variables of the same type. *)
Definition same_type (a b : Value) : Prop :=
  match a, b with
  | VBool _, VBool _ | VInt8 _, VInt8 _ | VUInt8 _, VUInt8 _
  | VInt16 _, VInt16 _ | VUInt16 _, VUInt16 _
  | VInt32 _, VInt32 _ | VUInt32 _, VUInt32 _
  | VInt64 _, VInt64 _ | VUInt64 _, VUInt64 _
  | VFloat _, VFloat _ | VDouble _, VDouble _
  | VCStr _, VCStr _ | VString _, VString _
  | VWCStr _, VWCStr _ | VWString _, VWString _
  | VU32String _, VU32String _ => True
  | _, _ => False
  end.


(** The operations that change a packet, [clear] apart. *)
Inductive Op :=
| OpExtract (out : Value)                              (* packet >> out *)
| OpInsert (v : Value)                                 (* packet << v   *)
| OpAppend (data : option (list byte)) (sizeInBytes : Z)
| OpOnReceive (data : option (list byte)) (size : Z).

Definition run_op (o : Op) (p : Packet) : Packet :=
  match o with
  | OpExtract out => fst (extract out p)
  | OpInsert v => insert v p
  | OpAppend data n => append data n p
  | OpOnReceive data n => onReceive data n p
  end.

Definition run_ops (ops : list Op) (p : Packet) : Packet :=
  fold_left (fun q o => run_op o q) ops p.

End Codec.

End Packet.
Import Packet.

(* ===================================================================== *)
(** ** IpAddress (IpAddress.h, IpAddress.cpp) *)
(* ===================================================================== *)

Module IpAddress.

Record IpAddress := mkIpAddress {
  m_address : Z;     (* std::uint32_t m_address{}, in network byte order *)
  m_valid : bool     (* bool m_valid{}                                    *)
}.

(** The decimal digits of a byte, as the C library prints [%u]. *)
Definition decimal (b : byte) : string :=
  NilZero.string_of_uint (N.to_uint (Byte.to_N b)).

(** The dotted-decimal text "b0.b1.b2.b3". *)
Definition dotted_decimal (b0 b1 b2 b3 : byte) : string :=
  String.concat "." (map decimal [b0; b1; b2; b3]).

(** The C library's [inet_ntop(AF_INET, src, buffer, INET_ADDRSTRLEN)]:
    [src] is the memory of an [in_addr], whose four bytes it prints in
    the order they are stored; the buffer is always large enough. *)
Definition inet_ntop (src : list byte) : option string :=
  match src with
  | [a; b; c; d] =>
      Some (decimal a ++ "." ++ decimal b ++ "." ++ decimal c ++ "." ++ decimal d)%string
  | _ => None
  end.

Section Host.
Variable host : Endian.

(** [byte << n] after the integral promotion of a [std::uint8_t] to
    [int]. *)
Definition int_shl (b : byte) (n : Z) : Z := swrap 32 (Z.shiftl (Z_of_byte b) n).

(** [IpAddress::IpAddress(std::uint32_t address)]. *)
Definition of_integer (address : Z) : IpAddress :=
  mkIpAddress (htonl host address) true.

(** [IpAddress::IpAddress(byte0, byte1, byte2, byte3)]. *)
Definition of_bytes (byte0 byte1 byte2 byte3 : byte) : IpAddress :=
  mkIpAddress
    (htonl host
       (uwrap 32 (Z.lor (Z.lor (Z.lor (int_shl byte0 24) (int_shl byte1 16))
                               (int_shl byte2 8))
                        (Z_of_byte byte3))))
    true.

Definition Any : IpAddress := of_bytes x00 x00 x00 x00.
Definition LocalHost : IpAddress := of_bytes x7f x00 x00 x01.
Definition Broadcast : IpAddress := of_bytes xff xff xff xff.

(** [IpAddress::toString()]. *)
Definition toString (a : IpAddress) : string :=
  match inet_ntop (obj_repr host 4 (m_address a)) with
  | Some buffer => buffer
  | None => "0.0.0.0"%string
  end.

(** [IpAddress::toInteger()]. *)
Definition toInteger (a : IpAddress) : Z := ntohl host (m_address a).

End Host.

(** [operator<] of [bool], where [false < true]. *)
Definition bool_lt (a b : bool) : bool := negb a && b.

(** [operator<]: the order of [std::pair] on (validity, value). *)
Definition lt (left right : IpAddress) : bool :=
  bool_lt (m_valid left) (m_valid right)
  || (negb (bool_lt (m_valid right) (m_valid left))
      && (m_address left <? m_address right)).

(** [operator==]. *)
Definition eq (left right : IpAddress) : bool :=
  negb (lt left right) && negb (lt right left).

End IpAddress.

(* ===================================================================== *)
(** ** Socket (Socket.h, Socket.cpp, unix SocketImpl.cpp) *)
(* ===================================================================== *)

Module Socket.

Inductive Status := Done | NotReady | Partial | Disconnected | Error.

Inductive Type_ := Tcp | Udp.

Definition SocketHandle := Z.

(** [SocketImpl::invalidSocket()]. *)
Definition invalidSocket : SocketHandle := -1.

Record Socket := mkSocket {
  m_type : Type_;
  m_socket : SocketHandle;
  m_isBlocking : bool
}.

(** [Socket::Socket(Type type)]. *)
Definition new (type : Type_) : Socket := mkSocket type invalidSocket true.

Inductive SockOpt := TCP_NODELAY | SO_BROADCAST.

(** The calls made to the operating system. *)
Inductive OsCall :=
| sys_socket (type : Type_)
| sys_close (sock : SocketHandle)
| sys_setBlocking (sock : SocketHandle) (block : bool)
| sys_setsockopt (sock : SocketHandle) (opt : SockOpt)
| sys_bind (sock : SocketHandle) (address : Z) (port : Z)
| sys_listen (sock : SocketHandle)
| sys_sendto (sock : SocketHandle) (data : list byte) (address : Z) (port : Z)
| sys_recvfrom (sock : SocketHandle) (size : Z).

(** The values of [errno] that [SocketImpl::getErrorStatus] tells apart. *)
Inductive Errno :=
| EAGAIN | EINPROGRESS | EWOULDBLOCK | ECONNABORTED | ECONNRESET
| ETIMEDOUT | ENETRESET | ENOTCONN | EPIPE | EOTHER.

(** What the operating system answers during one operation. *)
Record OsEnv := mkOsEnv {
  env_socket : SocketHandle;     (* result of socket()     *)
  env_bind : Z;                  (* result of bind()       *)
  env_listen : Z;                (* result of listen()     *)
  env_sendto : Z;                (* result of sendto()     *)
  env_recvfrom : Z;              (* result of recvfrom()   *)
  env_datagram : list byte;      (* bytes recvfrom() wrote *)
  env_sender : Z * Z;            (* sender address and port, host order *)
  env_errno : Errno
}.

(** The state an operation runs in: the socket object and the trace of
    operating-system calls made so far. *)
Record State := mkState {
  this : Socket;
  os_trace : list OsCall
}.

(** A state monad over [State]. *)
Definition M (A : Type) : Type := State -> A * State.
Definition ret {A : Type} (a : A) : M A := fun s => (a, s).
Definition bind {A B : Type} (m : M A) (f : A -> M B) : M B :=
  fun s => let (a, s') := m s in f a s'.

Declare Scope sock_scope.
Delimit Scope sock_scope with sock.
Notation "x <- m ;; k" := (bind m (fun x => k))
  (at level 61, m at next level, right associativity) : sock_scope.
Notation "m ;;; k" := (bind m (fun _ => k))
  (at level 61, right associativity) : sock_scope.
Local Open Scope sock_scope.

Definition sys (c : OsCall) : M unit :=
  fun s => (tt, mkState (this s) (os_trace s ++ [c])).
Definition getNativeHandle : M SocketHandle :=
  fun s => (m_socket (this s), s).
Definition get_type : M Type_ := fun s => (m_type (this s), s).
Definition isBlocking : M bool := fun s => (m_isBlocking (this s), s).
Definition set_m_socket (h : SocketHandle) : M unit :=
  fun s => (tt, mkState (mkSocket (m_type (this s)) h (m_isBlocking (this s)))
                        (os_trace s)).
Definition set_m_isBlocking (b : bool) : M unit :=
  fun s => (tt, mkState (mkSocket (m_type (this s)) (m_socket (this s)) b)
                        (os_trace s)).

(** [SocketImpl::getErrorStatus()] of the Unix implementation. *)
Definition getErrorStatus (e : Errno) : Status :=
  match e with
  | EAGAIN | EINPROGRESS => NotReady
  | EWOULDBLOCK => NotReady
  | ECONNABORTED | ECONNRESET | ETIMEDOUT | ENETRESET | ENOTCONN | EPIPE =>
      Disconnected
  | EOTHER => Error
  end.

(** [Socket::setBlocking(bool blocking)]. *)
Definition setBlocking (blocking : bool) : M unit :=
  h <- getNativeHandle ;;
  (if negb (h =? invalidSocket) then sys (sys_setBlocking h blocking) else ret tt) ;;;
  set_m_isBlocking blocking.

(** [Socket::create(SocketHandle handle)]. *)
Definition create_handle (handle : SocketHandle) : M unit :=
  h <- getNativeHandle ;;
  if h =? invalidSocket then
    set_m_socket handle ;;;
    b <- isBlocking ;;
    setBlocking b ;;;
    t <- get_type ;;
    match t with
    | Tcp => sys (sys_setsockopt handle TCP_NODELAY)
    | Udp => sys (sys_setsockopt handle SO_BROADCAST)
    end
  else ret tt.

(** [Socket::create()]. *)
Definition create (env : OsEnv) : M unit :=
  h <- getNativeHandle ;;
  if h =? invalidSocket then
    t <- get_type ;;
    sys (sys_socket t) ;;;
    let handle := env_socket env in
    if handle =? invalidSocket then ret tt
    else create_handle handle
  else ret tt.

(** [Socket::close()]. *)
Definition close : M unit :=
  h <- getNativeHandle ;;
  if negb (h =? invalidSocket) then
    sys (sys_close h) ;;;
    set_m_socket invalidSocket
  else ret tt.

(** The calls an operation added to the trace. *)
Definition is_bind_or_listen (c : OsCall) : bool :=
  match c with
  | sys_bind _ _ _ | sys_listen _ => true
  | _ => false
  end.
Definition is_sendto (c : OsCall) : bool :=
  match c with
  | sys_sendto _ _ _ _ => true
  | _ => false
  end.

(** The calls of a kind [f] in the trace of a state. *)
Definition calls (f : OsCall -> bool) (s : State) : list OsCall :=
  filter f (os_trace s).

(** A kind of calls that creating, configuring and closing a handle do
    not belong to. *)
Definition not_lifecycle (f : OsCall -> bool) : Prop :=
  (forall t, f (sys_socket t) = false)
  /\ (forall h, f (sys_close h) = false)
  /\ (forall h b, f (sys_setBlocking h b) = false)
  /\ (forall h o, f (sys_setsockopt h o) = false).

End Socket.

(* ===================================================================== *)
(** ** UdpSocket (UdpSocket.cpp) *)
(* ===================================================================== *)

Module UdpSocket.
Import Socket.
Local Open Scope sock_scope.

Definition status_eqb (a b : Status) : bool :=
  match a, b with
  | Done, Done | NotReady, NotReady | Partial, Partial
  | Disconnected, Disconnected | Error, Error => true
  | _, _ => false
  end.

(** [std::vector::resize(n)] and [std::vector::data()] (null for an
    empty vector). *)
Definition vector_resize (n : nat) (v : list byte) : list byte :=
  firstn n v ++ repeat x00 (n - length v).
Definition vector_data (v : list byte) : option (list byte) :=
  match v with
  | [] => None
  | _ => Some v
  end.

(** What the raw [receive] leaves in its out-parameters. *)
Record Received := mkReceived {
  r_status : Status;
  r_data : option (list byte);                  (* the destination buffer *)
  r_received : Z;
  r_remoteAddress : option IpAddress.IpAddress;
  r_remotePort : Z
}.

(** What the packet [receive] returns and leaves in its arguments. *)
Record PacketReceived := mkPacketReceived {
  pr_status : Status;
  pr_buffer : list byte;                         (* m_buffer              *)
  pr_packet : Packet;                            (* the caller's packet   *)
  pr_remoteAddress : option IpAddress.IpAddress;
  pr_remotePort : Z
}.

Section Datagram.
Variable host : Endian.

(** [UdpSocket::MaxDatagramSize] is declared in UdpSocket.h, which is
    not among the sources; the definitions take it as a parameter. *)
Variable MaxDatagramSize : Z.

(** [UdpSocket::bind(unsigned short port, IpAddress address)]. *)
Definition bind_ (env : OsEnv) (port : Z) (address : IpAddress.IpAddress) : M Status :=
  close ;;;
  create env ;;;
  if IpAddress.eq address (IpAddress.Broadcast host) then ret Error
  else
    h <- getNativeHandle ;;
    sys (sys_bind h (IpAddress.toInteger host address) port) ;;;
    if env_bind env =? -1 then ret Error else ret Done.

(** [UdpSocket::unbind()]. *)
Definition unbind : M unit := close.

(** [UdpSocket::send(const void* data, std::size_t size,
    IpAddress remoteAddress, unsigned short remotePort)]. *)
Definition send (env : OsEnv) (data : option (list byte)) (size : Z)
           (remoteAddress : IpAddress.IpAddress) (remotePort : Z) : M Status :=
  create env ;;;
  if MaxDatagramSize <? size then ret Error
  else
    h <- getNativeHandle ;;
    sys (sys_sendto h
           (firstn (Z.to_nat size) (match data with Some d => d | None => [] end))
           (IpAddress.toInteger host remoteAddress) remotePort) ;;;
    let sent := swrap 32 (env_sendto env) in
    if sent <? 0 then ret (getErrorStatus (env_errno env)) else ret Done.

(** [UdpSocket::receive(void* data, std::size_t size,
    std::size_t& received, std::optional<IpAddress>& remoteAddress,
    unsigned short& remotePort)]. *)
Definition receive (env : OsEnv) (data : option (list byte)) (size : Z) : M Received :=
  match data with
  | None => ret (mkReceived Error data 0 None 0)
  | Some buffer =>
      h <- getNativeHandle ;;
      sys (sys_recvfrom h size) ;;;
      let size_received := swrap 32 (env_recvfrom env) in
      if size_received <? 0
      then ret (mkReceived (getErrorStatus (env_errno env)) data 0 None 0)
      else
        ret (mkReceived Done
               (Some (overwrite (firstn (Z.to_nat size) (env_datagram env)) buffer))
               (uwrap size_t_bits size_received)
               (Some (IpAddress.of_integer host (fst (env_sender env))))
               (snd (env_sender env)))
  end.

(** [UdpSocket::send(Packet& packet, IpAddress remoteAddress,
    unsigned short remotePort)]. *)
Definition send_packet (env : OsEnv) (packet : Packet)
           (remoteAddress : IpAddress.IpAddress) (remotePort : Z) : M Status :=
  let (data, size) := onSend packet in
  send env data size remoteAddress remotePort.

(** [UdpSocket::receive(Packet& packet, std::optional<IpAddress>&
    remoteAddress, unsigned short& remotePort)]; [m_buffer] is the
    socket's receive buffer. *)
Definition receive_packet (env : OsEnv) (m_buffer : list byte) (packet : Packet)
  : M PacketReceived :=
  let m_buffer1 := vector_resize (Z.to_nat MaxDatagramSize) m_buffer in
  r <- receive env (vector_data m_buffer1) (Z.of_nat (length m_buffer1)) ;;
  let m_buffer2 := match r_data r with Some b => b | None => m_buffer1 end in
  let packet1 := clear packet in
  let packet2 :=
    if status_eqb (r_status r) Done && (0 <? r_received r)
    then onReceive (vector_data m_buffer2) (r_received r) packet1
    else packet1 in
  ret (mkPacketReceived (r_status r) m_buffer2 packet2
                        (r_remoteAddress r) (r_remotePort r)).

End Datagram.

End UdpSocket.

(* ===================================================================== *)
(** ** TcpListener (TcpListener.cpp) *)
(* ===================================================================== *)

Module TcpListener.
Import Socket.
Local Open Scope sock_scope.

Section Listener.
Variable host : Endian.

(** [TcpListener::TcpListener()]. *)
Definition new : Socket := Socket.new Tcp.

(** [TcpListener::listen(unsigned short port, IpAddress address)]. *)
Definition listen (env : OsEnv) (port : Z) (address : IpAddress.IpAddress) : M Status :=
  close ;;;
  create env ;;;
  if IpAddress.eq address (IpAddress.Broadcast host) then ret Error
  else
    h <- getNativeHandle ;;
    sys (sys_bind h (IpAddress.toInteger host address) port) ;;;
    if env_bind env =? -1 then ret Error
    else
      sys (sys_listen h) ;;;
      if env_listen env =? -1 then ret Error else ret Done.

End Listener.

End TcpListener.

(* ===================================================================== *)
(** ** TcpSocket (TcpSocket.h; the framed receive after the specification) *)
(* ===================================================================== *)

Module TcpSocket.
Import Socket.

(** [TcpSocket::PendingPacket]. *)
Record PendingPacket := mkPendingPacket {
  size : Z;                 (* std::uint32_t size{}        *)
  sizeReceived : Z;         (* std::size_t sizeReceived{}  *)
  data : list byte          (* std::vector<std::byte> data *)
}.

(** [PendingPacket()]: no frame in progress. *)
Definition no_pending : PendingPacket := mkPendingPacket 0 0 [].

(** A stream socket in non-blocking mode: its pending-packet state and
    the bytes that have arrived and were not read yet. *)
Record TcpSocket := mkTcpSocket {
  m_pendingPacket : PendingPacket;
  incoming : list byte
}.

(** Modelled from the spec: the raw [TcpSocket::receive(data, size,
    received)] of TcpSocket.cpp, which is not among the sources.  It
    "fills as much as available up to size"; with nothing available a
    non-blocking socket answers NotReady. *)
Definition receive (n : Z) (s : TcpSocket) : Status * list byte * TcpSocket :=
  match incoming s with
  | [] => (NotReady, [], s)
  | _ =>
      (Done, firstn (Z.to_nat n) (incoming s),
       mkTcpSocket (m_pendingPacket s) (skipn (Z.to_nat n) (incoming s)))
  end.

(** Modelled from the spec: the bytes of the 4-byte big-endian length
    prefix are taken up one by one; the byte at offset [sizeReceived]
    is the one of weight [256 ^ (3 - sizeReceived)]. *)
Definition store_prefix (pp : PendingPacket) (bytes : list byte) : PendingPacket :=
  fold_left
    (fun q b =>
       mkPendingPacket
         (Z.lor (size q) (Z.shiftl (Z_of_byte b) (8 * (3 - sizeReceived q))))
         (sizeReceived q + 1)
         (data q))
    bytes pp.

(** Modelled from the spec: [TcpSocket::receive(Packet&)] of
    TcpSocket.cpp, which is not among the sources.  "(1) if the length
    prefix is incomplete, attempt to read the remaining prefix bytes;
    (2) once complete, attempt to read the remaining payload bytes into
    the accumulation buffer; (3) only once the accumulated bytes equal
    the declared size does the packet become available, at which point
    the destination Packet is cleared and filled, and pending-packet
    state resets to empty.  Returns NotReady if any stage is incomplete
    after a non-blocking attempt." *)
Definition receive_packet (s : TcpSocket) (packet : Packet)
  : Status * TcpSocket * Packet :=
  (* (1) the length prefix *)
  let pp := m_pendingPacket s in
  let '(status1, s1) :=
    if sizeReceived pp <? 4 then
      let '(status, bytes, s') := receive (4 - sizeReceived pp) s in
      (status, mkTcpSocket (store_prefix pp bytes) (incoming s'))
    else (Done, s) in
  let pp1 := m_pendingPacket s1 in
  if sizeReceived pp1 <? 4 then
    (match status1 with Done => NotReady | st => st end, s1, packet)
  else
    (* (2) the payload *)
    let remaining := size pp1 - Z.of_nat (length (data pp1)) in
    let '(status2, s2) :=
      if 0 <? remaining then
        let '(status, bytes, s') := receive remaining s1 in
        (status,
         mkTcpSocket (mkPendingPacket (size pp1) (sizeReceived pp1) (data pp1 ++ bytes))
                     (incoming s'))
      else (Done, s1) in
    let pp2 := m_pendingPacket s2 in
    if Z.of_nat (length (data pp2)) <? size pp2 then
      (match status2 with Done => NotReady | st => st end, s2, packet)
    else
      (* (3) the frame is complete *)
      (Done,
       mkTcpSocket no_pending (incoming s2),
       onReceive (UdpSocket.vector_data (data pp2)) (Z.of_nat (length (data pp2)))
                 (clear packet)).

(** One delivery: [chunk] arrives from the peer, then the application
    calls the framed receive. *)
Definition deliver (chunk : list byte) (s : TcpSocket) (packet : Packet)
  : Status * TcpSocket * Packet :=
  receive_packet (mkTcpSocket (m_pendingPacket s) (incoming s ++ chunk)) packet.

(** A sequence of deliveries, with a call of the framed receive after each
    one; gives the status of every call, and the socket and the
    destination packet after the last. *)
Fixpoint deliver_all (chunks : list (list byte)) (s : TcpSocket) (packet : Packet)
  : list Status * TcpSocket * Packet :=
  match chunks with
  | [] => ([], s, packet)
  | chunk :: tl =>
      let '(status, s1, packet1) := deliver chunk s packet in
      let '(statuses, s2, packet2) := deliver_all tl s1 packet1 in
      (status :: statuses, s2, packet2)
  end.

(** The bytes of a list, each in a delivery of its own. *)
Definition one_by_one (bytes : list byte) : list (list byte) :=
  map (fun b => [b]) bytes.

(** A packet frame: the payload length as four bytes, most significant
    first, then the payload. *)
Definition frame (payload : list byte) : list byte :=
  rev (le_bytes 4 (Z.of_nat (length payload))) ++ payload.

(** A stream socket with no frame in progress and nothing to read. *)
Definition idle : TcpSocket := mkTcpSocket no_pending [].

End TcpSocket.

(* ===================================================================== *)
(** ** Streams of values through a packet *)
(* ===================================================================== *)

Module PacketStream.

(** The shape of the scalar extractions: [checkSize (n)], then a value made
    of the [n] bytes at the cursor and [m_readPos += n], or nothing. *)
Definition guarded {A : Type} (n : Z) (f : list byte -> A) (p : Packet) (data : A)
  : Packet * A :=
  let (ok, p1) := checkSize n p in
  if ok then (advance n p1, f (bytes_at_readPos (Z.to_nat n) p1)) else (p1, data).

(** [sizeof(T)] for the scalar overloads. *)
Definition scalar_size (v : Value) : Z :=
  match v with
  | VBool _ | VInt8 _ | VUInt8 _ => 1
  | VInt16 _ | VUInt16 _ => 2
  | VInt32 _ | VUInt32 _ | VFloat _ => 4
  | VInt64 _ | VUInt64 _ | VDouble _ => 8
  | _ => 0
  end.

(** The values the stream theorems are about: a scalar in the range of
    its type, or a standard string whose length fits the 32-bit count
    and whose characters fit their type ([wchar_t] is the signed 32-bit
    type of the Unix targets). *)
Definition storable (v : Value) : Prop :=
  match v with
  | VString s => Z.of_nat (length s) < 2 ^ 32
  | VWString s => Z.of_nat (length s) < 2 ^ 32 /\ Forall (in_signed 32) s
  | VU32String s => Z.of_nat (length s) < 2 ^ 32 /\ Forall (in_unsigned 32) s
  | VCStr _ | VWCStr _ => False
  | _ => scalar_value v
  end.

(** The kinds whose bytes go through [htons]/[htonl] or the explicit
    shifts, as opposed to the verbatim [memcpy] of [float] and [double]. *)
Definition byte_order_normalized (v : Value) : Prop :=
  match v with
  | VFloat _ | VDouble _ => False
  | _ => True
  end.

(** An operation that only adds bytes at the end of the buffer, the same
    bytes whatever the packet holds. *)
Definition appends (f : Packet -> Packet) : Prop :=
  forall p, f p = set_data (m_data p ++ m_data (f empty)) p.

(** The read position is inside the buffer. *)
Definition cursor_ok (p : Packet) : Prop := 0 <= m_readPos p <= data_size p.

(** From [p] to [q] nothing changed but the validity flag and a read
    position that moved forward and, if it was inside the buffer, stayed
    inside. *)
Definition reads (p q : Packet) : Prop :=
  m_data q = m_data p /\ m_sendPos q = m_sendPos p
  /\ (cursor_ok p -> m_readPos p <= m_readPos q <= data_size p).

Section Stream.
Variable host : Endian.

(** What each scalar extraction makes of the bytes at the cursor. *)
Definition scalar_decoder (out : Value) (bs : list byte) : Value :=
  match out with
  | VBool _ => VBool (negb (obj_value host bs =? 0))
  | VInt8 _ => VInt8 (obj_value_signed host bs)
  | VUInt8 _ => VUInt8 (obj_value host bs)
  | VInt16 _ => VInt16 (swrap 16 (ntohs host (uwrap 16 (obj_value_signed host bs))))
  | VUInt16 _ => VUInt16 (ntohs host (obj_value host bs))
  | VInt32 _ => VInt32 (swrap 32 (ntohl host (uwrap 32 (obj_value_signed host bs))))
  | VUInt32 _ => VUInt32 (ntohl host (obj_value host bs))
  | VInt64 _ => VInt64 (ToInteger_of_array (swrap 64) bs)
  | VUInt64 _ => VUInt64 (ToInteger_of_array (uwrap 64) bs)
  | VFloat _ => VFloat (obj_value host bs)
  | VDouble _ => VDouble (obj_value host bs)
  | _ => out
  end.

(** The bytes [packet << v] adds to a packet. *)
Definition wire (v : Value) : list byte := m_data (insert host v empty).

(** [packet << v1 << v2 << ...]. *)
Definition insert_all (vs : list Value) (p : Packet) : Packet :=
  fold_left (fun q v => insert host v q) vs p.

(** [packet >> out1 >> out2 >> ...]: the packet and the variables after
    the chain. *)
Fixpoint extract_all (outs : list Value) (p : Packet) : Packet * list Value :=
  match outs with
  | [] => (p, [])
  | out :: tl =>
      let (p1, v) := extract host out p in
      let (p2, vs) := extract_all tl p1 in
      (p2, v :: vs)
  end.

End Stream.

End PacketStream.

(* ===================================================================== *)
(** ** More of IpAddress.cpp, SocketImpl.cpp, Socket.cpp, TcpListener.cpp *)
(* ===================================================================== *)

Module AddressOrder.
Import IpAddress.

(** [operator!=], [operator>], [operator<=] and [operator>=]. *)
Definition ne (left right : IpAddress) : bool := negb (eq left right).
Definition gt (left right : IpAddress) : bool := lt right left.
Definition le (left right : IpAddress) : bool := negb (lt right left).
Definition ge (left right : IpAddress) : bool := negb (lt left right).

(** [IpAddress() = default]: the empty (invalid) address. *)
Definition default : IpAddress := mkIpAddress 0 false.

(** An address object as the constructors make it: a 32-bit value. *)
Definition well_formed (a : IpAddress) : Prop := in_unsigned 32 (m_address a).

End AddressOrder.

Module SockAddr.

(** The fields of [sockaddr_in] that the library fills, both in network
    byte order. *)
Record sockaddr_in := mkSockaddr {
  sin_addr : Z;      (* sin_addr.s_addr *)
  sin_port : Z       (* sin_port        *)
}.

Section Host.
Variable host : Endian.

(** [SocketImpl::createAddress(std::uint32_t address, unsigned short port)]. *)
Definition createAddress (address : Z) (port : Z) : sockaddr_in :=
  mkSockaddr (htonl host address) (htons host port).

(** The address [UdpSocket::send], [UdpSocket::bind] and
    [TcpListener::listen] build for an [IpAddress]. *)
Definition target (a : IpAddress.IpAddress) (port : Z) : sockaddr_in :=
  createAddress (IpAddress.toInteger host a) port.

(** The sender [UdpSocket::receive] reports for the address the operating
    system filled in: [IpAddress(ntohl(address.sin_addr.s_addr))] and
    [ntohs(address.sin_port)]. *)
Definition sender (address : sockaddr_in) : IpAddress.IpAddress * Z :=
  (IpAddress.of_integer host (ntohl host (sin_addr address)),
   ntohs host (sin_port address)).

End Host.

End SockAddr.

Module SocketMoves.
Import Socket.
Local Open Scope sock_scope.

(** [Socket::Socket(Socket&& socket)]: the new object and the moved-from
    one. *)
Definition move_construct (socket : Socket) : Socket * Socket :=
  (mkSocket (m_type socket) (m_socket socket) (m_isBlocking socket),
   mkSocket (m_type socket) invalidSocket (m_isBlocking socket)).

(** [Socket::operator=(Socket&& socket)], run on the assigned-to object;
    [same_object] tells whether [this == &socket].  Returns the
    moved-from object as the call leaves it. *)
Definition move_assign (same_object : bool) (socket : Socket) : M Socket :=
  if same_object then
    s <- (fun st => (this st, st)) ;;
    ret s
  else
    close ;;;
    (fun st =>
       (mkSocket (m_type socket) invalidSocket (m_isBlocking socket),
        mkState (mkSocket (m_type socket) (m_socket socket) (m_isBlocking socket))
                (os_trace st))).

(** The calls that release a handle. *)
Definition is_close (c : OsCall) : bool :=
  match c with
  | sys_close _ => true
  | _ => false
  end.

End SocketMoves.

Module ListenerAccept.
Import Socket.
Local Open Scope sock_scope.

(** [TcpListener::accept(TcpSocket& socket)], run on the destination
    socket.  [listener] is the listening socket, [remote] what
    [::accept] on its handle answers and [errno] the error it leaves; the
    call of [::accept] itself is on the listener's handle and is not part
    of the destination's trace. *)
Definition accept (listener : Socket) (remote : SocketHandle) (errno : Errno) : M Status :=
  if m_socket listener =? invalidSocket then ret Error
  else if remote =? invalidSocket then ret (getErrorStatus errno)
  else
    close ;;;
    create_handle remote ;;;
    ret Done.

End ListenerAccept.

(* ===================================================================== *)
(** ** Extraction and the width of [std::size_t] *)
(* ===================================================================== *)

(** Config.h accepts 32-bit targets as well as 64-bit ones, and
    [checkSize] and the extractions do their size arithmetic in
    [std::size_t].  This module is [Packet::checkSize] and the
    [operator>>] overloads once more, with the number of bits of
    [std::size_t] as the parameter [bits] (32 or 64; a [std::uint32_t]
    converts to [std::size_t] unchanged).  At 64 bits they are the
    definitions of [Packet]. *)
Module Portable.

Section Width.
Variable bits : Z.

(** [std::size_t] arithmetic. *)
Definition size_t_add (a b : Z) : Z := uwrap bits (a + b).
Definition size_t_mul (a b : Z) : Z := uwrap bits (a * b).

(** [Packet::checkSize(std::size_t size)]. *)
Definition checkSize (size : Z) (p : Packet) : bool * Packet :=
  let overflow_detected := size_t_add (m_readPos p) size <? m_readPos p in
  let valid :=
    m_isValid p && (size_t_add (m_readPos p) size <=? data_size p)
                && negb overflow_detected in
  (valid, set_isValid valid p).

(** [m_readPos += n]. *)
Definition advance (n : Z) (p : Packet) : Packet :=
  set_readPos (size_t_add (m_readPos p) n) p.

Section Codec.
Variable host : Endian.

(** [operator>>(std::uint8_t&)]. *)
Definition extract_uint8 (p : Packet) (data : Z) : Packet * Z :=
  let (ok, p1) := checkSize 1 p in
  if ok then (advance 1 p1, obj_value host (bytes_at_readPos 1 p1))
  else (p1, data).

(** [operator>>(std::int8_t&)]. *)
Definition extract_int8 (p : Packet) (data : Z) : Packet * Z :=
  let (ok, p1) := checkSize 1 p in
  if ok then (advance 1 p1, obj_value_signed host (bytes_at_readPos 1 p1))
  else (p1, data).

(** [operator>>(bool&)]. *)
Definition extract_bool (p : Packet) (data : bool) : Packet * bool :=
  let (p1, value) := extract_uint8 p 0 in
  if to_bool p1 then (p1, negb (value =? 0)) else (p1, data).

(** [operator>>(std::int16_t&)]. *)
Definition extract_int16 (p : Packet) (data : Z) : Packet * Z :=
  let (ok, p1) := checkSize 2 p in
  if ok then
    let data1 := obj_value_signed host (bytes_at_readPos 2 p1) in
    let data2 := swrap 16 (ntohs host (uwrap 16 data1)) in
    (advance 2 p1, data2)
  else (p1, data).

(** [operator>>(std::uint16_t&)]. *)
Definition extract_uint16 (p : Packet) (data : Z) : Packet * Z :=
  let (ok, p1) := checkSize 2 p in
  if ok then
    let data1 := obj_value host (bytes_at_readPos 2 p1) in
    (advance 2 p1, ntohs host data1)
  else (p1, data).

(** [operator>>(std::int32_t&)]. *)
Definition extract_int32 (p : Packet) (data : Z) : Packet * Z :=
  let (ok, p1) := checkSize 4 p in
  if ok then
    let data1 := obj_value_signed host (bytes_at_readPos 4 p1) in
    let data2 := swrap 32 (ntohl host (uwrap 32 data1)) in
    (advance 4 p1, data2)
  else (p1, data).

(** [operator>>(std::uint32_t&)]. *)
Definition extract_uint32 (p : Packet) (data : Z) : Packet * Z :=
  let (ok, p1) := checkSize 4 p in
  if ok then
    let data1 := obj_value host (bytes_at_readPos 4 p1) in
    (advance 4 p1, ntohl host data1)
  else (p1, data).

(** [operator>>(std::int64_t&)]. *)
Definition extract_int64 (p : Packet) (data : Z) : Packet * Z :=
  let (ok, p1) := checkSize 8 p in
  if ok then
    let bytes := bytes_at_readPos 8 p1 in
    (advance 8 p1, ToInteger_of_array (swrap 64) bytes)
  else (p1, data).

(** [operator>>(std::uint64_t&)]. *)
Definition extract_uint64 (p : Packet) (data : Z) : Packet * Z :=
  let (ok, p1) := checkSize 8 p in
  if ok then
    let bytes := bytes_at_readPos 8 p1 in
    (advance 8 p1, ToInteger_of_array (uwrap 64) bytes)
  else (p1, data).

(** [operator>>(float&)]. *)
Definition extract_float (p : Packet) (data : Z) : Packet * Z :=
  let (ok, p1) := checkSize 4 p in
  if ok then (advance 4 p1, obj_value host (bytes_at_readPos 4 p1))
  else (p1, data).

(** [operator>>(double&)]. *)
Definition extract_double (p : Packet) (data : Z) : Packet * Z :=
  let (ok, p1) := checkSize 8 p in
  if ok then (advance 8 p1, obj_value host (bytes_at_readPos 8 p1))
  else (p1, data).

(** [operator>>] for [char*]; [data] is the caller's buffer. *)
Definition extract_cstr (p : Packet) (data : list byte) : Packet * list byte :=
  let (p1, length) := extract_uint32 p 0 in
  if 0 <? length then
    let (ok, p2) := checkSize length p1 in
    if ok then
      let data1 := overwrite (bytes_at_readPos (Z.to_nat length) p2) data in
      let data2 := store_at (Z.to_nat length) x00 data1 in
      (advance length p2, data2)
    else (p2, data)
  else (p1, data).

(** [operator>>(std::string&)]. *)
Definition extract_string (p : Packet) (data : list byte) : Packet * list byte :=
  let (p1, length) := extract_uint32 p 0 in
  let data0 : list byte := [] in                       (* data.clear() *)
  if 0 <? length then
    let (ok, p2) := checkSize length p1 in
    if ok then (advance length p2, bytes_at_readPos (Z.to_nat length) p2)
    else (p2, data0)
  else (p1, data0).

(** The loop of [operator>>] for [wchar_t*]:
    [for (i = 0; i < length; ++i) { *this >> character; data[i] = ...; }],
    with [n] iterations left and [i] the current index.  [character]
    starts at 0 and keeps it when its extraction fails. *)
Fixpoint extract_chars_into (castC : Z -> Z) (n : nat) (i : nat)
         (p : Packet) (data : list Z) : Packet * list Z :=
  match n with
  | O => (p, data)
  | S k =>
      let (p1, character) := extract_uint32 p 0 in
      extract_chars_into castC k (S i) p1 (store_at i (castC character) data)
  end.

(** The loop of the [std::wstring] and [std::u32string] extractions:
    [for (i = 0; i < length; ++i) { *this >> character; data += ...; }]. *)
Fixpoint extract_chars (castC : Z -> Z) (n : nat)
         (p : Packet) (data : list Z) : Packet * list Z :=
  match n with
  | O => (p, data)
  | S k =>
      let (p1, character) := extract_uint32 p 0 in
      extract_chars castC k p1 (data ++ [castC character])
  end.

(** [operator>>] for [wchar_t*]: the size checked is
    [length * sizeof(std::uint32_t)], a [std::size_t] product. *)
Definition extract_wcstr (p : Packet) (data : list Z) : Packet * list Z :=
  let (p1, length) := extract_uint32 p 0 in
  if 0 <? length then
    let (ok, p2) := checkSize (size_t_mul length 4) p1 in
    if ok then
      let (p3, data1) := extract_chars_into cast_wchar_t (Z.to_nat length) O p2 data in
      (p3, store_at (Z.to_nat length) 0 data1)
    else (p2, data)
  else (p1, data).

(** [operator>>(std::wstring&)]. *)
Definition extract_wstring (p : Packet) (data : list Z) : Packet * list Z :=
  let (p1, length) := extract_uint32 p 0 in
  let data0 : list Z := [] in                          (* data.clear() *)
  if 0 <? length then
    let (ok, p2) := checkSize (size_t_mul length 4) p1 in
    if ok then extract_chars cast_wchar_t (Z.to_nat length) p2 data0
    else (p2, data0)
  else (p1, data0).

(** [operator>>(std::u32string&)]. *)
Definition extract_u32string (p : Packet) (data : list Z) : Packet * list Z :=
  let (p1, length) := extract_uint32 p 0 in
  let data0 : list Z := [] in                          (* data.clear() *)
  if 0 <? length then
    let (ok, p2) := checkSize (size_t_mul length 4) p1 in
    if ok then extract_chars cast_char32_t (Z.to_nat length) p2 data0
    else (p2, data0)
  else (p1, data0).

(** [packet >> out]. *)
Definition extract (out : Value) (p : Packet) : Packet * Value :=
  match out with
  | VBool b => on_snd VBool (extract_bool p b)
  | VInt8 z => on_snd VInt8 (extract_int8 p z)
  | VUInt8 z => on_snd VUInt8 (extract_uint8 p z)
  | VInt16 z => on_snd VInt16 (extract_int16 p z)
  | VUInt16 z => on_snd VUInt16 (extract_uint16 p z)
  | VInt32 z => on_snd VInt32 (extract_int32 p z)
  | VUInt32 z => on_snd VUInt32 (extract_uint32 p z)
  | VInt64 z => on_snd VInt64 (extract_int64 p z)
  | VUInt64 z => on_snd VUInt64 (extract_uint64 p z)
  | VFloat z => on_snd VFloat (extract_float p z)
  | VDouble z => on_snd VDouble (extract_double p z)
  | VCStr b => on_snd VCStr (extract_cstr p b)
  | VString s => on_snd VString (extract_string p s)
  | VWCStr b => on_snd VWCStr (extract_wcstr p b)
  | VWString s => on_snd VWString (extract_wstring p s)
  | VU32String s => on_snd VU32String (extract_u32string p s)
  end.

End Codec.

End Width.



End Portable.

(* ===================================================================== *)
(** ** Sample inputs *)
(* ===================================================================== *)

Module Samples.
Import Socket.

(** A packet that holds the 32-bit integer 5. *)
Definition sample_packet : Packet := mkPacket [x00; x00; x00; x05] 0 0 true.

(** A packet whose validity flag is already down. *)
Definition invalid_packet : Packet := mkPacket [x00; x00; x00; x05] 4 0 false.

(** An operating system that hands out handle 5 and has no datagram to
    give: [recvfrom] fails with [EAGAIN]. *)
Definition sample_env : OsEnv := mkOsEnv 5 0 0 0 (-1) [] (0, 0) EAGAIN.

(** A datagram socket that owns handle 3, and a listener without handle. *)
Definition sample_udp : State := mkState (mkSocket Udp 3 false) [].
Definition sample_listener : State := mkState TcpListener.new [].

(** The datagram ceiling of the usual UDP-over-IPv4 arithmetic, used
    where an example needs a value. *)
Definition sample_MaxDatagramSize : Z := 65507.

(** An operating system with a two-byte datagram waiting. *)
Definition datagram_env : OsEnv := mkOsEnv 5 0 0 2 2 [x0a; x0b] (2130706433, 9000) EAGAIN.

(** An operating system that has no handle left to give. *)
Definition exhausted_env : OsEnv := mkOsEnv invalidSocket 0 0 0 (-1) [] (0, 0) EAGAIN.

(** A stream socket that owns handle 3. *)
Definition sample_tcp : State := mkState (mkSocket Tcp 3 true) [].

(** A packet that holds nothing but the count of a wide string of 2^30
    characters. *)
Definition overlong_count : Packet := mkPacket [x40; x00; x00; x00] 0 0 true.

End Samples.

(* ===================================================================== *)
(** * Properties *)
(* ===================================================================== *)

(** ** Machine integers and bytes *)

Module MachineIntFacts.

Lemma pow2_pos w : 0 <= w -> 0 < 2 ^ w.
Proof. intros; apply Z.pow_pos_nonneg; lia. Qed.

Lemma pow2_succ w : 0 < w -> 2 ^ w = 2 * 2 ^ (w - 1).
Proof.
  intros. replace w with (w - 1 + 1) at 1 by lia.
  rewrite Z.pow_add_r by lia. lia.
Qed.

Lemma uwrap_range w z : 0 <= w -> 0 <= uwrap w z < 2 ^ w.
Proof. intros; apply Z.mod_pos_bound, pow2_pos; assumption. Qed.

Lemma uwrap_small w z : 0 <= z < 2 ^ w -> uwrap w z = z.
Proof. intros; apply Z.mod_small; assumption. Qed.

Lemma uwrap_idem w z : 0 <= w -> uwrap w (uwrap w z) = uwrap w z.
Proof. intros; apply uwrap_small, uwrap_range; assumption. Qed.

Lemma swrap_range w z : 0 < w -> in_signed w (swrap w z).
Proof.
  intros Hw. unfold in_signed, swrap.
  pose proof (Z.mod_pos_bound (z + 2 ^ (w - 1)) (2 ^ w) (pow2_pos w ltac:(lia))).
  rewrite (pow2_succ w Hw) in *. lia.
Qed.

Lemma swrap_small w z : 0 < w -> in_signed w z -> swrap w z = z.
Proof.
  intros Hw [Hlo Hhi]. unfold swrap.
  rewrite Z.mod_small; [lia|].
  rewrite (pow2_succ w Hw). lia.
Qed.

Lemma uwrap_swrap w z : 0 < w -> uwrap w (swrap w z) = uwrap w z.
Proof.
  intros Hw. unfold uwrap, swrap.
  rewrite Zminus_mod_idemp_l. f_equal. lia.
Qed.

Lemma swrap_uwrap w z : 0 < w -> swrap w (uwrap w z) = swrap w z.
Proof.
  intros Hw. unfold uwrap, swrap.
  rewrite Zplus_mod_idemp_l. reflexivity.
Qed.

Lemma Z_of_byte_range b : 0 <= Z_of_byte b < 256.
Proof.
  unfold Z_of_byte. pose proof (Byte.to_N_bounded b). lia.
Qed.

Lemma byte_of_Z_of_byte b : byte_of_Z (Z_of_byte b) = b.
Proof.
  unfold byte_of_Z. pose proof (Z_of_byte_range b).
  rewrite Z.mod_small by lia.
  unfold Z_of_byte. rewrite N2Z.id, Byte.of_to_N. reflexivity.
Qed.

Lemma Z_of_byte_of_Z z : Z_of_byte (byte_of_Z z) = z mod 256.
Proof.
  unfold byte_of_Z, Z_of_byte.
  pose proof (Z.mod_pos_bound z 256 ltac:(lia)) as Hr.
  destruct (Byte.of_N (Z.to_N (z mod 256))) as [b|] eqn:E.
  - apply Byte.to_of_N in E. rewrite E. lia.
  - apply Byte.of_N_None_iff in E. lia.
Qed.

Lemma byte_of_Z_mod z : byte_of_Z (z mod 256) = byte_of_Z z.
Proof. unfold byte_of_Z. rewrite Z.mod_mod by lia. reflexivity. Qed.

Lemma byte_of_Z_congr a b : a mod 256 = b mod 256 -> byte_of_Z a = byte_of_Z b.
Proof. intros H. rewrite <- (byte_of_Z_mod a), <- (byte_of_Z_mod b), H. reflexivity. Qed.

End MachineIntFacts.


(** ** Object representations *)

Module MemFacts.
Import MachineIntFacts.

Lemma le_bytes_length n v : length (le_bytes n v) = n.
Proof. revert v; induction n; intros; simpl; [reflexivity | now rewrite IHn]. Qed.

Lemma from_le_range bs : 0 <= from_le bs < 2 ^ (8 * Z.of_nat (length bs)).
Proof.
  induction bs as [|b tl IH].
  - simpl. lia.
  - cbn [from_le length]. pose proof (Z_of_byte_range b).
    replace (8 * Z.of_nat (S (length tl))) with (8 + 8 * Z.of_nat (length tl)) by lia.
    rewrite Z.pow_add_r by lia. change (2 ^ 8) with 256. lia.
Qed.

Lemma from_le_le_bytes n v : from_le (le_bytes n v) = v mod 2 ^ (8 * Z.of_nat n).
Proof.
  revert v; induction n as [|n IH]; intros v.
  - simpl. now rewrite Z.mod_1_r.
  - cbn [le_bytes from_le]. rewrite IH, Z_of_byte_of_Z.
    replace (8 * Z.of_nat (S n)) with (8 + 8 * Z.of_nat n) by lia.
    rewrite Z.pow_add_r by lia. change (2 ^ 8) with 256.
    pose proof (pow2_pos (8 * Z.of_nat n) ltac:(lia)).
    rewrite Z.rem_mul_r by lia. reflexivity.
Qed.

Lemma le_bytes_from_le bs : le_bytes (length bs) (from_le bs) = bs.
Proof.
  induction bs as [|b tl IH]; [reflexivity|].
  cbn [length le_bytes from_le]. pose proof (Z_of_byte_range b).
  f_equal.
  - rewrite <- (byte_of_Z_of_byte b) at 2. apply byte_of_Z_congr.
    rewrite (Z.mul_comm 256), Z.mod_add by lia. reflexivity.
  - replace ((Z_of_byte b + 256 * from_le tl) / 256) with (from_le tl); [exact IH|].
    rewrite (Z.mul_comm 256), Z.div_add by lia.
    rewrite (Z.div_small (Z_of_byte b)) by lia. lia.
Qed.

Lemma le_bytes_from_le_n n bs : length bs = n -> le_bytes n (from_le bs) = bs.
Proof. intros <-. apply le_bytes_from_le. Qed.

(** [le_bytes n] only looks at the [8 * n] low-order bits. *)
Lemma le_bytes_uwrap n v : le_bytes n (uwrap (8 * Z.of_nat n) v) = le_bytes n v.
Proof.
  unfold uwrap. rewrite <- from_le_le_bytes.
  apply le_bytes_from_le_n, le_bytes_length.
Qed.

Lemma le_bytes_swrap n v : (0 < n)%nat -> le_bytes n (swrap (8 * Z.of_nat n) v) = le_bytes n v.
Proof.
  intros Hn. rewrite <- le_bytes_uwrap, uwrap_swrap by lia. apply le_bytes_uwrap.
Qed.

Section Host.
Variable host : Endian.

Lemma obj_repr_length n v : length (obj_repr host n v) = n.
Proof. unfold obj_repr; destruct host; rewrite ?length_rev; apply le_bytes_length. Qed.

(** Reading back the memory of an object gives its value (modulo the
    width of the type). *)
Lemma obj_value_repr n v : obj_value host (obj_repr host n v) = uwrap (8 * Z.of_nat n) v.
Proof.
  unfold obj_value, obj_repr, uwrap; destruct host;
    rewrite ?rev_involutive; apply from_le_le_bytes.
Qed.

Lemma bswap_range n v : 0 <= bswap n v < 2 ^ (8 * Z.of_nat n).
Proof.
  unfold bswap. pose proof (from_le_range (rev (le_bytes n v))) as H.
  now rewrite length_rev, le_bytes_length in H.
Qed.

(** The memory of [hton (v)] holds the bytes of [v], most significant
    first, whatever the host. *)
Lemma obj_repr_htons v : obj_repr host 2 (htons host v) = rev (le_bytes 2 v).
Proof.
  unfold obj_repr, htons, bswap; destruct host.
  - apply le_bytes_from_le_n. now rewrite length_rev, le_bytes_length.
  - f_equal. apply (le_bytes_uwrap 2).
Qed.

Lemma obj_repr_htonl v : obj_repr host 4 (htonl host v) = rev (le_bytes 4 v).
Proof.
  unfold obj_repr, htonl, bswap; destruct host.
  - apply le_bytes_from_le_n. now rewrite length_rev, le_bytes_length.
  - f_equal. apply (le_bytes_uwrap 4).
Qed.

(** [ntoh] of an object read from memory decodes the bytes most
    significant first, whatever the host. *)
Lemma ntohs_obj_value bs : length bs = 2%nat -> ntohs host (obj_value host bs) = from_le (rev bs).
Proof.
  intros Hl. unfold ntohs, htons, obj_value, bswap; destruct host.
  - now rewrite (le_bytes_from_le_n 2 bs Hl).
  - apply uwrap_small. pose proof (from_le_range (rev bs)) as H.
    now rewrite length_rev, Hl in H.
Qed.

Lemma ntohl_obj_value bs : length bs = 4%nat -> ntohl host (obj_value host bs) = from_le (rev bs).
Proof.
  intros Hl. unfold ntohl, htonl, obj_value, bswap; destruct host.
  - now rewrite (le_bytes_from_le_n 4 bs Hl).
  - apply uwrap_small. pose proof (from_le_range (rev bs)) as H.
    now rewrite length_rev, Hl in H.
Qed.

Lemma obj_value_range bs : 0 <= obj_value host bs < 2 ^ (8 * Z.of_nat (length bs)).
Proof.
  unfold obj_value; destruct host; [apply from_le_range|].
  pose proof (from_le_range (rev bs)) as H. now rewrite length_rev in H.
Qed.

Lemma htonl_range v : 0 <= htonl host v < 2 ^ 32.
Proof.
  unfold htonl; destruct host; [apply (bswap_range 4) | apply uwrap_range; lia].
Qed.

Lemma htons_range v : 0 <= htons host v < 2 ^ 16.
Proof.
  unfold htons; destruct host; [apply (bswap_range 2) | apply uwrap_range; lia].
Qed.

End Host.

End MemFacts.


(** ** The packet codec *)

Module PacketFacts.
Import MachineIntFacts MemFacts.

Lemma swrap_high w x : 0 < w -> 2 ^ (w - 1) <= x < 2 ^ w -> swrap w x = x - 2 ^ w.
Proof.
  intros Hw Hx. unfold swrap. pose proof (pow2_succ w Hw) as E.
  replace (x + 2 ^ (w - 1)) with (x - 2 ^ (w - 1) + 1 * 2 ^ w) by lia.
  rewrite Z.mod_add by lia. rewrite Z.mod_small by lia. lia.
Qed.

Lemma lor_disjoint_add a b k :
  0 <= k -> 0 <= a < 2 ^ k -> Z.lor a (b * 2 ^ k) = a + b * 2 ^ k.
Proof.
  intros Hk Ha. apply Z.or_to_plus.
  rewrite <- (Z.mod_small a (2 ^ k)) by lia.
  rewrite <- Z.shiftl_mul_pow2 by lia.
  rewrite <- Z.land_ones by lia.
  Z.bitblast. subst.
  rewrite (Z.testbit_neg_r b) by lia. apply andb_false_r.
Qed.

Lemma from_le_app l1 l2 :
  from_le (l1 ++ l2) = from_le l1 + 2 ^ (8 * Z.of_nat (length l1)) * from_le l2.
Proof.
  induction l1 as [|b tl IH]; cbn [app from_le length].
  - change (2 ^ (8 * Z.of_nat 0)) with 1. lia.
  - rewrite IH.
    replace (8 * Z.of_nat (S (length tl))) with (8 + 8 * Z.of_nat (length tl)) by lia.
    rewrite Z.pow_add_r by lia. change (2 ^ 8) with 256. ring.
Qed.

Lemma ToInteger_unfold castT bytes :
  ToInteger castT bytes = fst (fold_left (ToInteger_step castT) bytes (0, 0)).
Proof. reflexivity. Qed.

(** As long as the bytes stay clear of the sign bit, the fold computes the
    little-endian value of the bytes it has seen, for the signed and the
    unsigned type alike. *)
Lemma ToInteger_fold_low castT :
  (forall x, 0 <= x < 2 ^ 63 -> castT x = x) ->
  forall bytes result i,
    0 <= i -> 0 <= result < 2 ^ (8 * i) ->
    8 * (i + Z.of_nat (length bytes)) <= 63 ->
    fold_left (ToInteger_step castT) bytes (result, i)
    = (result + 2 ^ (8 * i) * from_le bytes, i + Z.of_nat (length bytes)).
Proof.
  intros Hc. induction bytes as [|b tl IH]; intros result i Hi Hr Hlen.
  - cbn. f_equal; lia.
  - cbn [fold_left length from_le] in *.
    pose proof (Z_of_byte_range b) as Hb.
    pose proof (pow2_pos (8 * i) ltac:(lia)) as Hp.
    assert (Hs : 0 <= Z_of_byte b * 2 ^ (8 * i) < 2 ^ 63).
    { split; [nia|].
      apply Z.lt_le_trans with (256 * 2 ^ (8 * i)); [nia|].
      change 256 with (2 ^ 8). rewrite <- Z.pow_add_r by lia.
      apply Z.pow_le_mono_r; lia. }
    unfold ToInteger_step at 2.
    rewrite (Hc (Z_of_byte b)) by (change (2 ^ 63) with 9223372036854775808; lia).
    rewrite Z.shiftl_mul_pow2 by lia.
    rewrite (Hc _ Hs).
    rewrite lor_disjoint_add by lia.
    rewrite IH.
    + f_equal; [|lia].
      replace (8 * (i + 1)) with (8 * i + 8) by lia.
      rewrite Z.pow_add_r by lia. change (2 ^ 8) with 256. ring.
    + lia.
    + replace (8 * (i + 1)) with (8 * i + 8) by lia.
      rewrite Z.pow_add_r by lia. change (2 ^ 8) with 256. nia.
    + lia.
Qed.

Lemma uwrap64_low x : 0 <= x < 2 ^ 63 -> uwrap 64 x = x.
Proof. intros. apply uwrap_small. change (2 ^ 64) with (2 * 2 ^ 63). lia. Qed.

Lemma swrap64_low x : 0 <= x < 2 ^ 63 -> swrap 64 x = x.
Proof. intros. apply swrap_small; [lia|]. unfold in_signed. change (64 - 1) with 63. lia. Qed.

(** An array of eight bytes, split as [ToInteger] consumes it: the seven
    low-order bytes first, then the byte that carries the sign bit. *)
Lemma ToInteger_of_array_split castT :
  (forall x, 0 <= x < 2 ^ 63 -> castT x = x) ->
  forall b0 rest, length rest = 7%nat ->
    ToInteger_of_array castT (b0 :: rest)
    = Z.lor (from_le (rev rest)) (castT (Z_of_byte b0 * 2 ^ 56))
      /\ 0 <= from_le (rev rest) < 2 ^ 56.
Proof.
  intros Hc b0 rest Hl.
  pose proof (from_le_range (rev rest)) as Hr.
  rewrite length_rev, Hl in Hr. change (8 * Z.of_nat 7) with 56 in Hr.
  split; [|exact Hr].
  unfold ToInteger_of_array. rewrite ToInteger_unfold.
  cbn [rev]. rewrite fold_left_app.
  rewrite (ToInteger_fold_low castT Hc).
  - rewrite length_rev, Hl. cbn [fold_left ToInteger_step fst].
    pose proof (Z_of_byte_range b0).
    rewrite (Hc (Z_of_byte b0)) by (change (2 ^ 63) with 9223372036854775808; lia).
    change (8 * (0 + Z.of_nat 7)) with 56.
    rewrite Z.shiftl_mul_pow2 by lia.
    change (2 ^ (8 * 0)) with 1. now rewrite Z.add_0_l, Z.mul_1_l.
  - lia.
  - change (2 ^ (8 * 0)) with 1. lia.
  - rewrite length_rev, Hl. lia.
Qed.

Lemma ToInteger_of_array_uint64 bytes :
  length bytes = 8%nat -> ToInteger_of_array (uwrap 64) bytes = from_le (rev bytes).
Proof.
  intros Hl. destruct bytes as [|b0 rest]; [discriminate|].
  injection Hl as Hl.
  destruct (ToInteger_of_array_split (uwrap 64) uwrap64_low b0 rest Hl) as [-> Hr].
  pose proof (Z_of_byte_range b0) as Hb.
  rewrite uwrap_small by (change (2 ^ 64) with (256 * 2 ^ 56); nia).
  rewrite lor_disjoint_add by lia.
  cbn [rev]. rewrite from_le_app, length_rev, Hl.
  change (8 * Z.of_nat 7) with 56. cbn [from_le]. ring.
Qed.

Lemma ToInteger_of_array_int64 bytes :
  length bytes = 8%nat ->
  ToInteger_of_array (swrap 64) bytes = swrap 64 (from_le (rev bytes)).
Proof.
  intros Hl. destruct bytes as [|b0 rest]; [discriminate|].
  injection Hl as Hl.
  destruct (ToInteger_of_array_split (swrap 64) swrap64_low b0 rest Hl) as [-> Hr].
  pose proof (Z_of_byte_range b0) as Hb.
  cbn [rev]. rewrite from_le_app, length_rev, Hl.
  change (8 * Z.of_nat 7) with 56. cbn [from_le].
  replace (Z_of_byte b0 + 256 * 0) with (Z_of_byte b0) by lia.
  set (r := from_le (rev rest)) in *.
  destruct (Z_lt_le_dec (Z_of_byte b0) 128) as [Hlow | Hhigh].
  - rewrite !swrap_small; try lia; unfold in_signed;
      change (2 ^ (64 - 1)) with (128 * 2 ^ 56); try nia.
    rewrite lor_disjoint_add by lia. ring.
  - rewrite !swrap_high; try lia;
      change (2 ^ (64 - 1)) with (128 * 2 ^ 56);
      change (2 ^ 64) with (256 * 2 ^ 56); try nia.
    replace (Z_of_byte b0 * 2 ^ 56 - 256 * 2 ^ 56)
      with ((Z_of_byte b0 - 256) * 2 ^ 56) by ring.
    rewrite lor_disjoint_add by lia. ring.
Qed.

Lemma byte_of_Z_land x : byte_of_Z (Z.land x 255) = byte_of_Z x.
Proof.
  change 255 with (Z.ones 8). rewrite Z.land_ones by lia.
  change (2 ^ 8) with 256. apply byte_of_Z_mod.
Qed.

(** The array written by the 64-bit insertions holds the bytes of the
    value, most significant first. *)
Lemma to_write64_bytes v : to_write64 v = rev (le_bytes 8 v).
Proof.
  unfold to_write64. cbn [le_bytes rev app].
  rewrite !byte_of_Z_land, !Z.shiftr_div_pow2 by lia.
  rewrite !Z.div_div by lia.
  repeat (f_equal; try reflexivity).
Qed.

(** *** Writing into an empty packet, then reading *)

Lemma append_empty bs n :
  Z.of_nat (length bs) = n -> 0 < n -> append (Some bs) n empty = mkPacket bs 0 0 true.
Proof.
  intros Hl Hn. unfold append. destruct (Z.ltb_spec 0 n); [|lia].
  unfold set_data, empty; cbn. f_equal. apply firstn_all2. lia.
Qed.

Lemma checkSize_whole bs n s :
  Z.of_nat (length bs) = n -> n < 2 ^ 64 ->
  checkSize n (mkPacket bs 0 s true) = (true, mkPacket bs 0 s true).
Proof.
  intros Hl Hn. unfold checkSize, size_t_add, size_t_bits, data_size, set_isValid.
  cbn [m_data m_readPos m_sendPos m_isValid].
  rewrite Z.add_0_l, uwrap_small by lia. rewrite Hl.
  rewrite Z.leb_refl. destruct (Z.ltb_spec n 0); [lia|]. reflexivity.
Qed.

Lemma bytes_at_readPos_whole n bs s v :
  length bs = n -> bytes_at_readPos n (mkPacket bs 0 s v) = bs.
Proof.
  intros Hl. unfold bytes_at_readPos. cbn. apply firstn_all2. lia.
Qed.

Section RoundTrip.
Variable host : Endian.

(** What the insertions put on the wire. *)

Lemma wire_int16 v : obj_repr host 2 (swrap 16 (htons host (uwrap 16 v))) = rev (le_bytes 2 v).
Proof.
  assert (E : obj_repr host 2 (swrap 16 (htons host (uwrap 16 v)))
              = obj_repr host 2 (htons host (uwrap 16 v))).
  { unfold obj_repr; destruct host; rewrite (le_bytes_swrap 2) by lia; reflexivity. }
  rewrite E, obj_repr_htons. f_equal. apply (le_bytes_uwrap 2).
Qed.

Lemma wire_int32 v : obj_repr host 4 (swrap 32 (htonl host (uwrap 32 v))) = rev (le_bytes 4 v).
Proof.
  assert (E : obj_repr host 4 (swrap 32 (htonl host (uwrap 32 v)))
              = obj_repr host 4 (htonl host (uwrap 32 v))).
  { unfold obj_repr; destruct host; rewrite (le_bytes_swrap 4) by lia; reflexivity. }
  rewrite E, obj_repr_htonl. f_equal. apply (le_bytes_uwrap 4).
Qed.

(** What the extractions make of the bytes on the wire. *)

Lemma read_int16 bs :
  length bs = 2%nat ->
  swrap 16 (ntohs host (uwrap 16 (obj_value_signed host bs))) = swrap 16 (from_le (rev bs)).
Proof.
  intros Hl. unfold obj_value_signed. rewrite Hl. change (8 * Z.of_nat 2) with 16.
  rewrite uwrap_swrap by lia.
  pose proof (obj_value_range host bs) as Hr. rewrite Hl in Hr.
  rewrite uwrap_small by exact Hr.
  now rewrite ntohs_obj_value.
Qed.

Lemma read_int32 bs :
  length bs = 4%nat ->
  swrap 32 (ntohl host (uwrap 32 (obj_value_signed host bs))) = swrap 32 (from_le (rev bs)).
Proof.
  intros Hl. unfold obj_value_signed. rewrite Hl. change (8 * Z.of_nat 4) with 32.
  rewrite uwrap_swrap by lia.
  pose proof (obj_value_range host bs) as Hr. rewrite Hl in Hr.
  rewrite uwrap_small by exact Hr.
  now rewrite ntohl_obj_value.
Qed.

Lemma from_le_wire n v : from_le (rev (rev (le_bytes n v))) = uwrap (8 * Z.of_nat n) v.
Proof. rewrite rev_involutive. apply from_le_le_bytes. Qed.

Lemma swrap_of_uwrap_value w v : 0 < w -> in_signed w v -> swrap w (uwrap w v) = v.
Proof. intros. rewrite swrap_uwrap by lia. now apply swrap_small. Qed.

Ltac wire_length :=
  rewrite ?length_rev, ?obj_repr_length, ?le_bytes_length; reflexivity.

(** Rewrites [packet << v] on the empty packet into the packet that holds
    the [n] bytes [bs], and the extraction into its successful branch. *)
Ltac written n :=
  rewrite (append_empty _ (Z.of_nat n)) by (first [wire_length | reflexivity | lia]);
  rewrite (checkSize_whole _ (Z.of_nat n)) by (first [wire_length | reflexivity | lia]);
  cbv iota beta;
  rewrite (bytes_at_readPos_whole n) by wire_length.

Lemma round_trip_uint8 v out :
  in_unsigned 8 v ->
  extract_uint8 host (insert_uint8 host v empty) out
  = (advance 1 (mkPacket (obj_repr host 1 v) 0 0 true), v).
Proof.
  intros Hv. unfold extract_uint8, insert_uint8. written 1%nat.
  rewrite obj_value_repr. now rewrite uwrap_small.
Qed.

Lemma round_trip_int8 v out :
  in_signed 8 v ->
  extract_int8 host (insert_int8 host v empty) out
  = (advance 1 (mkPacket (obj_repr host 1 v) 0 0 true), v).
Proof.
  intros Hv. unfold extract_int8, insert_int8. written 1%nat.
  unfold obj_value_signed. rewrite obj_repr_length, obj_value_repr.
  change (8 * Z.of_nat 1) with 8. now rewrite swrap_of_uwrap_value.
Qed.

Lemma round_trip_bool v out :
  extract_bool host (insert_bool host v empty) out
  = (advance 1 (mkPacket (obj_repr host 1 (if v then 1 else 0)) 0 0 true), v).
Proof.
  unfold extract_bool, insert_bool.
  rewrite round_trip_uint8 by (unfold in_unsigned; destruct v; lia).
  cbn [to_bool advance set_readPos m_isValid]. now destruct v.
Qed.

Lemma round_trip_uint16 v out :
  in_unsigned 16 v ->
  extract_uint16 host (insert_uint16 host v empty) out
  = (advance 2 (mkPacket (rev (le_bytes 2 v)) 0 0 true), v).
Proof.
  intros Hv. unfold extract_uint16, insert_uint16. rewrite obj_repr_htons.
  written 2%nat.
  rewrite ntohs_obj_value by wire_length. rewrite from_le_wire. now rewrite uwrap_small.
Qed.

Lemma round_trip_int16 v out :
  in_signed 16 v ->
  extract_int16 host (insert_int16 host v empty) out
  = (advance 2 (mkPacket (rev (le_bytes 2 v)) 0 0 true), v).
Proof.
  intros Hv. unfold extract_int16, insert_int16. rewrite wire_int16.
  written 2%nat.
  rewrite read_int16 by wire_length. rewrite from_le_wire.
  now rewrite (swrap_of_uwrap_value 16).
Qed.

Lemma round_trip_uint32 v out :
  in_unsigned 32 v ->
  extract_uint32 host (insert_uint32 host v empty) out
  = (advance 4 (mkPacket (rev (le_bytes 4 v)) 0 0 true), v).
Proof.
  intros Hv. unfold extract_uint32, insert_uint32. rewrite obj_repr_htonl.
  written 4%nat.
  rewrite ntohl_obj_value by wire_length. rewrite from_le_wire. now rewrite uwrap_small.
Qed.

Lemma round_trip_int32 v out :
  in_signed 32 v ->
  extract_int32 host (insert_int32 host v empty) out
  = (advance 4 (mkPacket (rev (le_bytes 4 v)) 0 0 true), v).
Proof.
  intros Hv. unfold extract_int32, insert_int32. rewrite wire_int32.
  written 4%nat.
  rewrite read_int32 by wire_length. rewrite from_le_wire.
  now rewrite (swrap_of_uwrap_value 32).
Qed.

Lemma round_trip_uint64 v out :
  in_unsigned 64 v ->
  extract_uint64 (insert_uint64 v empty) out
  = (advance 8 (mkPacket (rev (le_bytes 8 v)) 0 0 true), v).
Proof.
  intros Hv. unfold extract_uint64, insert_uint64. rewrite to_write64_bytes.
  rewrite length_rev, le_bytes_length. written 8%nat.
  rewrite ToInteger_of_array_uint64 by wire_length. rewrite from_le_wire.
  now rewrite uwrap_small.
Qed.

Lemma round_trip_int64 v out :
  in_signed 64 v ->
  extract_int64 (insert_int64 v empty) out
  = (advance 8 (mkPacket (rev (le_bytes 8 v)) 0 0 true), v).
Proof.
  intros Hv. unfold extract_int64, insert_int64. rewrite to_write64_bytes.
  rewrite length_rev, le_bytes_length. written 8%nat.
  rewrite ToInteger_of_array_int64 by wire_length. rewrite from_le_wire.
  now rewrite (swrap_of_uwrap_value 64).
Qed.

Lemma round_trip_float v out :
  in_unsigned 32 v ->
  extract_float host (insert_float host v empty) out
  = (advance 4 (mkPacket (obj_repr host 4 v) 0 0 true), v).
Proof.
  intros Hv. unfold extract_float, insert_float. written 4%nat.
  rewrite obj_value_repr. now rewrite uwrap_small.
Qed.

Lemma round_trip_double v out :
  in_unsigned 64 v ->
  extract_double host (insert_double host v empty) out
  = (advance 8 (mkPacket (obj_repr host 8 v) 0 0 true), v).
Proof.
  intros Hv. unfold extract_double, insert_double. written 8%nat.
  rewrite obj_value_repr. now rewrite uwrap_small.
Qed.

End RoundTrip.

(** C1. For every scalar type (bool, the signed and unsigned integers of
    8, 16, 32 and 64 bits, float and double) and every value [v] of that
    type, inserting [v] into an empty packet and extracting into a
    variable [out] of the same type leaves [v] in the variable, and the
    packet is still valid. *)
Theorem scalar_round_trip host v out :
  scalar_value v -> same_type v out ->
  snd (extract host out (insert host v empty)) = v
  /\ to_bool (fst (extract host out (insert host v empty))) = true.
Proof.
  intros Hv Hs.
  destruct v; cbn [scalar_value] in Hv; try contradiction;
    destruct out; cbn [same_type] in Hs; try contradiction;
    cbn [extract insert]; unfold on_snd.
  - rewrite round_trip_bool. split; reflexivity.
  - rewrite round_trip_int8 by assumption. split; reflexivity.
  - rewrite round_trip_uint8 by assumption. split; reflexivity.
  - rewrite round_trip_int16 by assumption. split; reflexivity.
  - rewrite round_trip_uint16 by assumption. split; reflexivity.
  - rewrite round_trip_int32 by assumption. split; reflexivity.
  - rewrite round_trip_uint32 by assumption. split; reflexivity.
  - rewrite round_trip_int64 by assumption. split; reflexivity.
  - rewrite round_trip_uint64 by assumption. split; reflexivity.
  - rewrite round_trip_float by assumption. split; reflexivity.
  - rewrite round_trip_double by assumption. split; reflexivity.
Qed.

End PacketFacts.


(** ** The validity flag *)

Module ValidityFacts.
Import MachineIntFacts MemFacts PacketFacts.

Lemma set_isValid_same p : set_isValid (m_isValid p) p = p.
Proof. now destruct p. Qed.

(** [checkSize] answers with the flag it leaves in the packet. *)
Lemma checkSize_result n p : fst (checkSize n p) = m_isValid (snd (checkSize n p)).
Proof. reflexivity. Qed.

(** [checkSize] clears the flag exactly when the packet was already
    invalid, when the read would end past the buffer, or when the cursor
    arithmetic wraps around. *)
Lemma checkSize_invalidates n p :
  fst (checkSize n p) = false <->
  m_isValid p = false
  \/ data_size p < size_t_add (m_readPos p) n
  \/ size_t_add (m_readPos p) n < m_readPos p.
Proof.
  unfold checkSize. cbn [fst].
  destruct (m_isValid p); cbn [andb];
    destruct (Z.leb_spec (size_t_add (m_readPos p) n) (data_size p));
    destruct (Z.ltb_spec (size_t_add (m_readPos p) n) (m_readPos p));
    cbn; split; intros; try discriminate; try tauto; try lia;
    repeat match goal with H : _ \/ _ |- _ => destruct H end;
    try discriminate; try lia.
Qed.

(** On an invalid packet [checkSize] fails and changes nothing. *)
Lemma checkSize_invalid n p : m_isValid p = false -> checkSize n p = (false, p).
Proof.
  intros H. unfold checkSize. rewrite H. cbn [andb].
  now rewrite <- H, set_isValid_same.
Qed.

Lemma append_isValid data n p : m_isValid (append data n p) = m_isValid p.
Proof. unfold append. destruct data; [destruct (0 <? n)|]; reflexivity. Qed.

Lemma advance_isValid n p : m_isValid (advance n p) = m_isValid p.
Proof. reflexivity. Qed.

Section Sticky.
Variable host : Endian.

Lemma extract_uint8_invalid p data :
  m_isValid p = false -> extract_uint8 host p data = (p, data).
Proof. intros H. unfold extract_uint8. now rewrite checkSize_invalid. Qed.

Lemma extract_uint32_invalid p data :
  m_isValid p = false -> extract_uint32 host p data = (p, data).
Proof. intros H. unfold extract_uint32. now rewrite checkSize_invalid. Qed.

(** An extraction from an invalid packet leaves the packet as it is. *)
Lemma extract_invalid out p :
  m_isValid p = false -> fst (extract host out p) = p.
Proof.
  intros H. destruct out; cbn [extract on_snd fst];
    unfold extract_bool, extract_int8, extract_int16, extract_uint16,
      extract_int32, extract_int64, extract_uint64, extract_float,
      extract_double, extract_cstr, extract_string, extract_wcstr,
      extract_wstring, extract_u32string;
    rewrite ?extract_uint8_invalid, ?extract_uint32_invalid by exact H;
    rewrite ?checkSize_invalid by exact H;
    unfold to_bool; rewrite ?H; reflexivity.
Qed.

Lemma insert_chars_isValid data p : m_isValid (insert_chars host data p) = m_isValid p.
Proof.
  unfold insert_chars. revert p.
  induction data as [|c tl IH]; intros p; cbn [fold_left]; [reflexivity|].
  rewrite IH. unfold insert_uint32. apply append_isValid.
Qed.

(** No insertion touches the flag. *)
Lemma insert_isValid v p : m_isValid (insert host v p) = m_isValid p.
Proof.
  destruct v; cbn [insert];
    unfold insert_bool, insert_int8, insert_uint8, insert_int16, insert_uint16,
      insert_int32, insert_uint32, insert_int64, insert_uint64, insert_float,
      insert_double, insert_cstr, insert_string, insert_wcstr, insert_wstring,
      insert_u32string;
    repeat match goal with
           | |- context [if ?c then _ else _] => destruct c
           end;
    rewrite ?insert_chars_isValid; unfold insert_uint32;
    rewrite ?append_isValid; reflexivity.
Qed.

Lemma run_op_invalid o p : m_isValid p = false -> m_isValid (run_op host o p) = false.
Proof.
  intros H. destruct o; cbn [run_op].
  - now rewrite extract_invalid.
  - now rewrite insert_isValid.
  - now rewrite append_isValid.
  - unfold onReceive. now rewrite append_isValid.
Qed.

End Sticky.

(** C2. Once the validity flag of a packet is false, it is still false
    after any sequence of extractions ([operator>>]), insertions
    ([operator<<]) and [append]/[onReceive] calls; [clear] is what makes
    the packet valid again. *)
Theorem invalid_is_sticky host ops p :
  m_isValid p = false ->
  m_isValid (run_ops host ops p) = false
  /\ m_isValid (clear (run_ops host ops p)) = true.
Proof.
  intros H. split; [|reflexivity].
  unfold run_ops. revert p H.
  induction ops as [|o tl IH]; intros p H; cbn [fold_left]; [exact H|].
  apply IH. now apply run_op_invalid.
Qed.

End ValidityFacts.


(** ** Failed extractions and the caller's variable *)

Module FailureFacts.
Import MachineIntFacts MemFacts PacketFacts ValidityFacts.

Lemma uwrap64_cases x :
  0 <= x < 2 * 2 ^ 64 ->
  (x < 2 ^ 64 /\ uwrap 64 x = x) \/ (2 ^ 64 <= x /\ uwrap 64 x = x - 2 ^ 64).
Proof.
  intros Hx. destruct (Z_lt_le_dec x (2 ^ 64)) as [Hlt | Hge].
  - left. split; [exact Hlt|]. apply uwrap_small. lia.
  - right. split; [exact Hge|]. unfold uwrap.
    replace x with (x - 2 ^ 64 + 1 * 2 ^ 64) at 1 by lia.
    rewrite Z.mod_add by lia. apply Z.mod_small. lia.
Qed.

Section Failure.
Variable host : Endian.













End Failure.



Section AnyWidth.
Variable bits : Z.
Variable host : Endian.






(** Once the packet has no four bytes left to give, an extraction of a
    32-bit integer fails, leaves its variable alone, and so does every
    one after it. *)
Lemma exhausted_uint32 p data :
  fst (Portable.checkSize bits 4 p) = false ->
  Portable.extract_uint32 bits host p data = (set_isValid false p, data).
Proof.
  unfold Portable.extract_uint32, Portable.checkSize. cbv zeta. cbn [fst].
  intros H. rewrite H. reflexivity.
Qed.

Lemma still_exhausted p : fst (Portable.checkSize bits 4 (set_isValid false p)) = false.
Proof. reflexivity. Qed.

(** The loops of the wide extractions on such a packet: every iteration
    fails and appends, or stores, the zero its [character] started at. *)
Lemma extract_chars_exhausted castC n : forall p data,
  fst (Portable.checkSize bits 4 p) = false ->
  Portable.extract_chars bits host castC n p data
  = (match n with O => p | S _ => set_isValid false p end,
     data ++ repeat (castC 0) n).
Proof.
  induction n as [|n IH]; intros p data H; cbn [Portable.extract_chars repeat].
  - now rewrite app_nil_r.
  - rewrite (exhausted_uint32 p 0 H).
    rewrite (IH (set_isValid false p) _ (still_exhausted p)).
    rewrite <- app_assoc. cbn [app]. f_equal. now destruct n.
Qed.

Lemma extract_chars_into_exhausted castC n : forall i p data,
  fst (Portable.checkSize bits 4 p) = false ->
  Portable.extract_chars_into bits host castC n i p data
  = (match n with O => p | S _ => set_isValid false p end,
     fold_left (fun d j => store_at j (castC 0) d) (seq i n) data).
Proof.
  induction n as [|n IH]; intros i p data H;
    cbn [Portable.extract_chars_into seq fold_left]; [reflexivity|].
  rewrite (exhausted_uint32 p 0 H).
  rewrite (IH (S i) (set_isValid false p) _ (still_exhausted p)).
  f_equal. now destruct n.
Qed.

End AnyWidth.

(** A write past the end of the caller's buffer is dropped by [store_at]. *)
Lemma store_at_past_end {A : Type} (x : A) : forall l i,
  (length l <= i)%nat -> store_at i x l = l.
Proof.
  induction l as [|h tl IH]; intros i Hi; [now destruct i|].
  destruct i as [|i]; cbn [length] in Hi; [lia|].
  cbn [store_at]. f_equal. apply IH. lia.
Qed.

Lemma stores_past_end {A : Type} (x : A) js : forall l,
  Forall (fun j => (length l <= j)%nat) js ->
  fold_left (fun d j => store_at j x d) js l = l.
Proof.
  induction js as [|j js IH]; intros l H; cbn [fold_left]; [reflexivity|].
  inversion H as [|? ? Hj Hjs]; subst.
  rewrite (store_at_past_end x l j Hj). now apply IH.
Qed.

(** The count 2^30 on a 32-bit [std::size_t]: the count is read, the
    product [length * sizeof(std::uint32_t)] wraps to 0, and [checkSize]
    passes on a packet that has nothing left. *)
Lemma overlong_count_read host :
  Portable.extract_uint32 32 host Samples.overlong_count 0
  = (set_readPos 4 Samples.overlong_count, 1073741824).
Proof. destruct host; vm_compute; reflexivity. Qed.

Lemma overlong_count_accepted :
  Portable.checkSize 32 (Portable.size_t_mul 32 1073741824 4)
                     (set_readPos 4 Samples.overlong_count)
  = (true, set_readPos 4 Samples.overlong_count)
  /\ fst (Portable.checkSize 32 4 (set_readPos 4 Samples.overlong_count)) = false.
Proof. split; vm_compute; reflexivity. Qed.

(** What the wide extractions do with a count whose product with
    [sizeof(std::uint32_t)] passes the size check on a packet that has
    no four bytes left: every character extraction fails, the packet
    ends invalid, and the caller's string holds as many zero characters
    as the count says, or the caller's buffer has zeros written to it. *)
Lemma wide_overrun bits host p p1 count :
  Portable.extract_uint32 bits host p 0 = (p1, count) ->
  2 <= count ->
  Portable.checkSize bits (Portable.size_t_mul bits count 4) p1 = (true, p1) ->
  fst (Portable.checkSize bits 4 p1) = false ->
  (forall s, Portable.extract bits host (VU32String s) p
             = (set_isValid false p1, VU32String (repeat 0 (Z.to_nat count))))
  /\ (forall s, Portable.extract bits host (VWString s) p
                = (set_isValid false p1, VWString (repeat 0 (Z.to_nat count))))
  /\ (forall a b, Portable.extract bits host (VWCStr [a; b]) p
                  = (set_isValid false p1, VWCStr [0; 0])).
Proof.
  intros Hcount Hpos Hok Hgone.
  assert (Hlt : (0 <? count) = true) by (apply Z.ltb_lt; lia).
  destruct (Z.to_nat count) as [|[|k]] eqn:Hk; [lia | lia |].
  unfold Portable.extract, Portable.extract_u32string, Portable.extract_wstring,
    Portable.extract_wcstr, on_snd.
  rewrite Hcount, Hlt, Hok, Hk.
  rewrite !(extract_chars_exhausted bits host _ _ _ _ Hgone).
  change (cast_char32_t 0) with 0. change (cast_wchar_t 0) with 0.
  cbn [fst snd app].
  split; [reflexivity|]. split; [reflexivity|].
  intros a b.
  rewrite (extract_chars_into_exhausted bits host _ _ _ _ _ Hgone).
  change (cast_wchar_t 0) with 0.
  cbn [seq fold_left store_at fst snd].
  rewrite stores_past_end
    by (apply Forall_forall; intros j Hj; apply in_seq in Hj; cbn [length]; lia).
  now destruct k.
Qed.


(** Where [std::size_t] has 32 bits the three wide overloads are not
    covered by the statement above, and cannot be: a packet that holds
    only the count 2^30 = 1073741824 passes their size check, every
    character extraction then fails, and the packet ends invalid with
    2^30 zero characters in the caller's string, or zeros written into
    the caller's buffer. *)
Lemma narrow_wide_extraction_writes host :
  (forall s,
      Portable.extract 32 host (VU32String s) Samples.overlong_count
      = (set_isValid false (set_readPos 4 Samples.overlong_count),
         VU32String (repeat 0 (Z.to_nat 1073741824))))
  /\ (forall s,
         Portable.extract 32 host (VWString s) Samples.overlong_count
         = (set_isValid false (set_readPos 4 Samples.overlong_count),
            VWString (repeat 0 (Z.to_nat 1073741824))))
  /\ (forall a b,
         Portable.extract 32 host (VWCStr [a; b]) Samples.overlong_count
         = (set_isValid false (set_readPos 4 Samples.overlong_count), VWCStr [0; 0])).
Proof.
  destruct overlong_count_accepted as [Hok Hgone].
  assert (Hpos : 2 <= 1073741824) by lia.
  exact (wide_overrun 32 host Samples.overlong_count
           (set_readPos 4 Samples.overlong_count) 1073741824
           (overlong_count_read host) Hpos Hok Hgone).
Qed.


End FailureFacts.


(** ** [append] with nothing to append *)

Module AppendFacts.

(** C10. [append] with a null pointer, or with a size of zero, leaves
    the whole packet as it was: buffer, read position, send position and
    validity flag. *)
Theorem append_nothing data sizeInBytes p :
  data = None \/ sizeInBytes = 0 -> append data sizeInBytes p = p.
Proof.
  intros [-> | ->]; unfold append; [reflexivity|].
  destruct data; reflexivity.
Qed.

End AppendFacts.

(** ** Addresses *)

Module IpAddressFacts.
Import MachineIntFacts MemFacts PacketFacts.
Import IpAddress.

Lemma uwrap_lor w a b : 0 <= w -> uwrap w (Z.lor a b) = Z.lor (uwrap w a) (uwrap w b).
Proof.
  intros Hw. unfold uwrap. rewrite <- !Z.land_ones by lia. Z.bitblast.
Qed.

(** Four bytes ORed together at their weights, most significant first. *)
Lemma lor_bytes b0 b1 b2 b3 :
  Z.lor (Z.lor (Z.lor (Z_of_byte b0 * 2 ^ 24) (Z_of_byte b1 * 2 ^ 16))
               (Z_of_byte b2 * 2 ^ 8))
        (Z_of_byte b3)
  = from_le [b3; b2; b1; b0].
Proof.
  pose proof (Z_of_byte_range b0). pose proof (Z_of_byte_range b1).
  pose proof (Z_of_byte_range b2). pose proof (Z_of_byte_range b3).
  set (B0 := Z_of_byte b0) in *. set (B1 := Z_of_byte b1) in *.
  set (B2 := Z_of_byte b2) in *. set (B3 := Z_of_byte b3) in *.
  assert (E1 : Z.lor (B0 * 2 ^ 24) (B1 * 2 ^ 16) = (B1 + B0 * 2 ^ 8) * 2 ^ 16).
  { rewrite Z.lor_comm, lor_disjoint_add by lia. ring. }
  assert (E2 : Z.lor ((B1 + B0 * 2 ^ 8) * 2 ^ 16) (B2 * 2 ^ 8)
               = (B2 + B1 * 2 ^ 8 + B0 * 2 ^ 16) * 2 ^ 8).
  { rewrite Z.lor_comm, lor_disjoint_add by lia. ring. }
  rewrite E1, E2, Z.lor_comm, lor_disjoint_add by lia.
  cbn [from_le]. fold B0 B1 B2 B3. ring.
Qed.

Section Host.
Variable host : Endian.

Lemma uwrap_int_shl b n :
  0 <= n <= 24 -> uwrap 32 (int_shl b n) = Z_of_byte b * 2 ^ n.
Proof.
  intros Hn. unfold int_shl. rewrite uwrap_swrap by lia.
  rewrite Z.shiftl_mul_pow2 by lia. apply uwrap_small.
  pose proof (Z_of_byte_range b).
  pose proof (pow2_pos n ltac:(lia)).
  split; [nia|].
  apply Z.lt_le_trans with (2 ^ 8 * 2 ^ n); [change (2 ^ 8) with 256; nia|].
  rewrite <- Z.pow_add_r by lia. apply Z.pow_le_mono_r; lia.
Qed.

(** The integer the four-byte constructor hands to [htonl]. *)
Lemma of_bytes_integer b0 b1 b2 b3 :
  uwrap 32 (Z.lor (Z.lor (Z.lor (int_shl b0 24) (int_shl b1 16)) (int_shl b2 8))
                  (Z_of_byte b3))
  = from_le [b3; b2; b1; b0].
Proof.
  rewrite !uwrap_lor by lia. rewrite !uwrap_int_shl by lia.
  rewrite (uwrap_small 32 (Z_of_byte b3))
    by (pose proof (Z_of_byte_range b3); change (2 ^ 32) with 4294967296; lia).
  apply lor_bytes.
Qed.

(** The address built from four bytes is stored as those bytes, in order. *)
Lemma of_bytes_memory b0 b1 b2 b3 :
  obj_repr host 4 (m_address (of_bytes host b0 b1 b2 b3)) = [b0; b1; b2; b3].
Proof.
  unfold of_bytes. cbn [m_address].
  rewrite obj_repr_htonl, of_bytes_integer.
  now rewrite (le_bytes_from_le_n 4).
Qed.

End Host.

(** C7. For all bytes [b0], [b1], [b2], [b3], the address constructed
    from them prints as the dotted-decimal text "b0.b1.b2.b3". *)
Theorem toString_of_bytes host b0 b1 b2 b3 :
  toString host (of_bytes host b0 b1 b2 b3) = dotted_decimal b0 b1 b2 b3.
Proof.
  unfold toString. rewrite of_bytes_memory. reflexivity.
Qed.

End IpAddressFacts.

(** ** The socket handle *)

Module SocketFacts.
Import Socket.

(** C8. [close] leaves the handle at the invalid sentinel, and a second
    [close] right after it changes nothing: neither the socket nor the
    trace of operating-system calls (nothing is released twice). *)
Theorem close_idempotent s :
  m_socket (this (snd (close s))) = invalidSocket
  /\ close (snd (close s)) = (tt, snd (close s)).
Proof.
  unfold close, bind, getNativeHandle, sys, set_m_socket, ret.
  destruct (Z.eqb_spec (m_socket (this s)) invalidSocket) as [E | E];
    cbn [negb snd fst this m_socket os_trace].
  - split; [exact E|]. rewrite E. reflexivity.
  - split; reflexivity.
Qed.

End SocketFacts.


(** ** Rejections before the operating system is asked *)

Module RejectionFacts.
Import Socket.

Lemma is_sendto_not_lifecycle : not_lifecycle is_sendto.
Proof. repeat split. Qed.

Lemma is_bind_or_listen_not_lifecycle : not_lifecycle is_bind_or_listen.
Proof. repeat split. Qed.

Lemma calls_sys f c s : f c = false -> calls f (snd (sys c s)) = calls f s.
Proof.
  intros H. unfold calls, sys. cbn [snd os_trace].
  rewrite filter_app. cbn [filter]. rewrite H. apply app_nil_r.
Qed.

Lemma calls_close f s : not_lifecycle f -> calls f (snd (close s)) = calls f s.
Proof.
  intros (_ & Hc & _ & _). unfold close, bind, getNativeHandle, set_m_socket, ret.
  destruct (negb (m_socket (this s) =? invalidSocket)); [|reflexivity].
  cbn [snd]. transitivity (calls f (snd (sys (sys_close (m_socket (this s))) s))).
  - reflexivity.
  - apply calls_sys, Hc.
Qed.

Lemma calls_setBlocking f b s : not_lifecycle f -> calls f (snd (setBlocking b s)) = calls f s.
Proof.
  intros (_ & _ & Hb & _). unfold setBlocking, bind, getNativeHandle, set_m_isBlocking, ret.
  destruct (negb (m_socket (this s) =? invalidSocket)); [|reflexivity].
  cbn [snd]. transitivity (calls f (snd (sys (sys_setBlocking (m_socket (this s)) b) s))).
  - reflexivity.
  - apply calls_sys, Hb.
Qed.

Lemma calls_create_handle f handle s :
  not_lifecycle f -> calls f (snd (create_handle handle s)) = calls f s.
Proof.
  intros Hf. pose proof Hf as (_ & _ & _ & Ho).
  unfold create_handle, bind, getNativeHandle.
  destruct (m_socket (this s) =? invalidSocket); [|reflexivity].
  unfold set_m_socket at 1. unfold isBlocking at 1. cbn [this m_isBlocking].
  match goal with
  | |- context [setBlocking ?b ?s0] =>
      pose proof (calls_setBlocking f b s0 Hf) as E;
      destruct (setBlocking b s0) as [[] s1]
  end.
  cbn [snd] in E. unfold get_type.
  destruct (m_type (this s1)); rewrite calls_sys by apply Ho; exact E.
Qed.

Lemma calls_create f env s : not_lifecycle f -> calls f (snd (create env s)) = calls f s.
Proof.
  intros Hf. pose proof Hf as (Hs & _ & _ & _).
  unfold create, bind, getNativeHandle, get_type.
  destruct (m_socket (this s) =? invalidSocket); [|reflexivity].
  pose proof (calls_sys f (sys_socket (m_type (this s))) s (Hs _)) as E.
  destruct (sys (sys_socket (m_type (this s))) s) as [[] s1]. cbn [snd] in E.
  destruct (env_socket env =? invalidSocket); [exact E|].
  now rewrite calls_create_handle.
Qed.

(** [close] then [create], as [bind] and [listen] start. *)
Lemma calls_close_create f env s :
  not_lifecycle f -> calls f (snd (create env (snd (close s)))) = calls f s.
Proof. intros Hf. now rewrite calls_create, calls_close. Qed.

Lemma eq_refl_address a : IpAddress.eq a a = true.
Proof.
  unfold IpAddress.eq, IpAddress.lt, IpAddress.bool_lt.
  rewrite Z.ltb_irrefl. now destruct (IpAddress.m_valid a).
Qed.

(** C5. A payload larger than [MaxDatagramSize] makes [send] return
    [Error] without any [sendto] call: nothing is transmitted, in whole
    or in part. *)
Theorem oversized_datagram_rejected host MaxDatagramSize env data size address port s :
  MaxDatagramSize < size ->
  fst (UdpSocket.send host MaxDatagramSize env data size address port s) = Error
  /\ calls is_sendto (snd (UdpSocket.send host MaxDatagramSize env data size address port s))
     = calls is_sendto s.
Proof.
  intros Hsize. unfold UdpSocket.send, bind.
  pose proof (calls_create is_sendto env s is_sendto_not_lifecycle) as E.
  destruct (create env s) as [[] s1]. cbn [snd] in E.
  destruct (Z.ltb_spec MaxDatagramSize size); [|lia].
  split; [reflexivity | exact E].
Qed.

(** C6. With an address equal to the broadcast address, [UdpSocket::bind]
    and [TcpListener::listen] return [Error], whatever the port, and make
    no [bind] or [listen] call. *)
Theorem broadcast_address_rejected host env port address s :
  IpAddress.eq address (IpAddress.Broadcast host) = true ->
  (fst (UdpSocket.bind_ host env port address s) = Error
   /\ calls is_bind_or_listen (snd (UdpSocket.bind_ host env port address s))
      = calls is_bind_or_listen s)
  /\ (fst (TcpListener.listen host env port address s) = Error
      /\ calls is_bind_or_listen (snd (TcpListener.listen host env port address s))
         = calls is_bind_or_listen s).
Proof.
  intros Hb.
  pose proof (calls_close_create is_bind_or_listen env s
                is_bind_or_listen_not_lifecycle) as E.
  unfold UdpSocket.bind_, TcpListener.listen, bind.
  destruct (close s) as [[] s1]. cbn [snd] in E.
  destruct (create env s1) as [[] s2]. cbn [snd] in E.
  rewrite Hb. repeat split; exact E.
Qed.

(** C9. The packet [receive] of a datagram socket clears the caller's
    packet whatever happens: when the raw receive does not return [Done],
    or returns zero bytes, the packet ends up cleared, with an empty
    buffer, whatever it held. *)
Theorem failed_receive_clears_packet host MaxDatagramSize env m_buffer packet s :
  let m_buffer1 := UdpSocket.vector_resize (Z.to_nat MaxDatagramSize) m_buffer in
  let r := fst (UdpSocket.receive host env (UdpSocket.vector_data m_buffer1)
                  (Z.of_nat (length m_buffer1)) s) in
  let result := fst (UdpSocket.receive_packet host MaxDatagramSize env m_buffer packet s) in
  UdpSocket.r_status r <> Done \/ UdpSocket.r_received r = 0 ->
  UdpSocket.pr_status result = UdpSocket.r_status r
  /\ UdpSocket.pr_packet result = clear packet
  /\ m_data (UdpSocket.pr_packet result) = [].
Proof.
  cbv zeta. unfold UdpSocket.receive_packet, bind.
  destruct (UdpSocket.receive host env _ _ s) as [r s1]. cbn [fst ret].
  unfold ret. cbn [fst UdpSocket.pr_status UdpSocket.pr_packet].
  intros [Hst | Hz].
  - destruct (UdpSocket.r_status r); try congruence; cbn; repeat split.
  - rewrite Hz. cbn [Z.ltb Z.compare]. rewrite andb_false_r. repeat split.
Qed.

End RejectionFacts.


(** ** Reassembly of a frame by the stream socket *)

Module ReassemblyFacts.
Import MachineIntFacts MemFacts PacketFacts.
Import Socket TcpSocket.

Lemma store_prefix_app pp l1 l2 :
  store_prefix pp (l1 ++ l2) = store_prefix (store_prefix pp l1) l2.
Proof. apply fold_left_app. Qed.

Lemma store_prefix_sizeReceived l : forall pp,
  sizeReceived (store_prefix pp l) = sizeReceived pp + Z.of_nat (length l).
Proof.
  induction l as [|b tl IH]; intros pp; cbn [store_prefix fold_left length].
  - lia.
  - fold (store_prefix (mkPendingPacket
                          (Z.lor (size pp) (Z.shiftl (Z_of_byte b) (8 * (3 - sizeReceived pp))))
                          (sizeReceived pp + 1) (data pp)) tl).
    rewrite IH. cbn [sizeReceived]. lia.
Qed.

Lemma store_prefix_data l : forall pp, data (store_prefix pp l) = data pp.
Proof.
  induction l as [|b tl IH]; intros pp; cbn [store_prefix fold_left]; [reflexivity|].
  fold (store_prefix (mkPendingPacket
                        (Z.lor (size pp) (Z.shiftl (Z_of_byte b) (8 * (3 - sizeReceived pp))))
                        (sizeReceived pp + 1) (data pp)) tl).
  now rewrite IH.
Qed.

(** The four bytes of a prefix, most significant first, give the declared
    size. *)
Lemma store_prefix_four a b c d :
  store_prefix no_pending [a; b; c; d] = mkPendingPacket (from_le [d; c; b; a]) 4 [].
Proof.
  unfold store_prefix, no_pending. cbn [fold_left size sizeReceived data].
  f_equal. rewrite <- IpAddressFacts.lor_bytes.
  change (8 * (3 - 0)) with 24. change (8 * (3 - (0 + 1))) with 16.
  change (8 * (3 - (0 + 1 + 1))) with 8. change (8 * (3 - (0 + 1 + 1 + 1))) with 0.
  rewrite !Z.shiftl_mul_pow2 by lia. rewrite Z.lor_0_l.
  change (2 ^ 0) with 1. now rewrite Z.mul_1_r.
Qed.

Lemma firstn_pos_singleton {A : Type} n (x : A) : 0 < n -> firstn (Z.to_nat n) [x] = [x].
Proof.
  intros H. destruct (Z.to_nat n) eqn:E; [lia|]. cbn. now rewrite firstn_nil.
Qed.

Lemma skipn_pos_singleton {A : Type} n (x : A) : 0 < n -> skipn (Z.to_nat n) [x] = [].
Proof.
  intros H. destruct (Z.to_nat n) eqn:E; [lia|]. cbn. now rewrite skipn_nil.
Qed.

(** A raw receive that asks for exactly what has arrived. *)
Lemma receive_whole n pp bytes :
  bytes <> [] -> Z.to_nat n = length bytes ->
  receive n (mkTcpSocket pp bytes) = (Done, bytes, mkTcpSocket pp []).
Proof.
  intros Hne Hn. unfold receive. cbn [incoming m_pendingPacket].
  destruct bytes as [|b tl]; [congruence|].
  now rewrite Hn, firstn_all, skipn_all.
Qed.

Ltac reduce_records :=
  cbv beta iota zeta delta [m_pendingPacket incoming sizeReceived size data].

(** A byte of the prefix that is not the last one: the call answers
    [NotReady] and keeps the byte. *)
Lemma prefix_step pp b packet :
  0 <= sizeReceived pp < 3 ->
  deliver [b] (mkTcpSocket pp []) packet
  = (NotReady, mkTcpSocket (store_prefix pp [b]) [], packet).
Proof.
  intros Hk. unfold deliver, receive_packet.
  cbn [m_pendingPacket incoming app].
  destruct (Z.ltb_spec (sizeReceived pp) 4); [|lia].
  unfold receive at 1. cbn [incoming m_pendingPacket].
  rewrite firstn_pos_singleton, skipn_pos_singleton by lia.
  cbn [m_pendingPacket incoming].
  rewrite store_prefix_sizeReceived. cbn [length].
  destruct (Z.ltb_spec (sizeReceived pp + Z.of_nat 1) 4); [reflexivity | lia].
Qed.

(** The packet the framed receive hands over for a payload. *)
Lemma filled payload packet :
  onReceive (UdpSocket.vector_data payload) (Z.of_nat (length payload)) (clear packet)
  = mkPacket payload 0 (m_sendPos packet) true.
Proof.
  unfold onReceive, append, clear, set_data.
  destruct payload as [|b tl]; cbn [UdpSocket.vector_data]; [reflexivity|].
  destruct (Z.ltb_spec 0 (Z.of_nat (length (b :: tl)))); [|cbn [length] in *; lia].
  cbn [m_data m_readPos m_sendPos m_isValid app].
  rewrite Nat2Z.id, firstn_all. reflexivity.
Qed.

(** The last byte of the prefix: the declared size is known; an empty
    frame is complete at once, any other waits for its payload. *)
Lemma prefix_last_step pp b packet :
  sizeReceived pp = 3 -> data pp = [] ->
  deliver [b] (mkTcpSocket pp []) packet
  = if 0 <? size (store_prefix pp [b])
    then (NotReady, mkTcpSocket (store_prefix pp [b]) [], packet)
    else (Done, idle, mkPacket [] 0 (m_sendPos packet) true).
Proof.
  intros Hk Hd. unfold deliver, receive_packet.
  cbn [m_pendingPacket incoming app]. rewrite Hk.
  change (3 <? 4) with true. cbv iota.
  unfold receive at 1. cbn [incoming m_pendingPacket].
  change (4 - 3) with 1.
  rewrite firstn_pos_singleton, skipn_pos_singleton by lia.
  cbn [m_pendingPacket incoming].
  set (pp1 := store_prefix pp [b]).
  assert (Hs : sizeReceived pp1 = 4)
    by (subst pp1; rewrite store_prefix_sizeReceived, Hk; reflexivity).
  assert (Hd1 : data pp1 = []) by (subst pp1; now rewrite store_prefix_data).
  rewrite Hs. change (4 <? 4) with false. cbv iota.
  rewrite Hd1. cbn [length Z.of_nat]. rewrite Z.sub_0_r.
  destruct (Z.ltb_spec 0 (size pp1)) as [Hpos | Hle].
  - unfold receive. cbn [incoming m_pendingPacket data size app length Z.of_nat].
    destruct (Z.ltb_spec 0 (size pp1)); [|lia].
    do 2 f_equal. f_equal. destruct pp1; cbn in *; subst; reflexivity.
  - cbn [m_pendingPacket incoming data size length Z.of_nat]. rewrite Hd1.
    cbn [length Z.of_nat].
    destruct (Z.ltb_spec 0 (size pp1)); [lia|].
    reflexivity.
Qed.

(** A byte of the payload: the call answers [NotReady] until the byte
    that completes the frame, which it answers with [Done], the filled
    packet and an empty pending state. *)
Lemma payload_step n acc b packet :
  Z.of_nat (length acc) < n ->
  deliver [b] (mkTcpSocket (mkPendingPacket n 4 acc) []) packet
  = if Z.of_nat (length (acc ++ [b])) <? n
    then (NotReady, mkTcpSocket (mkPendingPacket n 4 (acc ++ [b])) [], packet)
    else (Done, idle, mkPacket (acc ++ [b]) 0 (m_sendPos packet) true).
Proof.
  intros Hlt. unfold deliver, receive_packet, receive.
  reduce_records. cbn [app].
  change (4 <? 4) with false. cbv iota.
  destruct (Z.ltb_spec 0 (n - Z.of_nat (length acc))); [|lia].
  rewrite firstn_pos_singleton, skipn_pos_singleton by lia.
  reduce_records.
  destruct (Z.of_nat (length (acc ++ [b])) <? n); [reflexivity|].
  now rewrite filled.
Qed.

Lemma payload_all n packet : forall rest acc,
  rest <> [] -> Z.of_nat (length acc) + Z.of_nat (length rest) = n ->
  deliver_all (one_by_one rest) (mkTcpSocket (mkPendingPacket n 4 acc) []) packet
  = (repeat NotReady (length rest - 1) ++ [Done], idle,
     mkPacket (acc ++ rest) 0 (m_sendPos packet) true).
Proof.
  induction rest as [|b tl IH]; intros acc Hne Hlen; [congruence|].
  cbn [one_by_one map deliver_all]. fold (one_by_one tl).
  cbn [length] in Hlen.
  rewrite payload_step by lia. rewrite length_app. cbn [length].
  destruct tl as [|b' tl'].
  - destruct (Z.ltb_spec (Z.of_nat (length acc + 1)) n); [cbn [length] in *; lia|].
    reflexivity.
  - destruct (Z.ltb_spec (Z.of_nat (length acc + 1)) n); [|cbn [length] in *; lia].
    rewrite IH; [|discriminate|rewrite length_app; cbn [length] in *; lia].
    rewrite <- app_assoc. cbn [app length Nat.sub repeat].
    rewrite Nat.sub_0_r. reflexivity.
Qed.

(** C4. For a frame (the payload length as a 4-byte big-endian prefix,
    then the payload), delivering the bytes one at a time, with a call of
    the framed receive after each byte, answers [NotReady] until the last
    byte and then [Done]; the destination packet is then the one a single
    delivery of the whole frame produces (the payload, read position 0,
    valid), and in both cases the pending-packet state is empty again. *)
Theorem incremental_reassembly payload packet :
  Z.of_nat (length payload) < 2 ^ 32 ->
  deliver_all (one_by_one (frame payload)) idle packet
  = (repeat NotReady (3 + length payload) ++ [Done], idle,
     mkPacket payload 0 (m_sendPos packet) true)
  /\ deliver (frame payload) idle packet
     = (Done, idle, mkPacket payload 0 (m_sendPos packet) true).
Proof.
  intros Hn. set (n := Z.of_nat (length payload)) in *.
  assert (Hsize : from_le (le_bytes 4 n) = n).
  { rewrite from_le_le_bytes. apply Z.mod_small. subst n. split; [lia | exact Hn]. }
  unfold frame. fold n. revert Hsize.
  cbn [le_bytes rev app].
  set (d0 := byte_of_Z n). set (d1 := byte_of_Z (n / 256)).
  set (d2 := byte_of_Z (n / 256 / 256)). set (d3 := byte_of_Z (n / 256 / 256 / 256)).
  intros Hsize.
  assert (Hfour : store_prefix no_pending [d3; d2; d1; d0] = mkPendingPacket n 4 []).
  { rewrite store_prefix_four. now rewrite Hsize. }
  split.
  - cbn [one_by_one map deliver_all]. fold (one_by_one payload).
    unfold idle.
    rewrite prefix_step by (cbn; lia).
    rewrite prefix_step by (rewrite store_prefix_sizeReceived; cbn; lia).
    rewrite prefix_step by (rewrite !store_prefix_sizeReceived; cbn; lia).
    rewrite prefix_last_step
      by (rewrite ?store_prefix_sizeReceived, ?store_prefix_data; reflexivity).
    rewrite <- !store_prefix_app. cbn [app]. rewrite Hfour. cbn [size].
    destruct (Z.ltb_spec 0 n) as [Hpos | Hzero].
    + rewrite payload_all with (n := n);
        [|intros ->; subst n; cbn in Hpos; lia | subst n; cbn; lia].
      cbn [app]. do 2 f_equal.
      assert (Hl : length payload <> 0%nat) by (subst n; lia).
      clear - Hl. destruct (length payload) as [|k]; [congruence|].
      cbn [Nat.sub Nat.add repeat app]. rewrite Nat.sub_0_r. reflexivity.
    + assert (payload = []) as -> by (destruct payload; [reflexivity | subst n; cbn in Hzero; lia]).
      reflexivity.
  - unfold deliver, receive_packet, idle.
    cbn [m_pendingPacket incoming app sizeReceived no_pending].
    change (0 <? 4) with true. cbv iota.
    unfold receive at 1. cbn [incoming m_pendingPacket].
    change (Z.to_nat (4 - 0)) with 4%nat. cbn [firstn skipn].
    fold no_pending. rewrite Hfour.
    cbn [m_pendingPacket incoming sizeReceived size data length Z.of_nat].
    change (4 <? 4) with false. cbv iota. rewrite Z.sub_0_r.
    destruct (Z.ltb_spec 0 n) as [Hpos | Hzero].
    + rewrite receive_whole
        by (subst n; first [apply Nat2Z.id | intros ->; cbn in Hpos; lia]).
      reduce_records. cbn [app].
      fold n. rewrite Z.ltb_irrefl. unfold n. now rewrite filled.
    + assert (payload = []) as -> by (destruct payload; [reflexivity | subst n; cbn in Hzero; lia]).
      cbn [m_pendingPacket incoming sizeReceived size data length Z.of_nat].
      subst n. cbn [length Z.of_nat]. change (0 <? 0) with false. cbv iota.
      reflexivity.
Qed.

End ReassemblyFacts.


(** ** The theorems at sample inputs *)

Module Instances.
Import Socket Samples.

(** On the wire a 32-bit integer is big-endian, whatever the host. *)
Example wire_order_uint32 :
  m_data (insert_uint32 Little 305419896 empty) = [x12; x34; x56; x78]
  /\ m_data (insert_uint32 Big 305419896 empty) = [x12; x34; x56; x78].
Proof. split; reflexivity. Qed.

Example read_uint32_of_empty :
  extract Little (VUInt32 7) empty = (mkPacket [] 0 0 false, VUInt32 7).
Proof. reflexivity. Qed.

Example read_string_of_empty :
  extract Little (VString [x61; x62]) empty = (mkPacket [] 0 0 false, VString []).
Proof. reflexivity. Qed.

Example string_round_trip :
  snd (extract Big (VString []) (insert Big (VString [x68; x69]) empty))
  = VString [x68; x69].
Proof. reflexivity. Qed.

Example toString_sample :
  IpAddress.toString Little (IpAddress.of_bytes Little xc0 xa8 x01 x38)
  = "192.168.1.56"%string.
Proof. reflexivity. Qed.

Example frame_sample :
  TcpSocket.frame [x0a; x0b] = [x00; x00; x00; x02; x0a; x0b].
Proof. reflexivity. Qed.

(** A frame split across deliveries at arbitrary places. *)
Example reassembly_in_chunks :
  TcpSocket.deliver_all [[x00; x00]; [x00; x03; x0a]; [x0b; x0c]]
                        TcpSocket.idle sample_packet
  = ([NotReady; NotReady; Done], TcpSocket.idle, mkPacket [x0a; x0b; x0c] 0 0 true).
Proof. reflexivity. Qed.

(** A rejected oversized send still creates the handle, but sends nothing. *)
Example oversized_send_trace :
  UdpSocket.send Little sample_MaxDatagramSize sample_env None 65508
                 (IpAddress.LocalHost Little) 9000 (mkState (Socket.new Udp) [])
  = (Error, mkState (mkSocket Udp 5 true)
                    [sys_socket Udp; sys_setBlocking 5 true;
                     sys_setsockopt 5 SO_BROADCAST]).
Proof. reflexivity. Qed.

Lemma scalar_round_trip_witness :
  (scalar_value (VInt32 (-2)) /\ same_type (VInt32 (-2)) (VInt32 0))
  /\ snd (extract Little (VInt32 0) (insert Little (VInt32 (-2)) empty)) = VInt32 (-2)
  /\ to_bool (fst (extract Little (VInt32 0) (insert Little (VInt32 (-2)) empty))) = true.
Proof.
  assert (Hv : scalar_value (VInt32 (-2))) by (cbn; unfold in_signed; simpl; lia).
  split; [split; [exact Hv | exact I]|].
  apply (PacketFacts.scalar_round_trip Little (VInt32 (-2)) (VInt32 0) Hv I).
Defined.

Lemma invalid_is_sticky_witness :
  m_isValid invalid_packet = false
  /\ m_isValid (run_ops Big [OpExtract (VUInt8 0); OpInsert (VUInt32 9);
                             OpAppend (Some [x01]) 1; OpExtract (VString [])]
                        invalid_packet) = false
  /\ m_isValid (clear (run_ops Big [OpExtract (VUInt8 0); OpInsert (VUInt32 9);
                                    OpAppend (Some [x01]) 1; OpExtract (VString [])]
                               invalid_packet)) = true.
Proof.
  split; [reflexivity|].
  apply (ValidityFacts.invalid_is_sticky Big). reflexivity.
Defined.


Lemma incremental_reassembly_witness :
  Z.of_nat (length [x0a; x0b]) < 2 ^ 32
  /\ TcpSocket.deliver_all (TcpSocket.one_by_one (TcpSocket.frame [x0a; x0b]))
                           TcpSocket.idle sample_packet
     = (repeat NotReady (3 + length [x0a; x0b]) ++ [Done], TcpSocket.idle,
        mkPacket [x0a; x0b] 0 (m_sendPos sample_packet) true)
  /\ TcpSocket.deliver (TcpSocket.frame [x0a; x0b]) TcpSocket.idle sample_packet
     = (Done, TcpSocket.idle, mkPacket [x0a; x0b] 0 (m_sendPos sample_packet) true).
Proof.
  split; [reflexivity|].
  apply (ReassemblyFacts.incremental_reassembly [x0a; x0b] sample_packet).
  reflexivity.
Defined.

Lemma oversized_datagram_rejected_witness :
  sample_MaxDatagramSize < sample_MaxDatagramSize + 1
  /\ fst (UdpSocket.send Little sample_MaxDatagramSize sample_env (Some [])
            (sample_MaxDatagramSize + 1) (IpAddress.LocalHost Little) 9000 sample_udp)
     = Error
  /\ calls is_sendto
       (snd (UdpSocket.send Little sample_MaxDatagramSize sample_env (Some [])
               (sample_MaxDatagramSize + 1) (IpAddress.LocalHost Little) 9000 sample_udp))
     = calls is_sendto sample_udp.
Proof.
  split; [reflexivity|].
  apply (RejectionFacts.oversized_datagram_rejected Little sample_MaxDatagramSize).
  reflexivity.
Defined.

Lemma broadcast_address_rejected_witness :
  IpAddress.eq (IpAddress.Broadcast Little) (IpAddress.Broadcast Little) = true
  /\ (fst (UdpSocket.bind_ Little sample_env 9000 (IpAddress.Broadcast Little) sample_udp)
      = Error
      /\ calls is_bind_or_listen
           (snd (UdpSocket.bind_ Little sample_env 9000 (IpAddress.Broadcast Little) sample_udp))
         = calls is_bind_or_listen sample_udp)
  /\ (fst (TcpListener.listen Little sample_env 9000 (IpAddress.Broadcast Little) sample_udp)
      = Error
      /\ calls is_bind_or_listen
           (snd (TcpListener.listen Little sample_env 9000 (IpAddress.Broadcast Little) sample_udp))
         = calls is_bind_or_listen sample_udp).
Proof.
  split; [vm_compute; reflexivity|].
  apply (RejectionFacts.broadcast_address_rejected Little sample_env 9000
           (IpAddress.Broadcast Little) sample_udp).
  vm_compute. reflexivity.
Defined.

Lemma failed_receive_clears_packet_witness :
  UdpSocket.pr_status
    (fst (UdpSocket.receive_packet Little 4 sample_env [] sample_packet sample_udp))
  = NotReady
  /\ UdpSocket.pr_packet
       (fst (UdpSocket.receive_packet Little 4 sample_env [] sample_packet sample_udp))
     = clear sample_packet
  /\ m_data (UdpSocket.pr_packet
               (fst (UdpSocket.receive_packet Little 4 sample_env [] sample_packet sample_udp)))
     = [].
Proof.
  apply (RejectionFacts.failed_receive_clears_packet Little 4 sample_env []
           sample_packet sample_udp).
  left. vm_compute. discriminate.
Defined.

Lemma append_nothing_witness :
  append None 4 sample_packet = sample_packet
  /\ append (Some [x01; x02]) 0 sample_packet = sample_packet.
Proof.
  split.
  - apply (AppendFacts.append_nothing None 4 sample_packet). left. reflexivity.
  - apply (AppendFacts.append_nothing (Some [x01; x02]) 0 sample_packet). right. reflexivity.
Defined.

End Instances.


(** ** Insertions append *)

Module AppendingFacts.
Import MachineIntFacts MemFacts PacketFacts ValidityFacts.
Import PacketStream.

Lemma set_data_same p : set_data (m_data p) p = p.
Proof. now destruct p. Qed.

Lemma appends_append d n : appends (append d n).
Proof.
  intros p. unfold append. destruct d as [bytes|]; [destruct (0 <? n)|]; cbn.
  - reflexivity.
  - now rewrite app_nil_r, set_data_same.
  - now rewrite app_nil_r, set_data_same.
Qed.

Lemma appends_id : appends (fun p => p).
Proof. intros p. cbn. now rewrite app_nil_r, set_data_same. Qed.

Lemma appends_compose f g : appends f -> appends g -> appends (fun p => g (f p)).
Proof.
  intros Hf Hg p. cbv beta.
  rewrite (Hg (f p)), (Hg (f empty)), (Hf p).
  unfold set_data. cbn [m_data m_readPos m_sendPos m_isValid].
  now rewrite app_assoc.
Qed.

Section Appending.
Variable host : Endian.

Lemma appends_insert_uint32 v : appends (insert_uint32 host v).
Proof. apply appends_append. Qed.

Lemma appends_insert_chars data : appends (insert_chars host data).
Proof.
  unfold insert_chars. induction data as [|c tl IH]; cbn [fold_left].
  - apply appends_id.
  - apply (appends_compose (insert_uint32 host (uwrap 32 c))
                           (fun q => fold_left (fun q0 c0 => insert_uint32 host (uwrap 32 c0) q0) tl q)).
    + apply appends_insert_uint32.
    + exact IH.
Qed.

(** Every insertion only appends, and what it appends does not depend on
    the packet. *)
Lemma appends_counted_bytes n d k :
  appends (fun p => append d k (insert_uint32 host n p)).
Proof.
  apply (appends_compose (insert_uint32 host n) (append d k));
    [apply appends_insert_uint32 | apply appends_append].
Qed.

Lemma appends_counted_chars n data :
  appends (fun p => insert_chars host data (insert_uint32 host n p)).
Proof.
  apply (appends_compose (insert_uint32 host n) (insert_chars host data));
    [apply appends_insert_uint32 | apply appends_insert_chars].
Qed.

(** Every insertion only appends, and what it appends does not depend on
    the packet. *)
Lemma appends_insert v : appends (insert host v).
Proof.
  intros p.
  destruct v; cbn [insert];
    unfold insert_bool, insert_int8, insert_uint8, insert_int16, insert_uint16,
      insert_int32, insert_int64, insert_uint64, insert_float,
      insert_double, insert_cstr, insert_string, insert_wcstr, insert_wstring,
      insert_u32string;
    try apply appends_append.
  - apply (appends_counted_bytes _ _ _ p).
  - destruct (0 <? uwrap 32 (Z.of_nat (length s)));
      [apply (appends_counted_bytes _ _ _ p) | apply appends_insert_uint32].
  - apply (appends_counted_chars _ _ p).
  - destruct (0 <? uwrap 32 (Z.of_nat (length s)));
      [apply (appends_counted_chars _ _ p) | apply appends_insert_uint32].
  - destruct (0 <? uwrap 32 (Z.of_nat (length s)));
      [apply (appends_counted_chars _ _ p) | apply appends_insert_uint32].
Qed.

Lemma insert_wire v p : insert host v p = set_data (m_data p ++ wire host v) p.
Proof. apply appends_insert. Qed.

Lemma insert_all_wire vs : forall p,
  insert_all host vs p = set_data (m_data p ++ concat (map (wire host) vs)) p.
Proof.
  unfold insert_all. induction vs as [|v tl IH]; intros p; cbn [fold_left map concat].
  - now rewrite app_nil_r, set_data_same.
  - rewrite IH, insert_wire. unfold set_data. cbn. now rewrite app_assoc.
Qed.

End Appending.

End AppendingFacts.


(** ** Extraction at the cursor *)

Module CursorFacts.
Import MachineIntFacts MemFacts PacketFacts ValidityFacts AppendingFacts.
Import PacketStream.

Lemma checkSize_at n p :
  m_isValid p = true -> 0 <= m_readPos p -> 0 <= n ->
  m_readPos p + n <= data_size p -> data_size p < 2 ^ 64 ->
  checkSize n p = (true, p).
Proof.
  intros Hv Hr Hn Hle Hsz. unfold checkSize, size_t_add, size_t_bits.
  rewrite uwrap_small by lia. rewrite Hv. cbn [andb].
  destruct (Z.leb_spec (m_readPos p + n) (data_size p)); [|lia].
  destruct (Z.ltb_spec (m_readPos p + n) (m_readPos p)); [lia|].
  cbn [andb negb]. now rewrite <- Hv, set_isValid_same.
Qed.

Lemma advance_at n p :
  0 <= m_readPos p -> 0 <= n -> m_readPos p + n < 2 ^ 64 ->
  advance n p = set_readPos (m_readPos p + n) p.
Proof.
  intros. unfold advance, size_t_add, size_t_bits. now rewrite uwrap_small by lia.
Qed.

Lemma set_readPos_twice a b p : set_readPos a (set_readPos b p) = set_readPos a p.
Proof. reflexivity. Qed.

Lemma bytes_at pre bs post p :
  m_data p = pre ++ bs ++ post -> Z.of_nat (length pre) = m_readPos p ->
  bytes_at_readPos (length bs) p = bs.
Proof.
  intros Hd Hr. unfold bytes_at_readPos. rewrite Hd, <- Hr, Nat2Z.id.
  rewrite skipn_app, skipn_all, Nat.sub_diag. cbn [app skipn].
  rewrite firstn_app, firstn_all, Nat.sub_diag. cbn [firstn]. apply app_nil_r.
Qed.

Lemma data_size_app pre bs post p :
  m_data p = pre ++ bs ++ post ->
  data_size p = Z.of_nat (length pre) + Z.of_nat (length bs) + Z.of_nat (length post).
Proof. intros Hd. unfold data_size. rewrite Hd, !length_app. lia. Qed.

(** A guarded read with its bytes at the cursor succeeds, decodes them and
    moves the cursor past them. *)
Lemma guarded_at {A : Type} n (f : list byte -> A) p data pre bs post :
  m_isValid p = true -> m_data p = pre ++ bs ++ post ->
  Z.of_nat (length pre) = m_readPos p -> Z.of_nat (length bs) = n ->
  data_size p < 2 ^ 64 ->
  guarded n f p data = (set_readPos (m_readPos p + n) p, f bs).
Proof.
  intros Hv Hd Hr Hn Hsz. unfold guarded.
  pose proof (data_size_app _ _ _ _ Hd) as Hs.
  rewrite checkSize_at by (first [assumption | lia]).
  rewrite advance_at by lia.
  replace (Z.to_nat n) with (length bs) by lia.
  now rewrite (bytes_at pre bs post).
Qed.

Lemma guarded_on_snd {A B : Type} (c : A -> B) n f p data :
  on_snd c (guarded n f p data) = guarded n (fun bs => c (f bs)) p (c data).
Proof.
  unfold guarded, on_snd. destruct (checkSize n p) as [[] p1]; reflexivity.
Qed.

Section Cursor.
Variable host : Endian.

(** Every scalar extraction is one size check followed by a decoding of
    the bytes at the cursor. *)
Lemma extract_scalar_guarded out p :
  0 < scalar_size out ->
  extract host out p = guarded (scalar_size out) (scalar_decoder host out) p out.
Proof.
  destruct out; cbn [scalar_size]; intros Hs; try lia; cbn [extract];
    unfold extract_bool, extract_int8, extract_uint8, extract_int16, extract_uint16,
      extract_int32, extract_uint32, extract_int64, extract_uint64, extract_float,
      extract_double, guarded, on_snd;
    try (destruct (checkSize _ p) as [[] p1]; reflexivity).
  pose proof (checkSize_result 1 p) as Hr.
  destruct (checkSize 1 p) as [ok p1]. cbn [fst snd] in Hr. subst ok.
  unfold to_bool.
  destruct (m_isValid p1) eqn:E; cbn [fst snd]; rewrite ?advance_isValid, ?E; reflexivity.
Qed.

Lemma wire_scalar_length v :
  0 < scalar_size v -> Z.of_nat (length (wire host v)) = scalar_size v.
Proof.
  destruct v; cbn [scalar_size]; intros Hs; try lia; unfold wire; cbn [insert];
    unfold insert_bool, insert_int8, insert_uint8, insert_int16, insert_uint16,
      insert_int32, insert_uint32, insert_int64, insert_uint64, insert_float,
      insert_double, append;
    cbn [m_data set_data empty app Z.ltb Z.compare Z.of_nat length to_write64 Pos.of_succ_nat Pos.succ];
    rewrite ?length_firstn, ?obj_repr_length; reflexivity.
Qed.

Lemma insert_empty v : insert host v empty = mkPacket (wire host v) 0 0 true.
Proof. rewrite insert_wire. reflexivity. Qed.

(** The decoder undoes the encoding of a value in the range of its type. *)
Lemma scalar_decoder_wire v out :
  scalar_value v -> same_type v out -> scalar_decoder host out (wire host v) = v.
Proof.
  intros Hv Hs.
  assert (Hsz : 0 < scalar_size out)
    by (destruct v; cbn in Hv; try contradiction;
        destruct out; cbn in Hs; try contradiction; reflexivity).
  assert (Hlen : Z.of_nat (length (wire host v)) = scalar_size out).
  { rewrite wire_scalar_length;
      destruct v; cbn in Hv; try contradiction;
        destruct out; cbn in Hs; try contradiction; reflexivity. }
  assert (E : extract host out (insert host v empty)
              = (set_readPos (0 + scalar_size out) (insert host v empty),
                 scalar_decoder host out (wire host v))).
  { rewrite extract_scalar_guarded by exact Hsz.
    rewrite insert_empty.
    rewrite (guarded_at _ _ _ _ [] (wire host v) []);
      cbn [m_readPos m_data m_isValid app length Z.of_nat];
      rewrite ?app_nil_r; try reflexivity; try lia.
    unfold data_size. cbn [m_data]. rewrite Hlen.
    destruct out; cbn [scalar_size] in *; lia. }
  apply (f_equal snd) in E. cbn [snd] in E. rewrite <- E.
  destruct v; cbn [scalar_value] in Hv; try contradiction;
    destruct out; cbn [same_type] in Hs; try contradiction;
    cbn [extract insert]; unfold on_snd.
  - now rewrite round_trip_bool.
  - now rewrite round_trip_int8.
  - now rewrite round_trip_uint8.
  - now rewrite round_trip_int16.
  - now rewrite round_trip_uint16.
  - now rewrite round_trip_int32.
  - now rewrite round_trip_uint32.
  - now rewrite round_trip_int64.
  - now rewrite round_trip_uint64.
  - now rewrite round_trip_float.
  - now rewrite round_trip_double.
Qed.

(** A scalar extraction whose cursor stands on the encoding of [v]. *)
Lemma extract_scalar_at v out p pre post :
  scalar_value v -> same_type v out ->
  m_isValid p = true -> m_data p = pre ++ wire host v ++ post ->
  Z.of_nat (length pre) = m_readPos p -> data_size p < 2 ^ 64 ->
  extract host out p
  = (set_readPos (m_readPos p + Z.of_nat (length (wire host v))) p, v).
Proof.
  intros Hv Hs Hval Hd Hr Hsz.
  assert (Hk : 0 < scalar_size out /\ scalar_size v = scalar_size out)
    by (destruct v; cbn in Hv; try contradiction;
        destruct out; cbn in Hs; try contradiction; split; reflexivity).
  destruct Hk as [Hpos Hsame].
  rewrite extract_scalar_guarded by exact Hpos.
  rewrite (guarded_at _ _ _ _ pre (wire host v) post); try assumption.
  - rewrite scalar_decoder_wire by assumption.
    now rewrite wire_scalar_length, Hsame by lia.
  - rewrite wire_scalar_length; lia.
Qed.

Lemma extract_uint32_at n p pre post :
  in_unsigned 32 n ->
  m_isValid p = true -> m_data p = pre ++ wire host (VUInt32 n) ++ post ->
  Z.of_nat (length pre) = m_readPos p -> data_size p < 2 ^ 64 ->
  extract_uint32 host p 0 = (set_readPos (m_readPos p + 4) p, n).
Proof.
  intros Hn Hv Hd Hr Hsz.
  pose proof (extract_scalar_at (VUInt32 n) (VUInt32 0) p pre post Hn I Hv Hd Hr Hsz) as E.
  rewrite (wire_scalar_length (VUInt32 n)) in E by reflexivity.
  cbn [extract scalar_size] in E. unfold on_snd in E.
  destruct (extract_uint32 host p 0) as [p1 c]. cbn [fst snd] in E.
  now injection E as -> ->.
Qed.

Lemma wire_uint32_length n : length (wire host (VUInt32 n)) = 4%nat.
Proof.
  pose proof (wire_scalar_length (VUInt32 n) ltac:(reflexivity)) as H.
  cbn [scalar_size] in H. lia.
Qed.

(** The count of a string that fits 32 bits is its length. *)
Lemma count_small {A : Type} (s : list A) :
  Z.of_nat (length s) < 2 ^ 32 -> uwrap 32 (Z.of_nat (length s)) = Z.of_nat (length s).
Proof. intros. apply uwrap_small. lia. Qed.

Lemma wire_string s :
  Z.of_nat (length s) < 2 ^ 32 ->
  wire host (VString s) = wire host (VUInt32 (Z.of_nat (length s))) ++ s.
Proof.
  intros Hl. unfold wire at 1. cbn [insert]. unfold insert_string.
  rewrite count_small by exact Hl.
  destruct (Z.ltb_spec 0 (Z.of_nat (length s))) as [Hpos | Hzero].
  - rewrite (appends_append _ _ (insert_uint32 host _ empty)).
    cbn [set_data m_data]. f_equal.
    unfold append, size_t_mul, size_t_bits. rewrite Z.mul_1_r, uwrap_small by lia.
    destruct (Z.ltb_spec 0 (Z.of_nat (length s))); [|lia].
    cbn [set_data m_data empty app]. now rewrite Nat2Z.id, firstn_all.
  - destruct s; [|cbn [length] in Hzero; lia]. now rewrite app_nil_r.
Qed.

Lemma insert_chars_data data : forall p,
  m_data (insert_chars host data p)
  = m_data p ++ concat (map (fun c => wire host (VUInt32 (uwrap 32 c))) data).
Proof.
  unfold insert_chars. induction data as [|c tl IH]; intros p; cbn [fold_left map concat].
  - now rewrite app_nil_r.
  - rewrite IH. rewrite (appends_insert_uint32 host _ p). cbn [set_data m_data].
    now rewrite <- app_assoc.
Qed.

Lemma wire_counted_chars (s : list Z) :
  Z.of_nat (length s) < 2 ^ 32 ->
  m_data (let p1 := insert_uint32 host (uwrap 32 (Z.of_nat (length s))) empty in
          if 0 <? uwrap 32 (Z.of_nat (length s)) then insert_chars host s p1 else p1)
  = wire host (VUInt32 (Z.of_nat (length s)))
    ++ concat (map (fun c => wire host (VUInt32 (uwrap 32 c))) s).
Proof.
  intros Hl. cbv zeta. rewrite count_small by exact Hl.
  destruct (Z.ltb_spec 0 (Z.of_nat (length s))) as [Hpos | Hzero].
  - now rewrite insert_chars_data.
  - destruct s; [|cbn [length] in Hzero; lia]. cbn [map concat]. now rewrite app_nil_r.
Qed.

Lemma wire_wstring s :
  Z.of_nat (length s) < 2 ^ 32 ->
  wire host (VWString s)
  = wire host (VUInt32 (Z.of_nat (length s)))
    ++ concat (map (fun c => wire host (VUInt32 (uwrap 32 c))) s).
Proof. apply wire_counted_chars. Qed.

Lemma wire_u32string s :
  Z.of_nat (length s) < 2 ^ 32 ->
  wire host (VU32String s)
  = wire host (VUInt32 (Z.of_nat (length s)))
    ++ concat (map (fun c => wire host (VUInt32 (uwrap 32 c))) s).
Proof. apply wire_counted_chars. Qed.

Lemma length_chars_wire (s : list Z) :
  length (concat (map (fun c => wire host (VUInt32 (uwrap 32 c))) s)) = (4 * length s)%nat.
Proof.
  induction s as [|c tl IH]; cbn [map concat length]; [reflexivity|].
  rewrite length_app, IH, wire_uint32_length. lia.
Qed.

(** A byte string extracted with its encoding at the cursor. *)
Lemma extract_string_at s old p pre post :
  Z.of_nat (length s) < 2 ^ 32 ->
  m_isValid p = true -> m_data p = pre ++ wire host (VString s) ++ post ->
  Z.of_nat (length pre) = m_readPos p -> data_size p < 2 ^ 64 ->
  extract_string host p old
  = (set_readPos (m_readPos p + Z.of_nat (length (wire host (VString s)))) p, s).
Proof.
  intros Hl Hv Hd Hr Hsz. rewrite wire_string in * by exact Hl.
  rewrite <- app_assoc in Hd.
  unfold extract_string.
  rewrite (extract_uint32_at (Z.of_nat (length s)) p pre (s ++ post))
    by (first [assumption | unfold in_unsigned; lia]).
  rewrite length_app, wire_uint32_length.
  pose proof (data_size_app _ _ _ _ Hd) as Hs. rewrite wire_uint32_length in Hs.
  rewrite length_app in Hs.
  destruct (Z.ltb_spec 0 (Z.of_nat (length s))) as [Hpos | Hzero].
  - set (p1 := set_readPos (m_readPos p + 4) p).
    assert (Hd1 : m_data p1 = (pre ++ wire host (VUInt32 (Z.of_nat (length s)))) ++ s ++ post)
      by (subst p1; cbn [set_readPos m_data]; rewrite Hd, <- app_assoc; reflexivity).
    assert (Hr1 : Z.of_nat (length (pre ++ wire host (VUInt32 (Z.of_nat (length s)))))
                  = m_readPos p1)
      by (subst p1; cbn [set_readPos m_readPos]; rewrite length_app, wire_uint32_length; lia).
    assert (Hck : checkSize (Z.of_nat (length s)) p1 = (true, p1)).
    { apply checkSize_at; subst p1; unfold data_size in *;
        cbn [set_readPos m_readPos m_isValid m_data]; try assumption; lia. }
    rewrite Hck.
    rewrite advance_at by (subst p1; cbn [set_readPos m_readPos]; unfold data_size in *; lia).
    rewrite Nat2Z.id, (bytes_at _ s post _ Hd1 Hr1). subst p1.
    unfold set_readPos. cbn [m_readPos m_data m_sendPos m_isValid].
    do 2 f_equal. lia.
  - destruct s; [|cbn [length] in Hzero; lia]. cbn [length Z.of_nat Nat.add].
    reflexivity.
Qed.

(** The character loop with the encodings of [s] at the cursor. *)
Lemma extract_chars_at castC : forall s acc p pre post,
  Forall (fun c => castC (uwrap 32 c) = c) s ->
  m_isValid p = true ->
  m_data p = pre ++ concat (map (fun c => wire host (VUInt32 (uwrap 32 c))) s) ++ post ->
  Z.of_nat (length pre) = m_readPos p -> data_size p < 2 ^ 64 ->
  extract_chars host castC (length s) p acc
  = (set_readPos (m_readPos p + 4 * Z.of_nat (length s)) p, acc ++ s).
Proof.
  induction s as [|c tl IH]; intros acc p pre post Hc Hv Hd Hr Hsz;
    cbn [length extract_chars].
  - rewrite app_nil_r. cbn. rewrite Z.add_0_r. now destruct p.
  - inversion Hc as [|? ? Hc1 Hc2]; subst.
    cbn [map concat] in Hd. rewrite <- app_assoc in Hd.
    assert (Hin : in_unsigned 32 (uwrap 32 c)) by (apply uwrap_range; lia).
    rewrite (extract_uint32_at (uwrap 32 c) p pre _ Hin Hv Hd Hr Hsz).
    rewrite Hc1.
    rewrite (IH (acc ++ [c]) _ (pre ++ wire host (VUInt32 (uwrap 32 c))) post);
      cbn [set_readPos m_readPos m_data m_isValid m_sendPos];
      try assumption.
    + rewrite set_readPos_twice, <- app_assoc. cbn [app]. f_equal. f_equal. lia.
    + rewrite Hd, <- app_assoc. reflexivity.
    + rewrite length_app, wire_uint32_length. lia.
Qed.

(** A wide string extracted with its encoding at the cursor. *)
Lemma extract_wide_at castC s p pre post :
  Z.of_nat (length s) < 2 ^ 32 ->
  Forall (fun c => castC (uwrap 32 c) = c) s ->
  m_isValid p = true ->
  m_data p = pre ++ (wire host (VUInt32 (Z.of_nat (length s)))
                     ++ concat (map (fun c => wire host (VUInt32 (uwrap 32 c))) s)) ++ post ->
  Z.of_nat (length pre) = m_readPos p -> data_size p < 2 ^ 64 ->
  (let (p1, length) := extract_uint32 host p 0 in
   if 0 <? length then
     let (ok, p2) := checkSize (size_t_mul length 4) p1 in
     if ok then extract_chars host castC (Z.to_nat length) p2 []
     else (p2, [])
   else (p1, []))
  = (set_readPos (m_readPos p + 4 + 4 * Z.of_nat (length s)) p, s).
Proof.
  intros Hl Hc Hv Hd Hr Hsz. rewrite <- app_assoc in Hd.
  assert (Hin : in_unsigned 32 (Z.of_nat (length s))) by (unfold in_unsigned; lia).
  rewrite (extract_uint32_at (Z.of_nat (length s)) p pre _ Hin Hv Hd Hr Hsz).
  pose proof (data_size_app _ _ _ _ Hd) as Hs.
  rewrite wire_uint32_length, length_app, length_chars_wire in Hs.
  destruct (Z.ltb_spec 0 (Z.of_nat (length s))) as [Hpos | Hzero].
  - unfold size_t_mul, size_t_bits. rewrite uwrap_small by lia.
    assert (Hck : checkSize (Z.of_nat (length s) * 4) (set_readPos (m_readPos p + 4) p)
                  = (true, set_readPos (m_readPos p + 4) p)).
    { apply checkSize_at; unfold data_size in *;
        cbn [set_readPos m_readPos m_isValid m_data]; try assumption; lia. }
    rewrite Hck, Nat2Z.id.
    rewrite (extract_chars_at castC s [] _ (pre ++ wire host (VUInt32 (Z.of_nat (length s)))) post);
      cbn [set_readPos m_readPos m_data m_isValid m_sendPos app]; try assumption.
    + reflexivity.
    + rewrite Hd, <- app_assoc. reflexivity.
    + rewrite length_app, wire_uint32_length. lia.
  - destruct s; [|cbn [length] in Hzero; lia]. cbn [length Z.of_nat].
    f_equal. f_equal. lia.
Qed.

Lemma wchar_casts s :
  Forall (in_signed 32) s -> Forall (fun c => cast_wchar_t (uwrap 32 c) = c) s.
Proof.
  intros H. eapply Forall_impl; [|exact H]. intros c Hc.
  unfold cast_wchar_t. now apply swrap_of_uwrap_value.
Qed.

Lemma char32_casts s :
  Forall (in_unsigned 32) s -> Forall (fun c => cast_char32_t (uwrap 32 c) = c) s.
Proof.
  intros H. eapply Forall_impl; [|exact H]. intros c Hc.
  unfold cast_char32_t. rewrite uwrap_idem by lia. now apply uwrap_small.
Qed.

(** An extraction whose cursor stands on the encoding of a storable value
    of the type of the variable. *)
Lemma extract_at v out p pre post :
  storable v -> same_type v out ->
  m_isValid p = true -> m_data p = pre ++ wire host v ++ post ->
  Z.of_nat (length pre) = m_readPos p -> data_size p < 2 ^ 64 ->
  extract host out p
  = (set_readPos (m_readPos p + Z.of_nat (length (wire host v))) p, v).
Proof.
  intros Hst Hs Hv Hd Hr Hsz.
  destruct v; cbn [storable] in Hst; try contradiction;
    try (now apply (extract_scalar_at _ _ _ pre post));
    destruct out; cbn [same_type] in Hs; try contradiction;
    cbn [extract]; unfold on_snd.
  - rewrite (extract_string_at s s0 p pre post) by assumption. reflexivity.
  - destruct Hst as [Hl Hc]. rewrite wire_wstring in * by exact Hl.
    unfold extract_wstring.
    rewrite (extract_wide_at cast_wchar_t s p pre post); try assumption;
      [|now apply wchar_casts].
    cbn [fst snd]. rewrite length_app, wire_uint32_length, length_chars_wire.
    f_equal. f_equal. lia.
  - destruct Hst as [Hl Hc]. rewrite wire_u32string in * by exact Hl.
    unfold extract_u32string.
    rewrite (extract_wide_at cast_char32_t s p pre post); try assumption;
      [|now apply char32_casts].
    cbn [fst snd]. rewrite length_app, wire_uint32_length, length_chars_wire.
    f_equal. f_equal. lia.
Qed.

(** A chain of extractions over the encodings of storable values. *)
Lemma extract_all_at : forall vs outs p pre post,
  Forall (storable) vs -> Forall2 same_type vs outs ->
  m_isValid p = true -> m_data p = pre ++ concat (map (wire host) vs) ++ post ->
  Z.of_nat (length pre) = m_readPos p -> data_size p < 2 ^ 64 ->
  extract_all host outs p
  = (set_readPos (m_readPos p + Z.of_nat (length (concat (map (wire host) vs)))) p, vs).
Proof.
  induction vs as [|v tl IH]; intros outs p pre post Hst Hs Hv Hd Hr Hsz;
    inversion Hs as [|? out ? outs' Hs1 Hs2]; subst; cbn [extract_all map concat length].
  - rewrite Z.add_0_r. now destruct p.
  - inversion Hst as [|? ? Hst1 Hst2]; subst.
    cbn [map concat] in Hd. rewrite <- app_assoc in Hd.
    rewrite (extract_at v out p pre _ Hst1 Hs1 Hv Hd Hr Hsz).
    rewrite (IH outs' _ (pre ++ wire host v) post);
      cbn [set_readPos m_readPos m_data m_isValid m_sendPos]; try assumption.
    + rewrite set_readPos_twice, length_app. f_equal. f_equal. lia.
    + rewrite Hd, <- app_assoc. reflexivity.
    + rewrite length_app. lia.
Qed.

End Cursor.

End CursorFacts.


(** ** Packets as streams of values *)

Module StreamFacts.
Import MachineIntFacts MemFacts PacketFacts ValidityFacts AppendingFacts CursorFacts.
Import PacketStream.

(** X1. An insertion ([operator<<], any overload) only appends: the bytes
    already in the packet, the read position, the send position and the
    validity flag stay as they were, and the bytes added are the same
    whatever the packet held. *)
Theorem insertion_only_appends host v p :
  m_data (insert host v p) = m_data p ++ wire host v
  /\ m_readPos (insert host v p) = m_readPos p
  /\ m_sendPos (insert host v p) = m_sendPos p
  /\ m_isValid (insert host v p) = m_isValid p.
Proof.
  rewrite insert_wire. unfold set_data.
  cbn [m_data m_readPos m_sendPos m_isValid]. repeat split.
Qed.

(** X2. Values written one after the other are read back in the same
    order: for scalars in the range of their types and standard strings
    whose length fits the 32-bit count, [packet << v1 << ... << vn]
    followed by [packet >> out1 >> ... >> outn] into variables of the
    same types yields [v1 ... vn], leaves the packet valid and the read
    position at the end of the packet. *)
Theorem stream_round_trip host vs outs :
  Forall storable vs -> Forall2 same_type vs outs ->
  Z.of_nat (length (concat (map (wire host) vs))) < 2 ^ 64 ->
  snd (extract_all host outs (insert_all host vs empty)) = vs
  /\ m_isValid (fst (extract_all host outs (insert_all host vs empty))) = true
  /\ endOfPacket (fst (extract_all host outs (insert_all host vs empty))) = true.
Proof.
  intros Hst Hs Hsz.
  rewrite insert_all_wire. cbn [m_data empty app set_data m_readPos m_sendPos m_isValid].
  rewrite (extract_all_at host vs outs _ [] []); try assumption; try reflexivity.
  - cbn [fst snd set_readPos m_isValid m_data m_readPos m_sendPos]. repeat split.
    unfold endOfPacket, data_size, set_readPos, set_data, empty.
    cbn [m_data m_readPos]. apply Z.leb_le. lia.
  - cbn [m_data app]. now rewrite app_nil_r.
Qed.

(** X3. The bytes of every overload but [float] and [double] are the same
    on a little-endian and on a big-endian host. *)
Theorem wire_host_independent v :
  byte_order_normalized v -> wire Little v = wire Big v.
Proof.
  assert (H32 : forall n p, insert_uint32 Little n p = insert_uint32 Big n p).
  { intros n p. unfold insert_uint32. now rewrite !obj_repr_htonl. }
  assert (Hchars : forall s p, insert_chars Little s p = insert_chars Big s p).
  { unfold insert_chars. induction s as [|c tl IH]; intros p; cbn [fold_left];
      [reflexivity | now rewrite H32, IH]. }
  intros Hv. unfold wire. f_equal.
  destruct v; cbn [byte_order_normalized] in Hv; try contradiction; cbn [insert];
    unfold insert_bool, insert_int8, insert_uint8, insert_int16, insert_uint16,
      insert_int32, insert_cstr, insert_string, insert_wcstr, insert_wstring,
      insert_u32string;
    rewrite ?H32, ?Hchars, ?wire_int16, ?wire_int32, ?obj_repr_htons;
    reflexivity.
Qed.

(** X4. A [float] or [double] is copied as the host stores it: the bytes
    written on a big-endian host are those of a little-endian host in
    reverse order. *)
Theorem floating_point_bytes_follow_host bits :
  wire Big (VFloat bits) = rev (wire Little (VFloat bits))
  /\ wire Big (VDouble bits) = rev (wire Little (VDouble bits)).
Proof.
  unfold wire. cbn [insert]. unfold insert_float, insert_double, append.
  cbn [Z.ltb Z.compare set_data m_data empty app].
  rewrite !firstn_all2 by (rewrite obj_repr_length; cbn; lia).
  split; reflexivity.
Qed.

End StreamFacts.


(** ** Size checks and the read position *)

Module CheckFacts.
Import MachineIntFacts MemFacts PacketFacts ValidityFacts FailureFacts AppendingFacts CursorFacts.
Import PacketStream.

(** With sizes in the range of [std::size_t], the wrapped sum and the
    overflow test of [checkSize] decide the comparison of the true sum. *)
Lemma checkSize_decides n p :
  0 <= m_readPos p < 2 ^ 64 -> 0 <= n < 2 ^ 64 -> data_size p < 2 ^ 64 ->
  checkSize n p
  = (m_isValid p && (m_readPos p + n <=? data_size p),
     set_isValid (m_isValid p && (m_readPos p + n <=? data_size p)) p).
Proof.
  intros Hr Hn Hsz. unfold checkSize, size_t_add, size_t_bits.
  assert (E : (uwrap 64 (m_readPos p + n) <=? data_size p)
              && negb (uwrap 64 (m_readPos p + n) <? m_readPos p)
              = (m_readPos p + n <=? data_size p)).
  { destruct (uwrap64_cases (m_readPos p + n) ltac:(lia)) as [[Hlt ->] | [Hge ->]].
    - destruct (Z.ltb_spec (m_readPos p + n) (m_readPos p)); [lia|].
      now rewrite andb_true_r.
    - destruct (Z.ltb_spec (m_readPos p + n - 2 ^ 64) (m_readPos p)); [|lia].
      rewrite andb_false_r. symmetry. apply Z.leb_gt. lia. }
  rewrite <- !andb_assoc, E. reflexivity.
Qed.

(** X5. For a read position, a requested size and a buffer size in the
    range of [std::size_t], [checkSize] succeeds exactly when the packet
    is valid and position plus size, computed without wrap-around, is at
    most the buffer size: the overflow test makes the wrapped arithmetic
    exact. *)
Theorem checkSize_exact n p :
  0 <= m_readPos p < 2 ^ 64 -> 0 <= n < 2 ^ 64 -> data_size p < 2 ^ 64 ->
  fst (checkSize n p) = m_isValid p && (m_readPos p + n <=? data_size p)
  /\ m_isValid (snd (checkSize n p)) = fst (checkSize n p)
  /\ m_readPos (snd (checkSize n p)) = m_readPos p
  /\ m_data (snd (checkSize n p)) = m_data p.
Proof.
  intros Hr Hn Hsz. rewrite checkSize_decides by assumption.
  cbn [fst snd set_isValid m_isValid m_readPos m_data]. repeat split.
Qed.

Section Outcome.
Variable host : Endian.

(** X6. A scalar extraction either succeeds, and then moves the read
    position forward by exactly [sizeof(T)] and decodes the bytes that
    were at the cursor, or fails, and then changes nothing but the
    validity flag: buffer, read position and the caller's variable are
    as before. *)
Theorem scalar_extraction_outcome out p :
  0 < scalar_size out ->
  0 <= m_readPos p < 2 ^ 64 -> data_size p < 2 ^ 64 ->
  extract host out p
  = if m_isValid p && (m_readPos p + scalar_size out <=? data_size p)
    then (set_readPos (m_readPos p + scalar_size out) p,
          scalar_decoder host out (bytes_at_readPos (Z.to_nat (scalar_size out)) p))
    else (set_isValid false p, out).
Proof.
  intros Hs Hr Hsz.
  assert (Hn : 0 <= scalar_size out < 2 ^ 64) by (destruct out; cbn in *; lia).
  rewrite extract_scalar_guarded by exact Hs. unfold guarded.
  rewrite checkSize_decides by assumption.
  destruct (m_isValid p) eqn:Hv; cbn [andb]; [|reflexivity].
  destruct (Z.leb_spec (m_readPos p + scalar_size out) (data_size p)); [|reflexivity].
  rewrite <- Hv, set_isValid_same.
  now rewrite advance_at by lia.
Qed.

End Outcome.

End CheckFacts.


(** ** The read position never leaves the buffer *)

Module PositionFacts.
Import MachineIntFacts MemFacts PacketFacts ValidityFacts FailureFacts AppendingFacts CursorFacts.
Import PacketStream.

Lemma reads_refl p : reads p p.
Proof. unfold reads, cursor_ok. repeat split; lia. Qed.

Lemma reads_trans p q r : reads p q -> reads q r -> reads p r.
Proof.
  unfold reads, cursor_ok, data_size.
  intros (Hd1 & Hs1 & H1) (Hd2 & Hs2 & H2).
  split; [congruence|]. split; [congruence|].
  intros Hp. specialize (H1 Hp). rewrite Hd1 in H2. lia.
Qed.

(** A size check, with the move of the cursor when it passes. *)
Lemma reads_guarded {A : Type} n (f : list byte -> A) p data :
  reads p (fst (guarded n f p data)).
Proof.
  unfold guarded, checkSize.
  destruct (m_isValid p && (size_t_add (m_readPos p) n <=? data_size p)
            && negb (size_t_add (m_readPos p) n <? m_readPos p)) eqn:E;
    cbn [fst]; unfold reads, cursor_ok;
    cbn [advance set_readPos set_isValid m_data m_readPos m_sendPos];
    repeat split; lia.
Qed.

Lemma fst_guarded_any {A B : Type} n (f : list byte -> A) (g : list byte -> B) p a b :
  fst (guarded n f p a) = fst (guarded n g p b).
Proof. unfold guarded. destruct (checkSize n p) as [[] p1]; reflexivity. Qed.

Section Position.
Variable host : Endian.

Lemma reads_extract_uint32 p data : reads p (fst (extract_uint32 host p data)).
Proof.
  change (extract_uint32 host p data)
    with (guarded 4 (fun bs => ntohl host (obj_value host bs)) p data).
  apply reads_guarded.
Qed.

Lemma reads_extract_chars castC n : forall p data,
  reads p (fst (extract_chars host castC n p data)).
Proof.
  induction n as [|n IH]; intros p data; cbn [extract_chars]; [apply reads_refl|].
  pose proof (reads_extract_uint32 p 0) as H1.
  destruct (extract_uint32 host p 0) as [p1 c]. cbn [fst] in H1.
  eapply reads_trans; [exact H1 | apply IH].
Qed.

Lemma reads_extract_chars_into castC n : forall i p data,
  reads p (fst (extract_chars_into host castC n i p data)).
Proof.
  induction n as [|n IH]; intros i p data; cbn [extract_chars_into]; [apply reads_refl|].
  pose proof (reads_extract_uint32 p 0) as H1.
  destruct (extract_uint32 host p 0) as [p1 c]. cbn [fst] in H1.
  eapply reads_trans; [exact H1 | apply IH].
Qed.

(** The byte strings: the count, then a guarded read of the bytes. *)
Lemma reads_counted_bytes {A : Type} p (k : Packet -> Z -> A) (d : Packet -> A) (e : A) :
  reads p (fst (let (p1, length) := extract_uint32 host p 0 in
                if 0 <? length then
                  let (ok, p2) := checkSize length p1 in
                  if ok then (advance length p2, k p2 length) else (p2, d p2)
                else (p1, e))).
Proof.
  pose proof (reads_extract_uint32 p 0) as H1.
  destruct (extract_uint32 host p 0) as [p1 length]. cbn [fst] in H1.
  destruct (0 <? length); [|exact H1].
  eapply reads_trans; [exact H1|].
  pose proof (reads_guarded length (fun _ => tt) p1 tt) as H2.
  unfold guarded in H2.
  destruct (checkSize length p1) as [[] p2]; exact H2.
Qed.

(** The wide strings: the count, a size check, then the character loop. *)
Lemma reads_counted_chars {A : Type} p (loop : Packet -> Z -> Packet * A) (e : Packet -> A) :
  (forall q n, reads q (fst (loop q n))) ->
  reads p (fst (let (p1, length) := extract_uint32 host p 0 in
                if 0 <? length then
                  let (ok, p2) := checkSize (size_t_mul length 4) p1 in
                  if ok then loop p2 length else (p2, e p2)
                else (p1, e p1))).
Proof.
  intros Hloop.
  pose proof (reads_extract_uint32 p 0) as H1.
  destruct (extract_uint32 host p 0) as [p1 length]. cbn [fst] in H1.
  destruct (0 <? length); [|exact H1].
  eapply reads_trans; [exact H1|].
  assert (H2 : reads p1 (snd (checkSize (size_t_mul length 4) p1)))
    by (unfold checkSize, reads, cursor_ok; cbn; repeat split; lia).
  destruct (checkSize (size_t_mul length 4) p1) as [[] p2]; cbn [snd] in H2.
  - eapply reads_trans; [exact H2 | apply Hloop].
  - exact H2.
Qed.

(** Every extraction leaves the buffer and the send position alone and
    moves the read position forward, inside the buffer. *)
Lemma reads_extract out p : reads p (fst (extract host out p)).
Proof.
  destruct (Z_lt_le_dec 0 (scalar_size out)) as [Hs | Hs].
  - rewrite extract_scalar_guarded by exact Hs. apply reads_guarded.
  - destruct out; cbn [scalar_size] in Hs; try lia; cbn [extract on_snd fst].
    + apply (reads_counted_bytes p
               (fun p2 length => store_at (Z.to_nat length) x00
                                   (overwrite (bytes_at_readPos (Z.to_nat length) p2) buf))
               (fun _ => buf) buf).
    + apply (reads_counted_bytes p
               (fun p2 length => bytes_at_readPos (Z.to_nat length) p2)
               (fun _ => []) []).
    + unfold extract_wcstr.
      pose proof (reads_counted_chars p
                    (fun q n => let (p3, data1) :=
                                  extract_chars_into host cast_wchar_t (Z.to_nat n) 0 q buf in
                                (p3, store_at (Z.to_nat n) 0 data1))
                    (fun _ => buf)) as H.
      cbv beta in H. apply H. intros q n.
      pose proof (reads_extract_chars_into cast_wchar_t (Z.to_nat n) 0%nat q buf) as H3.
      destruct (extract_chars_into host cast_wchar_t (Z.to_nat n) 0 q buf). exact H3.
    + apply (reads_counted_chars p
               (fun q n => extract_chars host cast_wchar_t (Z.to_nat n) q [])
               (fun _ => [])).
      intros q n. apply reads_extract_chars.
    + apply (reads_counted_chars p
               (fun q n => extract_chars host cast_char32_t (Z.to_nat n) q [])
               (fun _ => [])).
      intros q n. apply reads_extract_chars.
Qed.

End Position.

(** X7. Whatever sequence of extractions, insertions and appends is run
    on a packet whose read position is inside the buffer, the read
    position only moves forward and stays inside the buffer
    ([0 <= m_readPos <= m_data.size()]), the buffer only grows at its
    end, and the send position is never touched. *)
Theorem read_position_stays_inside host ops p :
  cursor_ok p ->
  cursor_ok (run_ops host ops p)
  /\ m_readPos p <= m_readPos (run_ops host ops p)
  /\ m_sendPos (run_ops host ops p) = m_sendPos p
  /\ exists added, m_data (run_ops host ops p) = m_data p ++ added.
Proof.
  unfold run_ops. revert p.
  induction ops as [|o tl IH]; intros p Hp; cbn [fold_left].
  - repeat split; try apply Hp; try lia. exists []. now rewrite app_nil_r.
  - assert (Hstep : cursor_ok (run_op host o p)
                    /\ m_readPos p <= m_readPos (run_op host o p)
                    /\ m_sendPos (run_op host o p) = m_sendPos p
                    /\ exists added, m_data (run_op host o p) = m_data p ++ added).
    { destruct o as [out | v | d n | d n]; cbn [run_op].
      - destruct (reads_extract host out p) as (Hd & Hs & Hr).
        specialize (Hr Hp). unfold cursor_ok, data_size in *. rewrite Hd.
        repeat split; try lia; try exact Hs. exists []. now rewrite app_nil_r.
      - rewrite insert_wire. unfold cursor_ok, data_size, set_data in *.
        cbn [m_data m_readPos m_sendPos]. rewrite length_app.
        repeat split; try lia. now exists (wire host v).
      - rewrite (appends_append d n p). unfold cursor_ok, data_size, set_data in *.
        cbn [m_data m_readPos m_sendPos]. rewrite length_app.
        repeat split; try lia. now eexists.
      - unfold onReceive. rewrite (appends_append d n p).
        unfold cursor_ok, data_size, set_data in *.
        cbn [m_data m_readPos m_sendPos]. rewrite length_app.
        repeat split; try lia. now eexists. }
    destruct Hstep as (Hc & Hr & Hs & added1 & Hd).
    destruct (IH _ Hc) as (Hc' & Hr' & Hs' & added2 & Hd').
    repeat split; try apply Hc'; try lia; try congruence.
    exists (added1 ++ added2). now rewrite Hd', Hd, app_assoc.
Qed.

End PositionFacts.


(** ** C strings and booleans *)

Module TextFacts.
Import MachineIntFacts MemFacts PacketFacts ValidityFacts AppendingFacts CursorFacts.
Import PacketStream.

Lemma overwrite_fits {A : Type} (src dst : list A) :
  (length src <= length dst)%nat -> overwrite src dst = src ++ skipn (length src) dst.
Proof.
  intros H. unfold overwrite. apply firstn_all2.
  rewrite length_app, length_skipn. lia.
Qed.

Lemma store_at_app {A : Type} (x : A) : forall pre old rest,
  store_at (length pre) x (pre ++ old :: rest) = pre ++ x :: rest.
Proof.
  induction pre as [|h tl IH]; intros old rest; cbn [length app store_at];
    [reflexivity | now rewrite IH].
Qed.

Lemma skipn_cons_nth {A : Type} : forall n (l : list A),
  (n < length l)%nat -> exists y, skipn n l = y :: skipn (S n) l.
Proof.
  induction n as [|n IH]; intros l H; destruct l as [|h tl]; cbn [length] in H; try lia.
  - now exists h.
  - destruct (IH tl ltac:(lia)) as [y Hy]. exists y. exact Hy.
Qed.

Section Text.
Variable host : Endian.

Lemma wire_cstr s :
  Z.of_nat (length s) < 2 ^ 32 ->
  insert_cstr host s empty
  = mkPacket (wire host (VUInt32 (Z.of_nat (length s))) ++ s) 0 0 true.
Proof.
  intros Hl. unfold insert_cstr. rewrite count_small by exact Hl.
  rewrite (appends_append _ _ (insert_uint32 host _ empty)).
  change (insert_uint32 host (Z.of_nat (length s)) empty)
    with (insert host (VUInt32 (Z.of_nat (length s))) empty).
  rewrite insert_empty. unfold set_data. cbn [m_data m_readPos m_sendPos m_isValid].
  do 2 f_equal. unfold append, size_t_mul, size_t_bits.
  rewrite Z.mul_1_r, uwrap_small by lia.
  destruct (Z.ltb_spec 0 (Z.of_nat (length s))) as [Hpos | Hzero].
  - cbn [set_data m_data empty app]. now rewrite Nat2Z.id, firstn_all.
  - destruct s; [reflexivity | cbn [length] in Hzero; lia].
Qed.

(** X8. A C string written with [operator<<] for [const char*] and read
    back with [operator>>] for [char*] into a buffer with room for it
    and its terminator: a nonempty string lands at the start of the
    buffer, followed by a NUL, and the rest of the buffer is untouched;
    an empty string leaves the whole buffer untouched, so that no
    terminator is written. *)
Theorem cstr_round_trip s buf :
  Z.of_nat (length s) < 2 ^ 32 -> (length s < length buf)%nat ->
  snd (extract_cstr host (insert_cstr host s empty) buf)
  = match s with
    | [] => buf
    | _ => s ++ x00 :: skipn (S (length s)) buf
    end
  /\ m_isValid (fst (extract_cstr host (insert_cstr host s empty) buf)) = true.
Proof.
  intros Hl Hb. rewrite wire_cstr by exact Hl.
  set (p := mkPacket (wire host (VUInt32 (Z.of_nat (length s))) ++ s) 0 0 true).
  assert (Hin : in_unsigned 32 (Z.of_nat (length s))) by (unfold in_unsigned; lia).
  assert (Hd : m_data p = [] ++ wire host (VUInt32 (Z.of_nat (length s))) ++ s)
    by reflexivity.
  assert (Hsz : data_size p < 2 ^ 64).
  { unfold data_size. subst p. cbn [m_data]. rewrite length_app, wire_uint32_length. lia. }
  unfold extract_cstr.
  rewrite (extract_uint32_at host (Z.of_nat (length s)) p [] s Hin eq_refl Hd eq_refl Hsz).
  destruct (Z.ltb_spec 0 (Z.of_nat (length s))) as [Hpos | Hzero].
  - set (p1 := set_readPos (m_readPos p + 4) p).
    assert (Hd1 : m_data p1 = wire host (VUInt32 (Z.of_nat (length s))) ++ s ++ [])
      by (subst p1 p; cbn [set_readPos m_data]; now rewrite app_nil_r).
    assert (Hr1 : Z.of_nat (length (wire host (VUInt32 (Z.of_nat (length s))))) = m_readPos p1)
      by (subst p1 p; cbn [set_readPos m_readPos]; rewrite wire_uint32_length; reflexivity).
    assert (Hck : checkSize (Z.of_nat (length s)) p1 = (true, p1)).
    { apply checkSize_at; subst p1 p; unfold data_size in *;
        cbn [set_readPos m_readPos m_isValid m_data] in *; try reflexivity; try lia.
      rewrite length_app, wire_uint32_length. lia. }
    rewrite Hck, Nat2Z.id, (bytes_at _ s [] _ Hd1 Hr1).
    cbn [fst snd]. split; [|reflexivity].
    rewrite overwrite_fits by lia.
    destruct (skipn_cons_nth (length s) buf Hb) as [y ->].
    rewrite store_at_app.
    destruct s; [cbn [length] in Hpos; lia | reflexivity].
  - destruct s; [|cbn [length] in Hzero; lia]. split; reflexivity.
Qed.

Lemma obj_value_byte b : obj_value host [b] = Z_of_byte b.
Proof. unfold obj_value; destruct host; cbn [rev app from_le]; lia. Qed.

(** X9. [operator>>] for [bool] takes any nonzero byte for [true]: with
    the byte [b] at the cursor of a valid packet, the variable becomes
    [b != 0] and the cursor moves by one. *)
Theorem bool_reads_any_nonzero p old b pre post :
  m_isValid p = true -> m_data p = pre ++ b :: post ->
  Z.of_nat (length pre) = m_readPos p -> data_size p < 2 ^ 64 ->
  extract_bool host p old = (set_readPos (m_readPos p + 1) p, negb (Z_of_byte b =? 0)).
Proof.
  intros Hv Hd Hr Hsz.
  pose proof (extract_scalar_guarded host (VBool old) p ltac:(reflexivity)) as E.
  rewrite (guarded_at _ _ _ _ pre [b] post) in E; try assumption; try reflexivity.
  cbn [extract scalar_size scalar_decoder] in E. unfold on_snd in E.
  rewrite obj_value_byte in E.
  destruct (extract_bool host p old) as [p1 v]. cbn [fst snd] in E.
  now injection E as -> ->.
Qed.

End Text.

End TextFacts.


(** ** Addresses as integers, and their order *)

Module AddressFacts.
Import MachineIntFacts MemFacts PacketFacts IpAddressFacts.
Import IpAddress AddressOrder.

Section Host.
Variable host : Endian.

Lemma htonl_involutive x : in_unsigned 32 x -> htonl host (htonl host x) = x.
Proof.
  intros Hx. unfold htonl, bswap; destruct host.
  - rewrite (le_bytes_from_le_n 4) by (now rewrite length_rev, le_bytes_length).
    rewrite rev_involutive, from_le_le_bytes. now apply Z.mod_small.
  - rewrite uwrap_idem by lia. now apply uwrap_small.
Qed.

Lemma htons_involutive x : in_unsigned 16 x -> htons host (htons host x) = x.
Proof.
  intros Hx. unfold htons, bswap; destruct host.
  - rewrite (le_bytes_from_le_n 2) by (now rewrite length_rev, le_bytes_length).
    rewrite rev_involutive, from_le_le_bytes. now apply Z.mod_small.
  - rewrite uwrap_idem by lia. now apply uwrap_small.
Qed.

Lemma from_le_four_range b0 b1 b2 b3 : in_unsigned 32 (from_le [b3; b2; b1; b0]).
Proof. exact (from_le_range [b3; b2; b1; b0]). Qed.

End Host.

(** X10. The integer form of an address round-trips on either host:
    [IpAddress(x).toInteger()] is [x] for every 32-bit [x], and
    [IpAddress(a.toInteger())] is [a] for every valid address [a]. *)
Theorem address_integer_round_trip host x a :
  in_unsigned 32 x -> well_formed a -> m_valid a = true ->
  toInteger host (of_integer host x) = x
  /\ of_integer host (toInteger host a) = a.
Proof.
  intros Hx Ha Hv. unfold toInteger, of_integer, ntohl. cbn [m_address]. split.
  - now apply htonl_involutive.
  - rewrite htonl_involutive by exact Ha. destruct a; cbn in *; now subst.
Qed.

(** X11. The integer of the address built from four bytes is
    [b0 * 2^24 + b1 * 2^16 + b2 * 2^8 + b3] on either host, and the
    address object is well formed. *)
Theorem toInteger_of_bytes host b0 b1 b2 b3 :
  toInteger host (of_bytes host b0 b1 b2 b3)
  = Z_of_byte b0 * 2 ^ 24 + Z_of_byte b1 * 2 ^ 16 + Z_of_byte b2 * 2 ^ 8 + Z_of_byte b3
  /\ well_formed (of_bytes host b0 b1 b2 b3).
Proof.
  unfold toInteger, well_formed, of_bytes, ntohl. cbn [m_address].
  rewrite of_bytes_integer. split.
  - rewrite htonl_involutive by apply from_le_four_range. cbn [from_le]. ring.
  - apply htonl_range.
Qed.

(** X12. The address built from a 32-bit integer prints as its four
    bytes, most significant first, on either host. *)
Theorem toString_of_integer host x :
  toString host (of_integer host x)
  = dotted_decimal (byte_of_Z (x / 2 ^ 24)) (byte_of_Z (x / 2 ^ 16))
                   (byte_of_Z (x / 2 ^ 8)) (byte_of_Z x).
Proof.
  unfold toString, of_integer. cbn [m_address].
  rewrite obj_repr_htonl. cbn [le_bytes rev app inet_ntop].
  rewrite !Z.div_div by lia. reflexivity.
Qed.

(** X13. [operator==] on addresses is equality of the two fields, and
    [operator!=] its negation. *)
Theorem address_eq_structural a b :
  (eq a b = true <-> a = b) /\ ne a b = negb (eq a b).
Proof.
  split; [|reflexivity]. unfold eq, lt, bool_lt.
  destruct a as [x vx], b as [y vy]; cbn [m_address m_valid].
  split.
  - intros H. destruct vx, vy; cbn in H;
      destruct (Z.ltb_spec x y), (Z.ltb_spec y x); cbn in H;
      try discriminate; f_equal; lia.
  - intros E. injection E as -> ->. rewrite Z.ltb_irrefl. now destruct vy.
Qed.

(** X14. [operator<] is a strict total order on addresses in which every
    invalid address comes before every valid one: for two addresses
    exactly one of [a < b], [a == b], [b < a] holds, and the other
    comparison operators follow from it. *)
Theorem address_order_trichotomy a b :
  (lt a b = true /\ eq a b = false /\ lt b a = false
   \/ lt a b = false /\ eq a b = true /\ lt b a = false
   \/ lt a b = false /\ eq a b = false /\ lt b a = true)
  /\ gt a b = lt b a
  /\ le a b = (lt a b || eq a b)
  /\ ge a b = (gt a b || eq a b)
  /\ (m_valid a = false -> m_valid b = true -> lt a b = true).
Proof.
  unfold gt, le, ge, eq, lt, bool_lt.
  destruct a as [x vx], b as [y vy]; cbn [m_address m_valid].
  destruct vx, vy; cbn [negb andb orb];
    destruct (Z.ltb_spec x y), (Z.ltb_spec y x); cbn [negb andb orb];
    repeat split; try lia; try tauto; try discriminate.
Qed.

(** X15. [operator<] on addresses is transitive. *)
Theorem address_order_transitive a b c :
  lt a b = true -> lt b c = true -> lt a c = true.
Proof.
  unfold lt, bool_lt.
  destruct a as [x vx], b as [y vy], c as [z vz]; cbn [m_address m_valid].
  destruct vx, vy, vz; cbn [negb andb orb];
    destruct (Z.ltb_spec x y), (Z.ltb_spec y z), (Z.ltb_spec x z);
    intros; try discriminate; try reflexivity; lia.
Qed.

(** X16. An address and a port go through [createAddress] unchanged: the
    [sockaddr_in] built for a send or a bind carries the stored
    network-order value of the address, and decoding that [sockaddr_in]
    the way [UdpSocket::receive] does gives back the address and the
    port. *)
Theorem address_survives_sockaddr host a port :
  well_formed a -> m_valid a = true -> in_unsigned 16 port ->
  SockAddr.sin_addr (SockAddr.target host a port) = m_address a
  /\ SockAddr.sender host (SockAddr.target host a port) = (a, port).
Proof.
  intros Ha Hv Hp.
  unfold SockAddr.target, SockAddr.createAddress, SockAddr.sender, toInteger, ntohl, ntohs,
    of_integer.
  cbn [SockAddr.sin_addr SockAddr.sin_port].
  rewrite !htonl_involutive by (first [exact Ha | apply htonl_range]).
  rewrite htons_involutive by exact Hp.
  split; [reflexivity|]. f_equal. destruct a; cbn in *; now subst.
Qed.

End AddressFacts.


(** ** The life of a handle *)

Module LifecycleFacts.
Import Socket SocketMoves.

(** The option [create] sets on a new handle. *)
Lemma create_handle_fresh handle t b tr :
  create_handle handle (mkState (mkSocket t invalidSocket b) tr)
  = (tt, mkState (mkSocket t handle b)
                 (tr ++ (if handle =? invalidSocket then []
                         else [sys_setBlocking handle b])
                     ++ [sys_setsockopt handle
                           (match t with Tcp => TCP_NODELAY | Udp => SO_BROADCAST end)])).
Proof.
  cbv beta iota zeta delta
    [create_handle bind getNativeHandle set_m_socket isBlocking setBlocking
     set_m_isBlocking get_type sys ret this m_socket m_type m_isBlocking os_trace].
  change (invalidSocket =? invalidSocket) with true. cbv beta iota.
  destruct (handle =? invalidSocket); cbv beta iota zeta delta [negb];
    destruct t; cbn [app]; rewrite <- ?app_assoc; reflexivity.
Qed.

Lemma create_fresh env t b tr :
  env_socket env <> invalidSocket ->
  create env (mkState (mkSocket t invalidSocket b) tr)
  = (tt, mkState (mkSocket t (env_socket env) b)
                 (tr ++ [sys_socket t; sys_setBlocking (env_socket env) b;
                         sys_setsockopt (env_socket env)
                           (match t with Tcp => TCP_NODELAY | Udp => SO_BROADCAST end)])).
Proof.
  intros Hh. apply Z.eqb_neq in Hh.
  cbv beta iota zeta delta
    [create bind getNativeHandle get_type sys ret this m_socket m_type os_trace].
  change (invalidSocket =? invalidSocket) with true. cbv beta iota. rewrite Hh.
  rewrite create_handle_fresh, Hh. rewrite <- app_assoc. reflexivity.
Qed.

Lemma create_failed env t b tr :
  env_socket env = invalidSocket ->
  create env (mkState (mkSocket t invalidSocket b) tr)
  = (tt, mkState (mkSocket t invalidSocket b) (tr ++ [sys_socket t])).
Proof.
  intros Hh.
  cbv beta iota zeta delta
    [create bind getNativeHandle get_type sys ret this m_socket m_type os_trace].
  change (invalidSocket =? invalidSocket) with true. cbv beta iota.
  rewrite Hh. reflexivity.
Qed.

Lemma create_existing env s :
  m_socket (this s) <> invalidSocket -> create env s = (tt, s).
Proof.
  intros Hh. apply Z.eqb_neq in Hh.
  unfold create, bind, getNativeHandle, ret. now rewrite Hh.
Qed.

Lemma close_open t h b tr :
  h <> invalidSocket ->
  close (mkState (mkSocket t h b) tr)
  = (tt, mkState (mkSocket t invalidSocket b) (tr ++ [sys_close h])).
Proof.
  intros Hh. apply Z.eqb_neq in Hh.
  cbv beta iota zeta delta
    [close bind getNativeHandle sys set_m_socket ret this m_socket m_type
     m_isBlocking os_trace].
  rewrite Hh. reflexivity.
Qed.

Lemma close_closed t b tr :
  close (mkState (mkSocket t invalidSocket b) tr)
  = (tt, mkState (mkSocket t invalidSocket b) tr).
Proof. reflexivity. Qed.

(** [close] then [create], as [bind] and [listen] begin: whatever the
    socket held, it ends up with the handle the operating system gave. *)
Lemma close_create env s :
  m_socket (this (snd (create env (snd (close s))))) = env_socket env
  /\ m_type (this (snd (create env (snd (close s))))) = m_type (this s)
  /\ exists rest,
      os_trace (snd (create env (snd (close s))))
      = os_trace s
        ++ (if m_socket (this s) =? invalidSocket then []
            else [sys_close (m_socket (this s))])
        ++ sys_socket (m_type (this s)) :: rest.
Proof.
  destruct s as [[t h b] tr]. cbn [this m_socket m_type os_trace].
  destruct (Z.eqb_spec h invalidSocket) as [-> | Hh].
  - rewrite close_closed. cbn [snd app].
    destruct (Z.eq_dec (env_socket env) invalidSocket) as [He | He].
    + rewrite create_failed by exact He. cbn [snd this m_socket m_type os_trace].
      repeat split; [now rewrite He|]. now exists [].
    + rewrite create_fresh by exact He. cbn [snd this m_socket m_type os_trace].
      repeat split. eexists. reflexivity.
  - rewrite close_open by exact Hh. cbn [snd app].
    destruct (Z.eq_dec (env_socket env) invalidSocket) as [He | He].
    + rewrite create_failed by exact He. cbn [snd this m_socket m_type os_trace].
      repeat split; [now rewrite He|]. exists []. now rewrite <- app_assoc.
    + rewrite create_fresh by exact He. cbn [snd this m_socket m_type os_trace].
      repeat split. eexists. rewrite <- app_assoc. reflexivity.
Qed.

(** X17. The blocking mode set before a socket has a handle is remembered
    and applied when the handle is created: [setBlocking] on a
    handle-less socket makes no system call, and the following [create]
    opens the handle, puts it in that mode and sets the option of the
    protocol (TCP_NODELAY or SO_BROADCAST), in this order. *)
Theorem blocking_mode_applied_on_create env blocking s :
  m_socket (this s) = invalidSocket -> env_socket env <> invalidSocket ->
  os_trace (snd (setBlocking blocking s)) = os_trace s
  /\ fst (isBlocking (snd (setBlocking blocking s))) = blocking
  /\ snd (create env (snd (setBlocking blocking s)))
     = mkState (mkSocket (m_type (this s)) (env_socket env) blocking)
               (os_trace s
                ++ [sys_socket (m_type (this s));
                    sys_setBlocking (env_socket env) blocking;
                    sys_setsockopt (env_socket env)
                      (match m_type (this s) with
                       | Tcp => TCP_NODELAY
                       | Udp => SO_BROADCAST
                       end)]).
Proof.
  intros Hs He. destruct s as [[t h b] tr]. cbn [this m_socket m_type os_trace] in *.
  subst h.
  assert (E : setBlocking blocking (mkState (mkSocket t invalidSocket b) tr)
              = (tt, mkState (mkSocket t invalidSocket blocking) tr)) by reflexivity.
  rewrite E. cbn [snd os_trace]. repeat split.
  now rewrite create_fresh.
Qed.

(** X18. [create] is lazy and fail-safe: on a socket that has a handle
    it does nothing at all, and when the operating system gives no
    handle the socket stays without one. *)
Theorem create_keeps_or_fails env s :
  (m_socket (this s) <> invalidSocket -> create env s = (tt, s))
  /\ (m_socket (this s) = invalidSocket -> env_socket env = invalidSocket ->
      this (snd (create env s)) = this s).
Proof.
  split.
  - apply create_existing.
  - intros Hs He. destruct s as [[t h b] tr]. cbn [this m_socket] in *. subst h.
    now rewrite create_failed.
Qed.

(** X19. A handle that [create] opened is released by [close], once:
    after [create] and [close] on a handle-less socket the socket is as
    it was, and the trace holds the opening calls followed by one
    [close] of the handle. *)
Theorem create_close_balanced env s :
  m_socket (this s) = invalidSocket -> env_socket env <> invalidSocket ->
  this (snd (close (snd (create env s)))) = this s
  /\ calls is_close (snd (close (snd (create env s))))
     = calls is_close s ++ [sys_close (env_socket env)].
Proof.
  intros Hs He. destruct s as [[t h b] tr]. cbn [this m_socket] in *. subst h.
  rewrite create_fresh by exact He. cbn [snd].
  rewrite close_open by exact He. cbn [snd this].
  split; [reflexivity|].
  unfold calls. cbn [os_trace]. rewrite !filter_app. cbn [filter is_close].
  now rewrite app_nil_r.
Qed.

(** X20. Move assignment transfers ownership: the assigned-to socket
    first releases its own handle, if it has one, then holds the handle,
    type and blocking flag of the source, and the source is left without
    a handle; assigning a socket to itself changes nothing. *)
Theorem move_assignment_transfers_handle socket s :
  this (snd (move_assign false socket s)) = socket
  /\ m_socket (fst (move_assign false socket s)) = invalidSocket
  /\ calls is_close (snd (move_assign false socket s))
     = calls is_close s
       ++ (if m_socket (this s) =? invalidSocket then []
           else [sys_close (m_socket (this s))])
  /\ move_assign true socket s = (this s, s).
Proof.
  destruct s as [[t h b] tr], socket as [t' h' b'].
  unfold move_assign, bind. cbn [this m_socket].
  destruct (Z.eqb_spec h invalidSocket) as [-> | Hh].
  - rewrite close_closed. cbn [fst snd this m_socket m_type m_isBlocking os_trace].
    repeat split. unfold calls. cbn [os_trace]. now rewrite app_nil_r.
  - rewrite close_open by exact Hh.
    cbn [fst snd this m_socket m_type m_isBlocking os_trace].
    repeat split. unfold calls. cbn [os_trace]. now rewrite filter_app.
Qed.

End LifecycleFacts.


(** ** Datagrams, listening and accepting *)

Module DatagramFacts.
Import MachineIntFacts Socket SocketMoves RejectionFacts LifecycleFacts.
Import TextFacts.

Lemma getErrorStatus_kinds e :
  getErrorStatus e = NotReady \/ getErrorStatus e = Disconnected \/ getErrorStatus e = Error.
Proof. destruct e; cbn; tauto. Qed.

Lemma getErrorStatus_not_partial e : getErrorStatus e <> Partial.
Proof. destruct e; discriminate. Qed.

Lemma getErrorStatus_not_done e : getErrorStatus e <> Done.
Proof. destruct e; discriminate. Qed.

Section Datagram.
Variable host : Endian.
Variable MaxDatagramSize : Z.

(** [bind] and [listen] after their common beginning. *)
Lemma bind_after_close_create env port address s :
  UdpSocket.bind_ host env port address s
  = (if IpAddress.eq address (IpAddress.Broadcast host) then ret Error
     else
       bind getNativeHandle (fun h =>
       bind (sys (sys_bind h (IpAddress.toInteger host address) port)) (fun _ =>
       if env_bind env =? -1 then ret Error else ret Done)))
      (snd (create env (snd (close s)))).
Proof.
  unfold UdpSocket.bind_, bind at 1 2.
  destruct (close s) as [[] s1]. cbn [snd].
  destruct (create env s1) as [[] s2]. reflexivity.
Qed.

Lemma listen_after_close_create env port address s :
  TcpListener.listen host env port address s
  = (if IpAddress.eq address (IpAddress.Broadcast host) then ret Error
     else
       bind getNativeHandle (fun h =>
       bind (sys (sys_bind h (IpAddress.toInteger host address) port)) (fun _ =>
       if env_bind env =? -1 then ret Error
       else bind (sys (sys_listen h)) (fun _ =>
            if env_listen env =? -1 then ret Error else ret Done))))
      (snd (create env (snd (close s)))).
Proof.
  unfold TcpListener.listen, bind at 1 2.
  destruct (close s) as [[] s1]. cbn [snd].
  destruct (create env s1) as [[] s2]. reflexivity.
Qed.

Lemma send_after_create env data size address port s :
  UdpSocket.send host MaxDatagramSize env data size address port s
  = (if MaxDatagramSize <? size then ret Error
     else
       bind getNativeHandle (fun h =>
       bind (sys (sys_sendto h
                    (firstn (Z.to_nat size) (match data with Some d => d | None => [] end))
                    (IpAddress.toInteger host address) port)) (fun _ =>
       if swrap 32 (env_sendto env) <? 0 then ret (getErrorStatus (env_errno env))
       else ret Done)))
      (snd (create env s)).
Proof.
  unfold UdpSocket.send, bind at 1.
  destruct (create env s) as [[] s1]. reflexivity.
Qed.

(** X21. The datagram socket and the listener never answer [Partial]:
    [bind], the two [send]s, the two [receive]s and [listen] return
    [Done], [NotReady], [Disconnected] or [Error] only. *)
Theorem datagram_status_never_partial env port address data size m_buffer packet s :
  fst (UdpSocket.bind_ host env port address s) <> Partial
  /\ fst (UdpSocket.send host MaxDatagramSize env data size address port s) <> Partial
  /\ fst (UdpSocket.send_packet host MaxDatagramSize env packet address port s) <> Partial
  /\ UdpSocket.r_status (fst (UdpSocket.receive host env data size s)) <> Partial
  /\ UdpSocket.pr_status
       (fst (UdpSocket.receive_packet host MaxDatagramSize env m_buffer packet s)) <> Partial
  /\ fst (TcpListener.listen host env port address s) <> Partial.
Proof.
  assert (Hsend : forall d n st,
             fst (UdpSocket.send host MaxDatagramSize env d n address port st) <> Partial).
  { intros d n st. rewrite send_after_create.
    unfold bind, getNativeHandle, sys, ret.
    destruct (MaxDatagramSize <? n); [discriminate|].
    destruct (swrap 32 (env_sendto env) <? 0); cbn [fst];
      [apply getErrorStatus_not_partial | discriminate]. }
  assert (Hrecv : forall d n st,
             UdpSocket.r_status (fst (UdpSocket.receive host env d n st)) <> Partial).
  { intros d n st. unfold UdpSocket.receive, bind, getNativeHandle, sys, ret.
    destruct d; [|discriminate].
    destruct (swrap 32 (env_recvfrom env) <? 0); cbn [fst UdpSocket.r_status];
      [apply getErrorStatus_not_partial | discriminate]. }
  repeat split.
  - rewrite bind_after_close_create. unfold bind, getNativeHandle, sys, ret.
    destruct (IpAddress.eq address (IpAddress.Broadcast host)); [discriminate|].
    destruct (env_bind env =? -1); discriminate.
  - apply Hsend.
  - unfold UdpSocket.send_packet. destruct (onSend packet). apply Hsend.
  - apply Hrecv.
  - unfold UdpSocket.receive_packet, bind.
    match goal with
    | |- context [UdpSocket.receive host env ?d ?n s] =>
        pose proof (Hrecv d n s) as H; destruct (UdpSocket.receive host env d n s) as [r s1]
    end.
    exact H.
  - rewrite listen_after_close_create. unfold bind, getNativeHandle, sys, ret.
    destruct (IpAddress.eq address (IpAddress.Broadcast host)); [discriminate|].
    destruct (env_bind env =? -1); [discriminate|].
    destruct (env_listen env =? -1); discriminate.
Qed.

(** X22. A packet goes out as one datagram that holds exactly its bytes,
    with no length prefix; a packet larger than [MaxDatagramSize] is
    answered with [Error] and no [sendto] call at all. *)
Theorem packet_sent_as_one_datagram env packet address port s :
  calls is_sendto (snd (UdpSocket.send_packet host MaxDatagramSize env packet address port s))
  = calls is_sendto s
    ++ (if MaxDatagramSize <? data_size packet then []
        else [sys_sendto (m_socket (this (snd (create env s)))) (m_data packet)
                (IpAddress.toInteger host address) port])
  /\ (MaxDatagramSize < data_size packet ->
      fst (UdpSocket.send_packet host MaxDatagramSize env packet address port s) = Error).
Proof.
  unfold UdpSocket.send_packet, onSend, getData, getDataSize.
  rewrite send_after_create.
  pose proof (calls_create is_sendto env s is_sendto_not_lifecycle) as E.
  destruct (create env s) as [[] s1]. cbn [snd] in *.
  destruct (Z.ltb_spec MaxDatagramSize (data_size packet)) as [Hbig | Hfit].
  - cbn [snd fst ret]. unfold ret. cbn [snd fst]. rewrite app_nil_r.
    split; [exact E | reflexivity].
  - split; [|lia].
    unfold bind, getNativeHandle, sys, ret.
    assert (Hpayload : firstn (Z.to_nat (data_size packet))
                         (match match m_data packet with
                                | [] => None
                                | _ :: _ => Some (m_data packet)
                                end with
                          | Some d => d
                          | None => []
                          end) = m_data packet).
    { unfold data_size. rewrite Nat2Z.id.
      destruct (m_data packet) as [|b tl]; [reflexivity | apply firstn_all]. }
    rewrite Hpayload.
    destruct (swrap 32 (env_sendto env) <? 0); cbn [snd];
      unfold calls in *; cbn [os_trace]; rewrite filter_app, E; reflexivity.
Qed.

(** X23. When the raw [receive] does not return [Done], its outputs hold
    what it cleared them to: zero bytes received, no sender address,
    port 0, and the destination buffer as it was.  A null buffer is
    answered with [Error] without asking the operating system. *)
Theorem failed_receive_clears_outputs env data size s :
  (UdpSocket.r_status (fst (UdpSocket.receive host env data size s)) <> Done ->
   UdpSocket.r_received (fst (UdpSocket.receive host env data size s)) = 0
   /\ UdpSocket.r_remoteAddress (fst (UdpSocket.receive host env data size s)) = None
   /\ UdpSocket.r_remotePort (fst (UdpSocket.receive host env data size s)) = 0
   /\ UdpSocket.r_data (fst (UdpSocket.receive host env data size s)) = data)
  /\ (data = None ->
      UdpSocket.r_status (fst (UdpSocket.receive host env data size s)) = Error
      /\ snd (UdpSocket.receive host env data size s) = s).
Proof.
  unfold UdpSocket.receive, bind, getNativeHandle, sys, ret. split.
  - destruct data as [buffer|]; [|intros _; repeat split].
    destruct (swrap 32 (env_recvfrom env) <? 0);
      cbn [fst UdpSocket.r_status UdpSocket.r_received UdpSocket.r_remoteAddress
           UdpSocket.r_remotePort UdpSocket.r_data];
      [intros _; repeat split | congruence].
  - intros ->. split; reflexivity.
Qed.

(** X24. A datagram that arrives is handed over whole: when [recvfrom]
    reports the length of a datagram that fits [MaxDatagramSize], the
    packet [receive] returns [Done] and leaves in the caller's packet
    exactly the bytes of the datagram, read position 0 and valid,
    whatever the packet and the receive buffer held before. *)
Theorem datagram_received_into_packet env m_buffer packet s :
  0 < MaxDatagramSize ->
  Z.of_nat (length (env_datagram env)) <= MaxDatagramSize ->
  Z.of_nat (length (env_datagram env)) < 2 ^ 31 ->
  env_recvfrom env = Z.of_nat (length (env_datagram env)) ->
  UdpSocket.pr_status
    (fst (UdpSocket.receive_packet host MaxDatagramSize env m_buffer packet s)) = Done
  /\ UdpSocket.pr_packet
       (fst (UdpSocket.receive_packet host MaxDatagramSize env m_buffer packet s))
     = mkPacket (env_datagram env) 0 (m_sendPos packet) true.
Proof.
  intros Hmax Hfit Hint Hrecv.
  unfold UdpSocket.receive_packet, bind.
  set (buffer1 := UdpSocket.vector_resize (Z.to_nat MaxDatagramSize) m_buffer).
  assert (Hlen : length buffer1 = Z.to_nat MaxDatagramSize).
  { subst buffer1. unfold UdpSocket.vector_resize.
    rewrite length_app, length_firstn, repeat_length. lia. }
  assert (Hne : UdpSocket.vector_data buffer1 = Some buffer1).
  { destruct buffer1; [cbn [length] in Hlen; lia | reflexivity]. }
  rewrite Hne. unfold UdpSocket.receive, bind, getNativeHandle, sys, ret.
  rewrite Hrecv.
  assert (Hsw : swrap 32 (Z.of_nat (length (env_datagram env)))
                = Z.of_nat (length (env_datagram env))).
  { apply swrap_small; [lia|]. unfold in_signed. change (2 ^ (32 - 1)) with (2 ^ 31). lia. }
  rewrite Hsw.
  destruct (Z.ltb_spec (Z.of_nat (length (env_datagram env))) 0); [lia|].
  cbn [fst UdpSocket.r_status UdpSocket.r_data UdpSocket.r_received
       UdpSocket.pr_status UdpSocket.pr_packet UdpSocket.status_eqb andb].
  split; [reflexivity|].
  rewrite uwrap_small by (unfold size_t_bits; lia).
  rewrite Hlen, Z2Nat.id by lia.
  rewrite (firstn_all2 (env_datagram env)) by lia.
  rewrite overwrite_fits by lia.
  destruct (Z.ltb_spec 0 (Z.of_nat (length (env_datagram env)))) as [Hpos | Hzero].
  - unfold onReceive, append.
    destruct (env_datagram env) as [|b tl] eqn:Ed; [cbn [length] in Hpos; lia|].
    cbn [app UdpSocket.vector_data].
    destruct (Z.ltb_spec 0 (Z.of_nat (length (b :: tl)))); [|lia].
    unfold set_data, clear. cbn [m_data m_readPos m_sendPos m_isValid app].
    f_equal. rewrite Nat2Z.id.
    change (b :: tl ++ skipn (length (b :: tl)) buffer1)
      with ((b :: tl) ++ skipn (length (b :: tl)) buffer1).
    rewrite firstn_app, firstn_all, Nat.sub_diag. cbn [firstn]. apply app_nil_r.
  - destruct (env_datagram env); [reflexivity | cbn [length] in Hzero; lia].
Qed.

(** X25. [bind] and [listen] always start over: whatever the address and
    whether or not the call succeeds, a handle the socket held is closed
    first and the socket ends up with the handle the operating system
    gave for the new attempt. *)
Theorem rebinding_replaces_the_handle env port address s :
  (m_socket (this (snd (UdpSocket.bind_ host env port address s))) = env_socket env
   /\ exists rest,
       os_trace (snd (UdpSocket.bind_ host env port address s))
       = os_trace s
         ++ (if m_socket (this s) =? invalidSocket then []
             else [sys_close (m_socket (this s))])
         ++ sys_socket (m_type (this s)) :: rest)
  /\ (m_socket (this (snd (TcpListener.listen host env port address s))) = env_socket env
      /\ exists rest,
          os_trace (snd (TcpListener.listen host env port address s))
          = os_trace s
            ++ (if m_socket (this s) =? invalidSocket then []
                else [sys_close (m_socket (this s))])
            ++ sys_socket (m_type (this s)) :: rest).
Proof.
  rewrite bind_after_close_create, listen_after_close_create.
  destruct (close_create env s) as (Hh & _ & rest & Ht).
  set (s2 := snd (create env (snd (close s)))) in *.
  unfold bind, getNativeHandle, sys, ret.
  destruct (IpAddress.eq address (IpAddress.Broadcast host)).
  - split; (split; [exact Hh | exists rest; exact Ht]).
  - split.
    + destruct (env_bind env =? -1); cbn [snd this os_trace];
        (split; [exact Hh | eexists; rewrite Ht, <- !app_assoc; cbn [app]; reflexivity]).
    + destruct (env_bind env =? -1); [|destruct (env_listen env =? -1)];
        cbn [snd this os_trace];
        (split; [exact Hh | eexists; rewrite Ht, <- !app_assoc; cbn [app]; reflexivity]).
Qed.

(** X26. For an address other than the broadcast address, [listen]
    returns [Done] exactly when both [bind] and [listen] of the
    operating system succeed; it binds the new handle to the address and
    port, and calls the system's [listen] only after a successful
    [bind]. *)
Theorem listen_outcome env port address s :
  IpAddress.eq address (IpAddress.Broadcast host) = false ->
  fst (TcpListener.listen host env port address s)
  = (if (env_bind env =? -1) || (env_listen env =? -1) then Error else Done)
  /\ calls is_bind_or_listen (snd (TcpListener.listen host env port address s))
     = calls is_bind_or_listen s
       ++ sys_bind (env_socket env) (IpAddress.toInteger host address) port
          :: (if env_bind env =? -1 then [] else [sys_listen (env_socket env)]).
Proof.
  intros Hb. rewrite listen_after_close_create, Hb.
  pose proof (calls_close_create is_bind_or_listen env s
                is_bind_or_listen_not_lifecycle) as E.
  destruct (close_create env s) as (Hh & _ & _).
  set (s2 := snd (create env (snd (close s)))) in *.
  unfold bind, getNativeHandle, sys, ret. rewrite Hh.
  destruct (env_bind env =? -1); [|destruct (env_listen env =? -1)];
    cbn [fst snd orb]; (split; [reflexivity|]);
    unfold calls in *; cbn [os_trace];
    rewrite !filter_app, E; cbn [filter is_bind_or_listen app];
    rewrite <- ?app_assoc; reflexivity.
Qed.

End Datagram.

(** X27. An [accept] that fails leaves the destination socket alone: when
    the listener is not listening the answer is [Error], when the
    operating system accepts nothing the answer is the status of its
    error, and in both cases the destination keeps its handle and no
    call is made on it. *)
Theorem failed_accept_leaves_destination listener remote errno s :
  m_socket listener = invalidSocket \/ remote = invalidSocket ->
  snd (ListenerAccept.accept listener remote errno s) = s
  /\ fst (ListenerAccept.accept listener remote errno s) <> Done
  /\ (m_socket listener = invalidSocket ->
      fst (ListenerAccept.accept listener remote errno s) = Error).
Proof.
  unfold ListenerAccept.accept, ret.
  intros [Hl | Hr].
  - rewrite Hl. change (invalidSocket =? invalidSocket) with true. cbn [fst snd].
    repeat split. discriminate.
  - rewrite Hr. change (invalidSocket =? invalidSocket) with true.
    destruct (m_socket listener =? invalidSocket) eqn:E; cbn [fst snd].
    + repeat split. discriminate.
    + repeat split; [apply getErrorStatus_not_done|].
      intros Hl. rewrite Hl in E. discriminate E.
Qed.

(** X28. A successful [accept] hands the connection over: the answer is
    [Done], the destination socket releases the handle it held, if any,
    and then owns the accepted handle, in the destination's blocking
    mode and with TCP_NODELAY for a stream socket. *)
Theorem accept_adopts_connection listener remote errno s :
  m_socket listener <> invalidSocket -> remote <> invalidSocket ->
  m_type (this s) = Tcp ->
  ListenerAccept.accept listener remote errno s
  = (Done,
     mkState (mkSocket Tcp remote (m_isBlocking (this s)))
             (os_trace s
              ++ (if m_socket (this s) =? invalidSocket then []
                  else [sys_close (m_socket (this s))])
              ++ [sys_setBlocking remote (m_isBlocking (this s));
                  sys_setsockopt remote TCP_NODELAY])).
Proof.
  intros Hl Hr Ht. apply Z.eqb_neq in Hl.
  unfold ListenerAccept.accept. rewrite Hl.
  pose proof Hr as Hr'. apply Z.eqb_neq in Hr'. rewrite Hr'.
  destruct s as [[t h b] tr]. cbn [this m_type m_socket m_isBlocking os_trace] in *.
  subst t. unfold bind at 1.
  destruct (Z.eqb_spec h invalidSocket) as [-> | Hh].
  - rewrite close_closed. unfold bind.
    rewrite create_handle_fresh, Hr'. unfold ret. now rewrite app_nil_l.
  - rewrite close_open by exact Hh. unfold bind.
    rewrite create_handle_fresh, Hr'. unfold ret. now rewrite <- !app_assoc.
Qed.

End DatagramFacts.


(** ** The properties above on sample inputs *)

Module ExtraInstances.
Import Socket Samples PacketStream AddressOrder.

(** A packet sent over UDP carries no length prefix. *)
Example packet_datagram_trace :
  UdpSocket.send_packet Little sample_MaxDatagramSize sample_env sample_packet
                        (IpAddress.LocalHost Little) 9000 sample_udp
  = (Done, mkState (mkSocket Udp 3 false)
                   [sys_sendto 3 [x00; x00; x00; x05] 2130706433 9000]).
Proof. reflexivity. Qed.

Lemma stream_round_trip_witness :
  snd (extract_all Big [VUInt16 0; VString []; VBool false]
         (insert_all Big [VUInt16 513; VString [x68; x69]; VBool true] empty))
  = [VUInt16 513; VString [x68; x69]; VBool true]
  /\ m_isValid (fst (extract_all Big [VUInt16 0; VString []; VBool false]
                       (insert_all Big [VUInt16 513; VString [x68; x69]; VBool true] empty)))
     = true
  /\ endOfPacket (fst (extract_all Big [VUInt16 0; VString []; VBool false]
                         (insert_all Big [VUInt16 513; VString [x68; x69]; VBool true] empty)))
     = true.
Proof.
  apply (StreamFacts.stream_round_trip Big
           [VUInt16 513; VString [x68; x69]; VBool true]
           [VUInt16 0; VString []; VBool false]).
  - repeat constructor; vm_compute; try reflexivity; discriminate.
  - repeat constructor.
  - vm_compute. reflexivity.
Defined.

Lemma wire_host_independent_witness :
  wire Little (VUInt32 7) = wire Big (VUInt32 7).
Proof. apply (StreamFacts.wire_host_independent (VUInt32 7)). exact I. Defined.

Lemma checkSize_exact_witness :
  fst (checkSize 8 sample_packet)
  = m_isValid sample_packet && (m_readPos sample_packet + 8 <=? data_size sample_packet)
  /\ m_isValid (snd (checkSize 8 sample_packet)) = fst (checkSize 8 sample_packet)
  /\ m_readPos (snd (checkSize 8 sample_packet)) = m_readPos sample_packet
  /\ m_data (snd (checkSize 8 sample_packet)) = m_data sample_packet.
Proof.
  apply (CheckFacts.checkSize_exact 8 sample_packet).
  - vm_compute. split; [discriminate | reflexivity].
  - vm_compute. split; [discriminate | reflexivity].
  - vm_compute. reflexivity.
Defined.

Lemma scalar_extraction_outcome_witness :
  extract Little (VUInt16 0) sample_packet
  = (set_readPos 2 sample_packet, VUInt16 0)
  /\ extract Little (VUInt64 9) sample_packet = (set_isValid false sample_packet, VUInt64 9).
Proof.
  split.
  - apply (CheckFacts.scalar_extraction_outcome Little (VUInt16 0) sample_packet).
    + reflexivity.
    + vm_compute. split; [discriminate | reflexivity].
    + vm_compute. reflexivity.
  - apply (CheckFacts.scalar_extraction_outcome Little (VUInt64 9) sample_packet).
    + reflexivity.
    + vm_compute. split; [discriminate | reflexivity].
    + vm_compute. reflexivity.
Defined.

Lemma read_position_stays_inside_witness :
  cursor_ok (run_ops Big [OpExtract (VUInt8 0); OpInsert (VUInt32 9); OpExtract (VString [])]
                     sample_packet)
  /\ m_readPos sample_packet
     <= m_readPos (run_ops Big [OpExtract (VUInt8 0); OpInsert (VUInt32 9);
                                OpExtract (VString [])] sample_packet)
  /\ m_sendPos (run_ops Big [OpExtract (VUInt8 0); OpInsert (VUInt32 9);
                             OpExtract (VString [])] sample_packet)
     = m_sendPos sample_packet
  /\ exists added,
      m_data (run_ops Big [OpExtract (VUInt8 0); OpInsert (VUInt32 9);
                           OpExtract (VString [])] sample_packet)
      = m_data sample_packet ++ added.
Proof.
  apply (PositionFacts.read_position_stays_inside Big
           [OpExtract (VUInt8 0); OpInsert (VUInt32 9); OpExtract (VString [])]
           sample_packet).
  vm_compute. split; discriminate.
Defined.

Lemma cstr_round_trip_witness :
  snd (extract_cstr Little (insert_cstr Little [x68; x69] empty) [x01; x02; x03; x04])
  = [x68; x69; x00; x04]
  /\ m_isValid (fst (extract_cstr Little (insert_cstr Little [x68; x69] empty)
                       [x01; x02; x03; x04])) = true.
Proof.
  apply (TextFacts.cstr_round_trip Little [x68; x69] [x01; x02; x03; x04]).
  - vm_compute. reflexivity.
  - cbn. lia.
Defined.

Lemma bool_reads_any_nonzero_witness :
  extract_bool Big (mkPacket [x01; x07] 1 0 true) false
  = (mkPacket [x01; x07] 2 0 true, true).
Proof.
  apply (TextFacts.bool_reads_any_nonzero Big (mkPacket [x01; x07] 1 0 true) false
           x07 [x01] []).
  - reflexivity.
  - reflexivity.
  - reflexivity.
  - vm_compute. reflexivity.
Defined.

Lemma address_integer_round_trip_witness :
  IpAddress.toInteger Little (IpAddress.of_integer Little 3232235832) = 3232235832
  /\ IpAddress.of_integer Little (IpAddress.toInteger Little (IpAddress.LocalHost Little))
     = IpAddress.LocalHost Little.
Proof.
  apply (AddressFacts.address_integer_round_trip Little 3232235832
           (IpAddress.LocalHost Little)).
  - vm_compute. split; [discriminate | reflexivity].
  - vm_compute. split; [discriminate | reflexivity].
  - reflexivity.
Defined.

Lemma address_order_trichotomy_witness :
  IpAddress.lt default (IpAddress.LocalHost Big) = true.
Proof.
  apply (AddressFacts.address_order_trichotomy default (IpAddress.LocalHost Big));
    reflexivity.
Defined.

Lemma address_order_transitive_witness :
  IpAddress.lt default (IpAddress.of_integer Little 2) = true.
Proof.
  apply (AddressFacts.address_order_transitive default (IpAddress.of_integer Little 1)
           (IpAddress.of_integer Little 2)); reflexivity.
Defined.

Lemma address_survives_sockaddr_witness :
  SockAddr.sin_addr (SockAddr.target Little (IpAddress.LocalHost Little) 9000)
  = IpAddress.m_address (IpAddress.LocalHost Little)
  /\ SockAddr.sender Little (SockAddr.target Little (IpAddress.LocalHost Little) 9000)
     = (IpAddress.LocalHost Little, 9000).
Proof.
  apply (AddressFacts.address_survives_sockaddr Little (IpAddress.LocalHost Little) 9000).
  - vm_compute. split; [discriminate | reflexivity].
  - reflexivity.
  - vm_compute. split; [discriminate | reflexivity].
Defined.

Lemma blocking_mode_applied_on_create_witness :
  os_trace (snd (setBlocking false sample_listener)) = []
  /\ fst (isBlocking (snd (setBlocking false sample_listener))) = false
  /\ snd (create sample_env (snd (setBlocking false sample_listener)))
     = mkState (mkSocket Tcp 5 false)
               [sys_socket Tcp; sys_setBlocking 5 false; sys_setsockopt 5 TCP_NODELAY].
Proof.
  apply (LifecycleFacts.blocking_mode_applied_on_create sample_env false sample_listener).
  - reflexivity.
  - vm_compute. discriminate.
Defined.

Lemma create_keeps_or_fails_witness :
  create sample_env sample_udp = (tt, sample_udp)
  /\ this (snd (create exhausted_env sample_listener)) = this sample_listener.
Proof.
  split.
  - apply (LifecycleFacts.create_keeps_or_fails sample_env sample_udp).
    vm_compute. discriminate.
  - apply (LifecycleFacts.create_keeps_or_fails exhausted_env sample_listener);
      reflexivity.
Defined.

Lemma create_close_balanced_witness :
  this (snd (close (snd (create sample_env sample_listener)))) = this sample_listener
  /\ calls SocketMoves.is_close (snd (close (snd (create sample_env sample_listener))))
     = [sys_close 5].
Proof.
  apply (LifecycleFacts.create_close_balanced sample_env sample_listener).
  - reflexivity.
  - vm_compute. discriminate.
Defined.

Lemma packet_sent_as_one_datagram_witness :
  fst (UdpSocket.send_packet Little 3 sample_env sample_packet
         (IpAddress.LocalHost Little) 9000 sample_udp) = Error.
Proof.
  apply (DatagramFacts.packet_sent_as_one_datagram Little 3 sample_env sample_packet
           (IpAddress.LocalHost Little) 9000 sample_udp).
  reflexivity.
Defined.

Lemma failed_receive_clears_outputs_witness :
  UdpSocket.r_received (fst (UdpSocket.receive Little sample_env (Some [x01; x02]) 2
                               sample_udp)) = 0
  /\ UdpSocket.r_remoteAddress (fst (UdpSocket.receive Little sample_env (Some [x01; x02]) 2
                                       sample_udp)) = None
  /\ UdpSocket.r_remotePort (fst (UdpSocket.receive Little sample_env (Some [x01; x02]) 2
                                    sample_udp)) = 0
  /\ UdpSocket.r_data (fst (UdpSocket.receive Little sample_env (Some [x01; x02]) 2
                              sample_udp)) = Some [x01; x02].
Proof.
  apply (DatagramFacts.failed_receive_clears_outputs Little sample_env (Some [x01; x02]) 2
           sample_udp).
  vm_compute. discriminate.
Defined.

Lemma datagram_received_into_packet_witness :
  UdpSocket.pr_status
    (fst (UdpSocket.receive_packet Little 8 datagram_env [x09] sample_packet sample_udp))
  = Done
  /\ UdpSocket.pr_packet
       (fst (UdpSocket.receive_packet Little 8 datagram_env [x09] sample_packet sample_udp))
     = mkPacket [x0a; x0b] 0 0 true.
Proof.
  apply (DatagramFacts.datagram_received_into_packet Little 8 datagram_env [x09]
           sample_packet sample_udp).
  - reflexivity.
  - vm_compute. discriminate.
  - vm_compute. reflexivity.
  - reflexivity.
Defined.

Lemma listen_outcome_witness :
  fst (TcpListener.listen Little sample_env 9000 (IpAddress.LocalHost Little)
         sample_listener) = Done
  /\ calls is_bind_or_listen
       (snd (TcpListener.listen Little sample_env 9000 (IpAddress.LocalHost Little)
               sample_listener))
     = [sys_bind 5 2130706433 9000; sys_listen 5].
Proof.
  apply (DatagramFacts.listen_outcome Little sample_env 9000 (IpAddress.LocalHost Little)
           sample_listener).
  reflexivity.
Defined.

Lemma failed_accept_leaves_destination_witness :
  snd (ListenerAccept.accept TcpListener.new 7 EAGAIN sample_tcp) = sample_tcp
  /\ fst (ListenerAccept.accept TcpListener.new 7 EAGAIN sample_tcp) <> Done
  /\ (m_socket TcpListener.new = invalidSocket ->
      fst (ListenerAccept.accept TcpListener.new 7 EAGAIN sample_tcp) = Error).
Proof.
  apply (DatagramFacts.failed_accept_leaves_destination TcpListener.new 7 EAGAIN sample_tcp).
  left. reflexivity.
Defined.

Lemma accept_adopts_connection_witness :
  ListenerAccept.accept (mkSocket Tcp 4 true) 7 EAGAIN sample_tcp
  = (Done, mkState (mkSocket Tcp 7 true)
                   [sys_close 3; sys_setBlocking 7 true; sys_setsockopt 7 TCP_NODELAY]).
Proof.
  apply (DatagramFacts.accept_adopts_connection (mkSocket Tcp 4 true) 7 EAGAIN sample_tcp).
  - vm_compute. discriminate.
  - vm_compute. discriminate.
  - reflexivity.
Defined.

End ExtraInstances.
